(** * missav-bot-go: harvest, persistence and delivery, checked against the code

  A shallow embedding of the parts of the repository that its specification
  makes statements about:

  - [GoStrings]: the string helpers of Go's standard library that the code
    calls ([strings.ToUpper], [strings.ToLower], [strings.Contains],
    [strings.TrimSpace], [strings.HasPrefix], [strings.TrimPrefix]) and the
    compiled pattern [codePattern];
  - [Crawler]: [NormalizeCode] and [ExtractCode];
  - [HTTPCrawler]: the paginated harvest operations [CrawlNewVideos],
    [CrawlByActor] and [CrawlByKeyword];
  - [Model], [Store], [Push], [Bot]: the records, the persistence layer
    ([MySQLStore]), the delivery engine ([push.Service]) and the subscribe
    command;
  - [Scheduler]: the try-lock protocol of [Scheduler.TryRun] and
    [Scheduler.executeCrawl] as an interleaving transition system;
  - [CrawlerHelpers], [Retry], [Detail], [Pages]: the parser's helpers for
    codes, links and durations, [fetchWithRetry], the detail crawl
    ([CrawlVideoDetail], [CrawlByCode], [ParseVideoDetail]) and the page
    sequence of a harvest;
  - [StoreMore], [PushMore], [Formatter]: the rest of the video table, the
    subscription table, the delivery history and [EscapeMarkdown];
  - [SchedulerMore], [Cycle], [BotMore]: [IsRunning], progress of the
    triggers, one cycle ([RunOnce]), and the commands [handleSubscribe],
    [handleUnsubscribe] and [autoSubscribeGroup].

  Go strings are modelled as byte strings ([string] of [ascii]).  The
  pattern [codePattern] is modelled on every byte string, with the two runes
  outside ASCII that its [(?i)] folds into [[A-Z]].  [ToUpper], [ToLower]
  and [TrimSpace] are Go's on text of ASCII bytes ([ascii_text]): letter
  case and white space are the ASCII ones and the bytes of any other rune
  are left as they are; Go's Unicode case tables are not part of the
  repository, and the matching of subscriptions is therefore also given over
  an arbitrary lower-casing function ([MatchesSubscription_with]).

  Whatever lies outside the repository answers through explicit
  environments: the fault of each database query, the error of each
  Telegram call, what a fetch or the headless browser returns. *)

From Stdlib Require Import ZArith Ascii String List Bool Lia.
From stdpp Require Import base tactics option list strings pretty gmap.

Local Open Scope Z_scope.

(** String append computes on its first argument in the proofs below. *)
#[global] Arguments String.append !_ _ / : simpl nomatch.

(* ===================================================================== *)
(** * Go's [strings] package, on byte strings *)
(* ===================================================================== *)

Module GoStrings.

(** Byte classes, by their code. *)
Definition byte_in (lo hi : nat) (c : ascii) : bool :=
  (Nat.leb lo (nat_of_ascii c) && Nat.leb (nat_of_ascii c) hi)%bool.

Definition is_upper : ascii -> bool := byte_in 65 90.
Definition is_lower : ascii -> bool := byte_in 97 122.
Definition is_digit : ascii -> bool := byte_in 48 57.
Definition is_letter (c : ascii) : bool := (is_upper c || is_lower c)%bool.

(** [unicode.IsSpace] on one byte: tab, line feed, vertical tab, form feed,
    carriage return and space. *)
Definition is_space (c : ascii) : bool :=
  (byte_in 9 13 c || byte_in 32 32 c)%bool.

Definition upper_byte (c : ascii) : ascii :=
  if is_lower c then ascii_of_nat (nat_of_ascii c - 32) else c.

Definition lower_byte (c : ascii) : ascii :=
  if is_upper c then ascii_of_nat (nat_of_ascii c + 32) else c.

Fixpoint map_bytes (f : ascii -> ascii) (s : string) : string :=
  match s with
  | EmptyString => EmptyString
  | String c s' => String (f c) (map_bytes f s')
  end.

(** [strings.ToUpper] and [strings.ToLower], as they act on text of ASCII
    bytes: the letters a-z and A-Z change case, every other byte stays. *)
Definition ToUpper (s : string) : string := map_bytes upper_byte s.
Definition ToLower (s : string) : string := map_bytes lower_byte s.

(** [strings.HasPrefix s prefix]. *)
Fixpoint HasPrefix (s prefix : string) {struct prefix} : bool :=
  match prefix, s with
  | EmptyString, _ => true
  | String a prefix', String b s' => (Ascii.eqb a b && HasPrefix s' prefix')%bool
  | String _ _, EmptyString => false
  end.

(** [strings.Contains s substr]: [substr] occurs at some offset of [s]. *)
Fixpoint Contains (s substr : string) : bool :=
  if HasPrefix s substr then true
  else match s with
       | EmptyString => false
       | String _ s' => Contains s' substr
       end.

Fixpoint drop_bytes (n : nat) (s : string) : string :=
  match n, s with
  | S n', String _ s' => drop_bytes n' s'
  | _, _ => s
  end.

(** [strings.TrimPrefix s prefix]. *)
Definition TrimPrefix (s prefix : string) : string :=
  if HasPrefix s prefix then drop_bytes (String.length prefix) s else s.

Fixpoint trim_left (s : string) : string :=
  match s with
  | String c s' => if is_space c then trim_left s' else s
  | EmptyString => EmptyString
  end.

Fixpoint trim_right (s : string) : string :=
  match s with
  | String c s' =>
      match trim_right s' with
      | EmptyString => if is_space c then EmptyString else String c EmptyString
      | r => String c r
      end
  | EmptyString => EmptyString
  end.

(** [strings.TrimSpace], for the white space of ASCII. *)
Definition TrimSpace (s : string) : string := trim_right (trim_left s).

(** The longest prefix of [s] whose bytes all satisfy [p], and the rest. *)
Fixpoint span (p : ascii -> bool) (s : string) : string * string :=
  match s with
  | String c s' =>
      if p c then let '(a, b) := span p s' in (String c a, b)
      else (EmptyString, s)
  | EmptyString => (EmptyString, EmptyString)
  end.

(** Every byte of [s] satisfies [p]. *)
Fixpoint all_bytes (p : ascii -> bool) (s : string) : bool :=
  match s with
  | EmptyString => true
  | String c s' => (p c && all_bytes p s')%bool
  end.

(** The rest of a span is empty or starts with a byte that fails [p]. *)
Definition stops (p : ascii -> bool) (b : string) : Prop :=
  match b with String c _ => p c = false | EmptyString => True end.

(** [p] holds of each of the 256 bytes. *)
Definition all_ascii (p : ascii -> bool) : bool :=
  forallb p (map ascii_of_nat (seq 0 256)).

(** A byte below 128 is an ASCII rune by itself; [ascii_text s]: the text
    [s] has no other byte. *)
Definition is_ascii : ascii -> bool := byte_in 0 127.
Definition ascii_text (s : string) : bool := all_bytes is_ascii s.

(** The byte with code [n]. *)
Definition byte_is (n : nat) (c : ascii) : bool := Nat.eqb (nat_of_ascii c) n.

End GoStrings.

(* ===================================================================== *)
(** * internal/crawler: code extraction *)
(* ===================================================================== *)

Module Crawler.
Import GoStrings.

(** The two runes outside ASCII that the case folding of [(?i)] puts into
    the class [[A-Z]]: U+017F (the long s, which folds to S), in UTF-8 the
    bytes C5 BF, and U+212A (the Kelvin sign, which folds to K), the bytes
    E2 84 AA. *)
Definition long_s : string :=
  String (ascii_of_nat 197) (String (ascii_of_nat 191) EmptyString).
Definition kelvin : string :=
  String (ascii_of_nat 226)
    (String (ascii_of_nat 132) (String (ascii_of_nat 170) EmptyString)).

(** The longest prefix of [s] made of runes that [(?i)[A-Z]] matches, and
    the rest: the letters of either case, the long s and the Kelvin sign.
    A byte C5 or E2 always starts a rune, so reading bytes is reading
    runes. *)
Fixpoint span_letters (s : string) : string * string :=
  match s with
  | String c s1 =>
      if is_letter c then
        let '(a, b) := span_letters s1 in (String c a, b)
      else if byte_is 197 c then
        match s1 with
        | String d s2 =>
            if byte_is 191 d then
              let '(a, b) := span_letters s2 in (String c (String d a), b)
            else (EmptyString, s)
        | EmptyString => (EmptyString, s)
        end
      else if byte_is 226 c then
        match s1 with
        | String d (String e s3) =>
            if (byte_is 132 d && byte_is 170 e)%bool then
              let '(a, b) := span_letters s3 in
              (String c (String d (String e a)), b)
            else (EmptyString, s)
        | _ => (EmptyString, s)
        end
      else (EmptyString, s)
  | EmptyString => (EmptyString, EmptyString)
  end.

(** [codePattern = regexp.MustCompile(`(?i)([A-Z]+-\d+)`)], anchored at the
    start of [s]: a greedy run of letters as [(?i)] reads them, a dash, a
    greedy run of digits ([\d] is [[0-9]]).  A shorter run of letters can
    never be followed by the dash, so the greedy choice is the only one the
    engine can succeed with. *)
Definition codePattern_at (s : string) : option string :=
  let '(letters, rest) := span_letters s in
  match letters, rest with
  | String _ _, String d rest' =>
      if Ascii.eqb d "-" then
        let '(digits, _) := span is_digit rest' in
        match digits with
        | String _ _ => Some (letters +:+ String "-"%char digits)
        | EmptyString => None
        end
      else None
  | _, _ => None
  end.

(** [codePattern.FindStringSubmatch(text)], group 1: the match at the
    leftmost offset at which the pattern matches. *)
Fixpoint codePattern_find (text : string) : option string :=
  match codePattern_at text with
  | Some m => Some m
  | None =>
      match text with
      | String _ text' => codePattern_find text'
      | EmptyString => None
      end
  end.

(** [NormalizeCode]. *)
Definition NormalizeCode (code : string) : string :=
  if String.eqb code "" then "" else ToUpper code.

(** [ExtractCode]. *)
Definition ExtractCode (text : string) : string :=
  if String.eqb text "" then ""
  else match codePattern_find text with
       | Some m => NormalizeCode m
       | None => ""
       end.

(** The specification's words for C6: [m] has the shape [[A-Za-z]+-[0-9]+] ... *)
Definition code_shape (m : string) : Prop :=
  exists letters digits,
    m = letters +:+ String "-"%char digits
    /\ letters <> "" /\ digits <> ""
    /\ all_bytes is_letter letters = true
    /\ all_bytes is_digit digits = true.

(** ... [x] contains such a substring ... *)
Definition contains_code (x : string) : Prop :=
  exists pre m post, x = pre +:+ m +:+ post /\ code_shape m.

(** ... and [m] is the first one: no substring of that shape starts further
    to the left, and none that starts at the same offset is longer. *)
Definition first_code_match (x m : string) : Prop :=
  exists pre post,
    x = pre +:+ m +:+ post /\ code_shape m
    /\ forall pre' m' post',
         x = pre' +:+ m' +:+ post' -> code_shape m' ->
         (String.length pre <= String.length pre')%nat
         /\ (String.length pre' = String.length pre ->
             (String.length m' <= String.length m)%nat).

(** The specification's pattern [[A-Za-z]+-[0-9]+] as a search: its match
    anchored at the start of [s] (greedy runs of ASCII letters and of
    digits around a dash) ... *)
Definition ascii_pattern_at (s : string) : option string :=
  let '(letters, rest) := span is_letter s in
  match letters, rest with
  | String _ _, String d rest' =>
      if Ascii.eqb d "-" then
        let '(digits, _) := span is_digit rest' in
        match digits with
        | String _ _ => Some (letters +:+ String "-"%char digits)
        | EmptyString => None
        end
      else None
  | _, _ => None
  end.

(** ... and its match at the leftmost offset that has one. *)
Fixpoint ascii_pattern_find (text : string) : option string :=
  match ascii_pattern_at text with
  | Some m => Some m
  | None =>
      match text with
      | String _ text' => ascii_pattern_find text'
      | EmptyString => None
      end
  end.

(** The text [K-1] written with the Kelvin sign. *)
Definition kelvin_code : string := kelvin +:+ "-1".


End Crawler.

(* ===================================================================== *)
(** * internal/model *)
(* ===================================================================== *)

Module Model.

(** [type SubscriptionType string] and its three constants. *)
Definition SubscriptionType := string.
Definition SubTypeAll : SubscriptionType := "ALL".
Definition SubTypeActress : SubscriptionType := "ACTRESS".
Definition SubTypeTag : SubscriptionType := "TAG".

(** [type PushStatus string]. *)
Definition PushStatus := string.
Definition PushStatusSuccess : PushStatus := "SUCCESS".
Definition PushStatusFailed : PushStatus := "FAILED".

(** [model.Video]; [uint] and [int] fields are integers, time stamps are
    left out (the order of rows stands for [created_at]). *)
Record Video := {
  ID : Z;
  Code : string;
  Title : string;
  Actresses : string;
  Tags : string;
  Duration : Z;
  CoverURL : string;
  PreviewURL : string;
  DetailURL : string;
  Pushed : bool
}.

(** [model.Subscription]. *)
Record Subscription := {
  SubID : Z;
  ChatID : Z;
  ChatType : string;
  SubType : SubscriptionType;
  Keyword : string;
  Enabled : bool
}.

(** [model.PushRecord]. *)
Record PushRecord := {
  RecID : Z;
  VideoID : Z;
  RecChatID : Z;
  Status : PushStatus;
  FailReason : string;
  MessageID : Z;
  PushedAt : Z
}.

Definition set_Pushed (b : bool) (v : Video) : Video :=
  {| ID := ID v; Code := Code v; Title := Title v; Actresses := Actresses v;
     Tags := Tags v; Duration := Duration v; CoverURL := CoverURL v;
     PreviewURL := PreviewURL v; DetailURL := DetailURL v; Pushed := b |}.

Definition set_ID (i : Z) (v : Video) : Video :=
  {| ID := i; Code := Code v; Title := Title v; Actresses := Actresses v;
     Tags := Tags v; Duration := Duration v; CoverURL := CoverURL v;
     PreviewURL := PreviewURL v; DetailURL := DetailURL v; Pushed := Pushed v |}.

End Model.

(** Go's [(T, error)] results. *)
Definition error := string.

Inductive result (A : Type) : Type :=
| Ok (a : A)
| Err (e : error).
Arguments Ok {A} a.
Arguments Err {A} e.

(* ===================================================================== *)
(** * internal/crawler: [HTTPCrawler] *)
(* ===================================================================== *)

Module HTTPCrawler.
Import Model GoStrings.

Definition BaseURL : string := "https://missav.ai".
Definition newVideosPath : string := "/new".
Definition actressesPath : string := "/actresses/".
Definition searchPath : string := "/search/".

(** Go's [int] on the 64-bit targets the bot is built for. *)
Definition wrap64 (z : Z) : Z := (z + 2 ^ 63) mod 2 ^ 64 - 2 ^ 63.

Definition len {A : Type} (l : list A) : Z := Z.of_nat (length l).

(** The session warm-up ([initCookies]) and the pacing sleeps change neither
    what a harvest returns nor which pages it asks for; they are left out. *)

(** What one harvest meets outside the crawler: whether [ctx.Done()] is
    closed when the iteration for a page starts, what [fetchWithRetry]
    returns for a URL, what the headless browser ([getBrowser] and
    [FetchRenderedHTML]) returns for it, and the two pure helpers the loops
    call: the parser and [url.PathEscape]. *)
Record World := {
  ctx_done : Z -> bool;
  fetchWithRetry : string -> result string;
  FetchRenderedHTML : string -> result string;
  ParseVideoList : string -> result (list Video);
  PathEscape : string -> string
}.

(** The requests a harvest makes, in order, each with the page it is for. *)
Inductive Event :=
| Fetched (page : Z) (url : string)
| Rendered (page : Z) (url : string).

Definition is_rendered (e : Event) : bool :=
  match e with Rendered _ _ => true | Fetched _ _ => false end.

(** The calls of the rendering fallback in a log. *)
Definition rendered (log : list Event) : list Event :=
  filter (fun e => is_rendered e = true) log.

(** The outcome of a harvest: the videos, the error, the requests made. *)
Record Harvest := {
  found : list Video;
  failure : option error;
  requests : list Event
}.

(** [pageURL], with [fmt.Sprintf("%s?page=%d", pageURL, page)] from page 2 on. *)
Definition page_url (base : string) (page : Z) : string :=
  if 1 <? page then base +:+ "?page=" +:+ pretty page else base.

(** [crawlWithBrowser]. *)
Definition crawlWithBrowser (w : World) (pageURL : string) : result (list Video) :=
  match FetchRenderedHTML w pageURL with
  | Err e => Err e
  | Ok html => ParseVideoList w html
  end.

Definition canceled : error := "context canceled".

(** The loop of [CrawlNewVideos]; [n] counts the iterations that
    [page <= pages] still allows. *)
Fixpoint new_videos_loop (w : World) (base : string) (n : nat) (page : Z)
    (allVideos : list Video) (log : list Event) : Harvest :=
  match n with
  | O => {| found := allVideos; failure := None; requests := log |}
  | S n' =>
      if ctx_done w page
      then {| found := allVideos; failure := Some canceled; requests := log |}
      else
        let pageURL := page_url base page in
        let log := log ++ [Fetched page pageURL] in
        match fetchWithRetry w pageURL with
        | Err _ =>
            (* If first page fails with HTTP, try headless browser *)
            if page =? 1 then
              let log := log ++ [Rendered page pageURL] in
              match crawlWithBrowser w pageURL with
              | Ok videos =>
                  if 0 <? len videos
                  then new_videos_loop w base n' (page + 1) (allVideos ++ videos) log
                  else new_videos_loop w base n' (page + 1) allVideos log
              | Err _ => new_videos_loop w base n' (page + 1) allVideos log
              end
            else new_videos_loop w base n' (page + 1) allVideos log
        | Ok html =>
            match ParseVideoList w html with
            | Err _ => new_videos_loop w base n' (page + 1) allVideos log
            | Ok videos =>
                (* If first page returns empty, try headless browser *)
                if ((page =? 1) && (len videos =? 0))%bool then
                  let log := log ++ [Rendered page pageURL] in
                  let videos :=
                    match crawlWithBrowser w pageURL with
                    | Ok browserVideos =>
                        if 0 <? len browserVideos then browserVideos else videos
                    | Err _ => videos
                    end in
                  new_videos_loop w base n' (page + 1) (allVideos ++ videos) log
                else new_videos_loop w base n' (page + 1) (allVideos ++ videos) log
            end
        end
  end.

(** [CrawlNewVideos]. *)
Definition CrawlNewVideos (w : World) (pages : Z) : Harvest :=
  new_videos_loop w (BaseURL +:+ newVideosPath) (Z.to_nat pages) 1 [] [].

(** [maxPages := (limit + 11) / 12]. *)
Definition maxPages (limit : Z) : Z := Z.quot (wrap64 (limit + 11)) 12.

(** The loop of [CrawlByActor]; [n] counts the iterations that
    [page <= maxPages] still allows. *)
Fixpoint actor_loop (w : World) (base : string) (limit : Z) (n : nat) (page : Z)
    (allVideos : list Video) (log : list Event) : Harvest :=
  match n with
  | O => {| found := allVideos; failure := None; requests := log |}
  | S n' =>
      if ctx_done w page
      then {| found := allVideos; failure := Some canceled; requests := log |}
      else
        let pageURL := page_url base page in
        let log := log ++ [Fetched page pageURL] in
        match fetchWithRetry w pageURL with
        | Err _ => {| found := allVideos; failure := None; requests := log |}
        | Ok html =>
            match ParseVideoList w html with
            | Err _ => {| found := allVideos; failure := None; requests := log |}
            | Ok videos =>
                if len videos =? 0
                then {| found := allVideos; failure := None; requests := log |}
                else
                  let allVideos := allVideos ++ videos in
                  if limit <=? len allVideos
                  then {| found := take (Z.to_nat limit) allVideos;
                          failure := None; requests := log |}
                  else actor_loop w base limit n' (page + 1) allVideos log
            end
        end
  end.

(** [CrawlByActor]. *)
Definition CrawlByActor (w : World) (actorName : string) (limit : Z) : Harvest :=
  actor_loop w (BaseURL +:+ actressesPath +:+ PathEscape w actorName) limit
    (Z.to_nat (maxPages limit)) 1 [] [].

(** The loop of [CrawlByKeyword]. *)
Fixpoint keyword_loop (w : World) (base : string) (limit : Z) (n : nat) (page : Z)
    (allVideos : list Video) (log : list Event) : Harvest :=
  match n with
  | O => {| found := allVideos; failure := None; requests := log |}
  | S n' =>
      if ctx_done w page
      then {| found := allVideos; failure := Some canceled; requests := log |}
      else
        let pageURL := page_url base page in
        let log := log ++ [Fetched page pageURL] in
        match fetchWithRetry w pageURL with
        | Err _ =>
            (* Try headless browser on first page *)
            if page =? 1 then
              let log := log ++ [Rendered page pageURL] in
              match crawlWithBrowser w pageURL with
              | Ok browserVideos =>
                  if 0 <? len browserVideos
                  then keyword_loop w base limit n' (page + 1)
                         (allVideos ++ browserVideos) log
                  else {| found := allVideos; failure := None; requests := log |}
              | Err _ => {| found := allVideos; failure := None; requests := log |}
              end
            else {| found := allVideos; failure := None; requests := log |}
        | Ok html =>
            match ParseVideoList w html with
            | Err _ => {| found := allVideos; failure := None; requests := log |}
            | Ok videos =>
                (* If first page returns empty, try headless browser *)
                let fallback := ((page =? 1) && (len videos =? 0))%bool in
                let log := if fallback then log ++ [Rendered page pageURL] else log in
                let videos :=
                  if fallback then
                    match crawlWithBrowser w pageURL with
                    | Ok browserVideos =>
                        if 0 <? len browserVideos then browserVideos else videos
                    | Err _ => videos
                    end
                  else videos in
                if len videos =? 0
                then {| found := allVideos; failure := None; requests := log |}
                else
                  let allVideos := allVideos ++ videos in
                  if limit <=? len allVideos
                  then {| found := take (Z.to_nat limit) allVideos;
                          failure := None; requests := log |}
                  else keyword_loop w base limit n' (page + 1) allVideos log
            end
        end
  end.

(** [CrawlByKeyword]. *)
Definition CrawlByKeyword (w : World) (keyword : string) (limit : Z) : Harvest :=
  keyword_loop w (BaseURL +:+ searchPath +:+ PathEscape w keyword) limit
    (Z.to_nat (maxPages limit)) 1 [] [].

(** The specification's words for C8, second half: in the requests of a harvest
    over [base], a page from 2 on that yields zero records is the last page
    fetched. *)
Definition stops_at_empty_page (w : World) (base : string) (h : Harvest) : Prop :=
  forall page html,
    2 <= page ->
    In (Fetched page (page_url base page)) (requests h) ->
    fetchWithRetry w (page_url base page) = Ok html ->
    ParseVideoList w html = Ok [] ->
    ~ In (Fetched (page + 1) (page_url base (page + 1))) (requests h).

Definition event_page (e : Event) : Z :=
  match e with Fetched p _ | Rendered p _ => p end.

(** The plain fetch of [page] succeeds and the parser finds no record. *)
Definition empty_page (w : World) (base : string) (page : Z) : Prop :=
  exists html,
    fetchWithRetry w (page_url base page) = Ok html /\ ParseVideoList w html = Ok [].

(** What the loops know about the requests made before page [q]: they are
    for earlier pages, and no page from 2 on among them was empty. *)
Definition before_page (w : World) (base : string) (q : Z) (log : list Event) : Prop :=
  (forall e, In e log -> event_page e < q)
  /\ (forall page, 2 <= page -> In (Fetched page (page_url base page)) log ->
                   ~ empty_page w base page).

End HTTPCrawler.

(* ===================================================================== *)
(** * internal/store: [MySQLStore] *)
(* ===================================================================== *)

Module Store.
Import Model GoStrings.

(** The three tables.  [videos] is kept most recently created first, the
    order of [ORDER BY created_at DESC]; [code] carries a unique index;
    [next_id] is the auto-increment counter of [videos] (a harvested video
    carries ID 0 and receives the next id on insertion). *)
Record MySQLStore := {
  videos : list Video;
  subscriptions : list Subscription;
  push_records : list PushRecord;
  next_id : Z
}.

Definition empty : MySQLStore :=
  {| videos := []; subscriptions := []; push_records := []; next_id := 1 |}.

Definition with_videos (vs : list Video) (n : Z) (db : MySQLStore) : MySQLStore :=
  {| videos := vs; subscriptions := subscriptions db;
     push_records := push_records db; next_id := n |}.

Definition has_code (code : string) (v : Video) : bool := String.eqb (Code v) code.

(** [INSERT ... ON CONFLICT (code) DO NOTHING]; the boolean is the row
    count the statement reports. *)
Definition insert_or_ignore (v : Video) (db : MySQLStore) : MySQLStore * bool :=
  if existsb (has_code (Code v)) (videos db) then (db, false)
  else (with_videos (set_ID (next_id db) v :: videos db) (next_id db + 1) db, true).

(** Every operation takes [fault], the [result.Error] of its query:
    [None] when the database answers. *)

(** [SaveVideo]. *)
Definition SaveVideo (fault : option error) (video : Video) (db : MySQLStore)
  : MySQLStore * option error :=
  let video := set_Pushed false video in
  match fault with
  | Some e => (db, Some ("failed to save video: " +:+ e))
  | None => (fst (insert_or_ignore video db), None)
  end.

Fixpoint insert_batch (vs : list Video) (db : MySQLStore) : MySQLStore * Z :=
  match vs with
  | [] => (db, 0)
  | v :: vs' =>
      let '(db1, inserted) := insert_or_ignore v db in
      let '(db2, n) := insert_batch vs' db1 in
      (db2, (if inserted then 1 else 0) + n)
  end.

(** [SaveVideos]: the new store, [saved], [duplicates] and the error. *)
Definition SaveVideos (fault : option error) (videos : list Video) (db : MySQLStore)
  : MySQLStore * (Z * Z * option error) :=
  if (Z.of_nat (length videos) =? 0) then (db, (0, 0, None))
  else
    let videos := map (set_Pushed false) videos in
    match fault with
    | Some e => (db, (0, 0, Some ("failed to save videos: " +:+ e)))
    | None =>
        let '(db', rows) := insert_batch videos db in
        (db', (rows, Z.of_nat (length videos) - rows, None))
    end.

(** [GetVideoByCode]: [Ok None] is Go's [nil, nil]. *)
Definition GetVideoByCode (fault : option error) (code : string) (db : MySQLStore)
  : result (option Video) :=
  match fault with
  | Some e => Err ("failed to get video by code: " +:+ e)
  | None => Ok (find (has_code code) (videos db))
  end.

(** [GetUnpushedVideos]. *)
Definition GetUnpushedVideos (fault : option error) (db : MySQLStore)
  : result (list Video) :=
  match fault with
  | Some e => Err ("failed to get unpushed videos: " +:+ e)
  | None => Ok (filter (fun v => Pushed v = false) (videos db))
  end.

(** [MarkAsPushed]: [UPDATE videos SET pushed = true WHERE id = ?]. *)
Definition MarkAsPushed (fault : option error) (videoID : Z) (db : MySQLStore)
  : MySQLStore * option error :=
  match fault with
  | Some e => (db, Some ("failed to mark video as pushed: " +:+ e))
  | None =>
      (with_videos
         (map (fun v => if ID v =? videoID then set_Pushed true v else v) (videos db))
         (next_id db) db, None)
  end.

(** [GetAllSubscriptions]. *)
Definition GetAllSubscriptions (fault : option error) (db : MySQLStore)
  : result (list Subscription) :=
  match fault with
  | Some e => Err ("failed to get all subscriptions: " +:+ e)
  | None => Ok (filter (fun s => Enabled s = true) (subscriptions db))
  end.

(** [containsIgnoreCase], over the lower-casing function [lower] that
    stands for [strings.ToLower]. *)
Definition containsIgnoreCase_with (lower : string -> string) (s substr : string)
  : bool :=
  Contains (lower s) (lower substr).

(** [matchesSubscription] of the store (both arguments are non-nil there),
    over [lower]. *)
Definition matchesSubscription_with (lower : string -> string)
    (video : Video) (sub : Subscription) : bool :=
  if String.eqb (SubType sub) SubTypeAll then true
  else if String.eqb (SubType sub) SubTypeActress then
    containsIgnoreCase_with lower (Actresses video) (Keyword sub)
  else if String.eqb (SubType sub) SubTypeTag then
    containsIgnoreCase_with lower (Tags video) (Keyword sub)
  else false.

(** [containsIgnoreCase] and [matchesSubscription] with the lower-casing of
    [GoStrings]. *)
Definition containsIgnoreCase : string -> string -> bool :=
  containsIgnoreCase_with ToLower.

Definition matchesSubscription : Video -> Subscription -> bool :=
  matchesSubscription_with ToLower.

(** [GetMatchingSubscriptions]. *)
Definition GetMatchingSubscriptions (fault : option error) (video : Video)
    (db : MySQLStore) : result (list Subscription) :=
  match GetAllSubscriptions fault db with
  | Err e => Err e
  | Ok allSubs => Ok (filter (fun s => matchesSubscription video s = true) allSubs)
  end.

(** [RecordPush]: stamps the record and appends it. *)
Definition RecordPush (fault : option error) (now : Z) (record : PushRecord)
    (db : MySQLStore) : MySQLStore * option error :=
  let record :=
    {| RecID := Z.of_nat (length (push_records db)) + 1;
       VideoID := VideoID record; RecChatID := RecChatID record;
       Status := Status record; FailReason := FailReason record;
       MessageID := MessageID record; PushedAt := now |} in
  match fault with
  | Some e => (db, Some ("failed to record push: " +:+ e))
  | None =>
      ({| videos := videos db; subscriptions := subscriptions db;
          push_records := push_records db ++ [record]; next_id := next_id db |}, None)
  end.

Definition is_success (videoID chatID : Z) (r : PushRecord) : bool :=
  ((VideoID r =? videoID) && (RecChatID r =? chatID)
   && String.eqb (Status r) PushStatusSuccess)%bool.

(** [SELECT count( * ) ... WHERE video_id = ? AND chat_id = ? AND status = ?]. *)
Definition count_success (videoID chatID : Z) (db : MySQLStore) : Z :=
  Z.of_nat (length (filter (fun r => is_success videoID chatID r = true) (push_records db))).

(** [HasPushed]. *)
Definition HasPushed (fault : option error) (videoID chatID : Z) (db : MySQLStore)
  : result bool :=
  match fault with
  | Some e => Err ("failed to check push status: " +:+ e)
  | None => Ok (0 <? count_success videoID chatID db)
  end.

(** The operations of the store that write to [videos], and a history of
    them. *)
Inductive VideoOp :=
| OpSaveVideo (fault : option error) (video : Video)
| OpSaveVideos (fault : option error) (videos : list Video)
| OpMarkAsPushed (fault : option error) (videoID : Z).

Definition apply_op (op : VideoOp) (db : MySQLStore) : MySQLStore :=
  match op with
  | OpSaveVideo fault v => fst (SaveVideo fault v db)
  | OpSaveVideos fault vs => fst (SaveVideos fault vs db)
  | OpMarkAsPushed fault i => fst (MarkAsPushed fault i db)
  end.

Definition run_ops (ops : list VideoOp) (db : MySQLStore) : MySQLStore :=
  fold_left (fun d op => apply_op op d) ops db.

(** [SaveVideo] called [n] times with the same video, the database
    answering each time. *)
Definition save_times (n : nat) (video : Video) (db : MySQLStore) : MySQLStore :=
  Nat.iter n (fun d => fst (SaveVideo None video d)) db.

(** The persisted rows with a given code, and the [pushed] flag of the row
    that [WHERE code = ?] finds. *)
Definition rows_with_code (code : string) (db : MySQLStore) : list Video :=
  filter (fun v => has_code code v = true) (videos db).

Definition pushed_flag (code : string) (db : MySQLStore) : option bool :=
  Pushed <$> find (has_code code) (videos db).

(** The unique index on [code]. *)
Definition unique_codes (db : MySQLStore) : Prop := NoDup (map Code (videos db)).

End Store.

(* ===================================================================== *)
(** * internal/push: the delivery engine *)
(* ===================================================================== *)

Module Push.
Import Model GoStrings Store.

(** [MatchesSubscription], over the lower-casing function [lower] that
    stands for [strings.ToLower]; [None] is a nil pointer. *)
Definition MatchesSubscription_with (lower : string -> string)
    (video : option Video) (sub : option Subscription) : bool :=
  match video, sub with
  | Some video, Some sub =>
      if String.eqb (SubType sub) SubTypeAll then true
      else if String.eqb (SubType sub) SubTypeActress then
        Contains (lower (Actresses video)) (lower (Keyword sub))
      else if String.eqb (SubType sub) SubTypeTag then
        Contains (lower (Tags video)) (lower (Keyword sub))
      else false
  | _, _ => false
  end.

(** [MatchesSubscription] with the lower-casing of [GoStrings]. *)
Definition MatchesSubscription : option Video -> option Subscription -> bool :=
  MatchesSubscription_with ToLower.

(** A call made on the [TelegramClient]. *)
Inductive Sent :=
| SentVideo (chatID : Z) (videoURL thumbURL : string)
| SentPhoto (chatID : Z) (photoURL : string)
| SentMarkdown (chatID : Z).

(** [Service]: the store it holds, and the transport calls it has made. *)
Record Service := {
  store : MySQLStore;
  outbox : list Sent
}.

(** What the collaborators answer during one [PushVideoToChat]: the fault of
    each store query, the error of [limiter.Wait], the error of each
    transport method, and the clock. *)
Record ChatEnv := {
  hasPushed_fault : option error;
  limiter_err : option error;
  sendVideo_err : option error;
  sendPhoto_err : option error;
  sendMarkdown_err : option error;
  recordPush_fault : option error;
  now : Z
}.

(** Everything answers, every send succeeds. *)
Definition calm : ChatEnv :=
  {| hasPushed_fault := None; limiter_err := None; sendVideo_err := None;
     sendPhoto_err := None; sendMarkdown_err := None; recordPush_fault := None;
     now := 0 |}.

(** Every send fails with [e]; the store answers. *)
Definition transport_down (e : error) : ChatEnv :=
  {| hasPushed_fault := None; limiter_err := None; sendVideo_err := Some e;
     sendPhoto_err := Some e; sendMarkdown_err := Some e; recordPush_fault := None;
     now := 0 |}.

(** Every send succeeds; the store answers the history query and fails to
    write the push record with [e]. *)
Definition record_down (e : error) : ChatEnv :=
  {| hasPushed_fault := None; limiter_err := None; sendVideo_err := None;
     sendPhoto_err := None; sendMarkdown_err := None; recordPush_fault := Some e;
     now := 0 |}.

(** The history query fails with [e]. *)
Definition history_down (e : error) : ChatEnv :=
  {| hasPushed_fault := Some e; limiter_err := None; sendVideo_err := None;
     sendPhoto_err := None; sendMarkdown_err := None; recordPush_fault := None;
     now := 0 |}.

Definition nonempty (s : string) : bool := negb (String.eqb s "").

(** [PushVideoToChat]. *)
Definition PushVideoToChat (env : ChatEnv) (video : Video) (chatID : Z) (s : Service)
  : Service * option error :=
  match HasPushed (hasPushed_fault env) (ID video) chatID (store s) with
  | Err e => (s, Some ("failed to check push history: " +:+ e))
  | Ok true => (s, None)
  | Ok false =>
      match limiter_err env with
      | Some e => (s, Some ("rate limiter error: " +:+ e))
      | None =>
          (* Try video first if preview URL exists *)
          let '(out1, sendErr1) :=
            if nonempty (PreviewURL video)
            then (outbox s ++ [SentVideo chatID (PreviewURL video) (CoverURL video)],
                  sendVideo_err env)
            else (outbox s, None) in
          (* Fallback to photo if video fails or no preview URL *)
          let '(out2, sendErr) :=
            if (bool_decide (sendErr1 <> None) || negb (nonempty (PreviewURL video)))%bool
            then
              if nonempty (CoverURL video)
              then (out1 ++ [SentPhoto chatID (CoverURL video)], sendPhoto_err env)
              else (out1 ++ [SentMarkdown chatID], sendMarkdown_err env)
            else (out1, sendErr1) in
          let record :=
            {| RecID := 0; VideoID := ID video; RecChatID := chatID;
               Status := match sendErr with
                         | Some _ => PushStatusFailed
                         | None => PushStatusSuccess
                         end;
               FailReason := match sendErr with Some e => e | None => "" end;
               MessageID := 0; PushedAt := now env |} in
          (* a failure to record is only logged *)
          let '(db', _) := RecordPush (recordPush_fault env) (now env) record (store s) in
          ({| store := db'; outbox := out2 |}, sendErr)
      end
  end.

(** What the collaborators answer during one [PushVideoToSubscribers]: the
    fault of the subscription query and, in order, the environment of each
    [PushVideoToChat] call ([calm] once the list is used up). *)
Record SubsEnv := {
  matching_fault : option error;
  chat_envs : list ChatEnv
}.

Definition next_env {E : Type} (dflt : E) (envs : list E) : E * list E :=
  match envs with
  | [] => (dflt, [])
  | e :: es => (e, es)
  end.

(** The loop of [PushVideoToSubscribers] over [subs], with its
    [pushedChats] map. *)
Fixpoint push_to_subs (video : Video) (subs : list Subscription)
    (envs : list ChatEnv) (pushedChats : gmap Z bool) (s : Service) : Service :=
  match subs with
  | [] => s
  | sub :: rest =>
      if default false (pushedChats !! ChatID sub)
      then push_to_subs video rest envs pushedChats s
      else
        let '(env, envs') := next_env calm envs in
        match PushVideoToChat env video (ChatID sub) s with
        | (s', Some _) => push_to_subs video rest envs' pushedChats s'
        | (s', None) =>
            push_to_subs video rest envs' (<[ChatID sub := true]> pushedChats) s'
        end
  end.

(** [PushVideoToSubscribers]. *)
Definition PushVideoToSubscribers (env : SubsEnv) (video : Video) (s : Service)
  : Service * option error :=
  match GetMatchingSubscriptions (matching_fault env) video (store s) with
  | Err e => (s, Some ("failed to get matching subscriptions: " +:+ e))
  | Ok subs => (push_to_subs video subs (chat_envs env) ∅ s, None)
  end.

(** What the collaborators answer while one video of the sweep is handled,
    and during the whole sweep. *)
Record VideoEnv := {
  subs_env : SubsEnv;
  mark_fault : option error
}.

Definition calm_video : VideoEnv :=
  {| subs_env := {| matching_fault := None; chat_envs := [] |}; mark_fault := None |}.

Record SweepEnv := {
  unpushed_fault : option error;
  video_envs : list VideoEnv
}.

(** The loop of [PushUnpushedVideos] over the fetched [videos]. *)
Fixpoint sweep (videos : list Video) (envs : list VideoEnv) (s : Service) : Service :=
  match videos with
  | [] => s
  | video :: rest =>
      let '(env, envs') := next_env calm_video envs in
      match PushVideoToSubscribers (subs_env env) video s with
      | (s', Some _) => sweep rest envs' s'
      | (s', None) =>
          (* Mark video as pushed after successful push to all subscribers *)
          let '(db', _) := MarkAsPushed (mark_fault env) (ID video) (store s') in
          sweep rest envs' {| store := db'; outbox := outbox s' |}
      end
  end.

(** [PushUnpushedVideos]. *)
Definition PushUnpushedVideos (env : SweepEnv) (s : Service) : Service * option error :=
  match GetUnpushedVideos (unpushed_fault env) (store s) with
  | Err e => (s, Some ("failed to get unpushed videos: " +:+ e))
  | Ok videos => (sweep videos (video_envs env) s, None)
  end.

(** [n] sequential [PushVideoToChat] calls for one pair, one environment
    per call: the final service and the value each call returned. *)
Fixpoint push_repeatedly (envs : list ChatEnv) (video : Video) (chatID : Z)
    (s : Service) : Service * list (option error) :=
  match envs with
  | [] => (s, [])
  | env :: envs' =>
      let '(s1, r) := PushVideoToChat env video chatID s in
      let '(s2, rs) := push_repeatedly envs' video chatID s1 in
      (s2, r :: rs)
  end.

(** The specification's words for C2: in a run of calls for one pair, every
    call after a call that returned success (nil) is a no-op, it leaves the
    service (push records and transport) as it was, and returns success. *)
Definition calls_after_success_are_noops (envs : list ChatEnv) (video : Video)
    (chatID : Z) (s : Service) : Prop :=
  forall j k,
    (j < k < length envs)%nat ->
    snd (push_repeatedly envs video chatID s) !! j = Some None ->
    fst (push_repeatedly (take (S k) envs) video chatID s)
    = fst (push_repeatedly (take k envs) video chatID s)
    /\ snd (push_repeatedly envs video chatID s) !! k = Some None.





(** [UPDATE videos SET pushed = true WHERE id = ?] on the rows. *)
Definition mark_rows (videoID : Z) (rows : list Video) : list Video :=
  map (fun v => if ID v =? videoID then set_Pushed true v else v) rows.

(** During the handling of one video the store answers. *)
Definition store_answers (env : VideoEnv) : Prop :=
  matching_fault (subs_env env) = None /\ mark_fault env = None.

End Push.

(* ===================================================================== *)
(** * internal/bot: subscription commands *)
(* ===================================================================== *)

Module Bot.
Import Model GoStrings.

(** [DetermineSubscriptionType]. *)
Definition DetermineSubscriptionType (args : string) : SubscriptionType * string :=
  let args := TrimSpace args in
  if String.eqb args "" then (SubTypeAll, "")
  else if HasPrefix args "#" then (SubTypeTag, TrimPrefix args "#")
  else (SubTypeActress, args).

(** The subscription [handleSubscribe] builds from the command argument. *)
Definition subscription_of (chatID : Z) (chatType args : string) : Subscription :=
  let '(subType, keyword) := DetermineSubscriptionType args in
  {| SubID := 0; ChatID := chatID; ChatType := chatType; SubType := subType;
     Keyword := keyword; Enabled := true |}.

End Bot.

(* ===================================================================== *)
(** * internal/scheduler: the try-lock protocol *)
(* ===================================================================== *)

Module Scheduler.
Local Open Scope nat_scope.

(** Who asks for a cycle: the timer loop ([executeCrawl]) or a manual
    caller ([TryRun]). *)
Inductive Trigger := Timer | Manual.

(** Where a trigger stands in [TryRun] / [executeCrawl].  Each constructor
    names the atomic action the trigger performs next. *)
Inductive Pc :=
| AtTryLock              (* s.mu.TryLock() *)
| AtStoreTrue            (* s.running.Store(true) *)
| AtRunOnce              (* s.RunOnce(ctx, pages) starts *)
| InRunOnce              (* s.RunOnce(ctx, pages) returns *)
| AtStoreFalse           (* deferred s.running.Store(false) *)
| AtUnlock               (* deferred s.mu.Unlock() *)
| Returned (accepted : bool).

(** The scheduler: its mutex, its [running] flag, and what an observer of
    the crawler counts (as the mock crawler of the repository's tests does):
    the cycles started, the cycles in progress, and the most that were ever
    in progress at once. *)
Record State := {
  mu : bool;
  running : bool;
  cycles : nat;
  active : nat;
  max_active : nat;
  threads : list (Trigger * Pc)
}.

Definition init (triggers : list Trigger) : State :=
  {| mu := false; running := false; cycles := 0; active := 0; max_active := 0;
     threads := map (fun t => (t, AtTryLock)) triggers |}.

Definition move (i : nat) (t : Trigger) (pc : Pc) (s : State) : list (Trigger * Pc) :=
  <[i := (t, pc)]> (threads s).

(** One atomic action of trigger [i]. *)
Definition step (i : nat) (s : State) : State :=
  match threads s !! i with
  | None => s
  | Some (t, pc) =>
      match pc with
      | AtTryLock =>
          if mu s
          then {| mu := mu s; running := running s; cycles := cycles s;
                  active := active s; max_active := max_active s;
                  threads := move i t (Returned false) s |}
          else {| mu := true; running := running s; cycles := cycles s;
                  active := active s; max_active := max_active s;
                  threads := move i t AtStoreTrue s |}
      | AtStoreTrue =>
          {| mu := mu s; running := true; cycles := cycles s;
             active := active s; max_active := max_active s;
             threads := move i t AtRunOnce s |}
      | AtRunOnce =>
          {| mu := mu s; running := running s; cycles := S (cycles s);
             active := S (active s);
             max_active := Nat.max (max_active s) (S (active s));
             threads := move i t InRunOnce s |}
      | InRunOnce =>
          {| mu := mu s; running := running s; cycles := cycles s;
             active := Nat.pred (active s); max_active := max_active s;
             threads := move i t AtStoreFalse s |}
      | AtStoreFalse =>
          {| mu := mu s; running := false; cycles := cycles s;
             active := active s; max_active := max_active s;
             threads := move i t AtUnlock s |}
      | AtUnlock =>
          {| mu := false; running := running s; cycles := cycles s;
             active := active s; max_active := max_active s;
             threads := move i t (Returned true) s |}
      | Returned _ => s
      end
  end.

(** An interleaving: the triggers that act, in order. *)
Definition run (schedule : list nat) (s : State) : State :=
  fold_left (fun s i => step i s) schedule s.

Definition holds_lock (pc : Pc) : bool :=
  match pc with
  | AtStoreTrue | AtRunOnce | InRunOnce | AtStoreFalse | AtUnlock => true
  | _ => false
  end.

Definition in_cycle (pc : Pc) : bool :=
  match pc with InRunOnce => true | _ => false end.

Definition started_cycle (pc : Pc) : bool :=
  match pc with
  | InRunOnce | AtStoreFalse | AtUnlock | Returned true => true
  | _ => false
  end.

Definition accepted (pc : Pc) : bool :=
  match pc with Returned true => true | _ => false end.

Definition skipped (pc : Pc) : bool :=
  match pc with Returned false => true | _ => false end.

Definition has_returned (pc : Pc) : bool :=
  match pc with Returned _ => true | _ => false end.

Fixpoint count (p : Pc -> bool) (ths : list (Trigger * Pc)) : nat :=
  match ths with
  | [] => 0
  | (_, pc) :: ths' => (if p pc then 1 else 0) + count p ths'
  end.

Definition all_returned (s : State) : Prop :=
  count has_returned (threads s) = length (threads s).

(** [pc] is the program point [k]. *)
Definition is_pc (k pc : Pc) : bool :=
  match k, pc with
  | AtTryLock, AtTryLock | AtStoreTrue, AtStoreTrue | AtRunOnce, AtRunOnce
  | InRunOnce, InRunOnce | AtStoreFalse, AtStoreFalse | AtUnlock, AtUnlock => true
  | Returned a, Returned b => Bool.eqb a b
  | _, _ => false
  end.

Definition weight (p : Pc -> bool) (pc : Pc) : nat := if p pc then 1 else 0.

(** What every reachable state satisfies. *)
Record invariant (s : State) : Prop := {
  inv_lock : count holds_lock (threads s) = if mu s then 1 else 0;
  inv_active : active s = count in_cycle (threads s);
  inv_cycles : cycles s = count started_cycle (threads s);
  inv_max : max_active s <= 1;
  inv_skipped :
    0 < count skipped (threads s) ->
    0 < count holds_lock (threads s) + count accepted (threads s)
}.

(** The specification's words for C5, first half: once every trigger has returned,
    exactly one of them was accepted. *)
Definition exactly_one_accepted (s : State) : Prop :=
  all_returned s -> count accepted (threads s) = 1.

End Scheduler.

(* ===================================================================== *)
(** * Sample data *)
(* ===================================================================== *)

Module Samples.
Import Model Store Push.

Definition sample_video : Video :=
  {| ID := 1; Code := "ABC-123"; Title := "Sample"; Actresses := "Yua Mikami,Arina";
     Tags := "Drama,HD"; Duration := 7200; CoverURL := ""; PreviewURL := "";
     DetailURL := "https://missav.ai/abc-123"; Pushed := false |}.

Definition sample_sub (t : SubscriptionType) (k : string) : Subscription :=
  {| SubID := 1; ChatID := 100; ChatType := "private"; SubType := t; Keyword := k;
     Enabled := true |}.

(** A harvested video, as the parser hands it over (no ID yet). *)
Definition draft (code : string) : Video :=
  {| ID := 0; Code := code; Title := "Test Video"; Actresses := "Test Actress";
     Tags := "test,video"; Duration := 120; CoverURL := "https://example.com/cover.jpg";
     PreviewURL := ""; DetailURL := "https://example.com/detail"; Pushed := true |}.

(** One stored, undelivered video and one chat subscribed to everything. *)
Definition one_video_one_chat : Service :=
  {| store := {| videos := [sample_video];
                 subscriptions := [sample_sub SubTypeAll ""];
                 push_records := []; next_id := 2 |};
     outbox := [] |}.

(** A sweep during which every send to Telegram fails. *)
Definition sweep_transport_down : SweepEnv :=
  {| unpushed_fault := None;
     video_envs :=
       [ {| subs_env := {| matching_fault := None;
                           chat_envs := [transport_down "timeout"] |};
            mark_fault := None |} ] |}.

(** A sweep during which everything works. *)
Definition sweep_calm : SweepEnv := {| unpushed_fault := None; video_envs := [] |}.

(** A world in which every plain fetch fails and the browser renders a page
    with two cards. *)
Definition world_browser_only : HTTPCrawler.World :=
  {| HTTPCrawler.ctx_done := fun _ => false;
     HTTPCrawler.fetchWithRetry := fun _ => Err "max retries exceeded";
     HTTPCrawler.FetchRenderedHTML := fun _ => Ok "two cards";
     HTTPCrawler.ParseVideoList := fun html =>
       if String.eqb html "two cards" then Ok [draft "AAA-1"; draft "BBB-2"] else Ok [];
     HTTPCrawler.PathEscape := fun s => s |}.

(** A world whose listing has a card on page 1, none on page 2 and a card
    on page 3; the plain fetch returns the URL as the page text. *)
Definition world_gap : HTTPCrawler.World :=
  {| HTTPCrawler.ctx_done := fun _ => false;
     HTTPCrawler.fetchWithRetry := fun url => Ok url;
     HTTPCrawler.FetchRenderedHTML := fun _ => Err "no browser";
     HTTPCrawler.ParseVideoList := fun html =>
       if String.eqb html "https://missav.ai/new" then Ok [draft "AAA-1"]
       else if String.eqb html "https://missav.ai/new?page=3" then Ok [draft "CCC-3"]
       else Ok [];
     HTTPCrawler.PathEscape := fun s => s |}.

(** A world whose plain fetch of every page finds no card, while the
    browser renders page 1 with two cards. *)
Definition world_rendered : HTTPCrawler.World :=
  {| HTTPCrawler.ctx_done := fun _ => false;
     HTTPCrawler.fetchWithRetry := fun _ => Ok "shell";
     HTTPCrawler.FetchRenderedHTML := fun _ => Ok "two cards";
     HTTPCrawler.ParseVideoList := fun html =>
       if String.eqb html "two cards" then Ok [draft "AAA-1"; draft "BBB-2"] else Ok [];
     HTTPCrawler.PathEscape := fun s => s |}.

End Samples.

(* ===================================================================== *)
(** * internal/crawler: code validation and URL helpers *)
(* ===================================================================== *)

Module CrawlerHelpers.
Import GoStrings Crawler.

(** [IsValidCode]: the pattern [^[A-Z]+-\d+$] must match the whole text, so
    the run of upper-case letters, the dash and the run of digits are all
    there is. *)
Definition IsValidCode (code : string) : bool :=
  if String.eqb code "" then false
  else
    let '(letters, rest) := span is_upper code in
    match letters, rest with
    | String _ _, String d rest' =>
        if Ascii.eqb d "-" then
          let '(digits, tail) := span is_digit rest' in
          match digits, tail with
          | String _ _, EmptyString => true
          | _, _ => false
          end
        else false
    | _, _ => false
    end.

(** [Parser.normalizeURL]. *)
Definition normalizeURL (url : string) : string :=
  if String.eqb url "" then ""
  else if (HasPrefix url "http://" || HasPrefix url "https://")%bool then url
  else if HasPrefix url "/" then HTTPCrawler.BaseURL +:+ url
  else HTTPCrawler.BaseURL +:+ "/" +:+ url.

(** [strings.Index s substr]: the offset of the first occurrence, or -1. *)
Fixpoint Index (s substr : string) : Z :=
  if HasPrefix s substr then 0
  else match s with
       | EmptyString => -1
       | String _ s' => let i := Index s' substr in if i <? 0 then -1 else i + 1
       end.

Fixpoint take_bytes (n : nat) (s : string) : string :=
  match n, s with
  | S n', String c s' => String c (take_bytes n' s')
  | _, _ => EmptyString
  end.

(** [strings.HasSuffix] and [strings.TrimSuffix]. *)
Definition HasSuffix (s suffix : string) : bool :=
  (Nat.leb (String.length suffix) (String.length s)
   && String.eqb (drop_bytes (String.length s - String.length suffix) s) suffix)%bool.

Definition TrimSuffix (s suffix : string) : string :=
  if HasSuffix s suffix
  then take_bytes (String.length s - String.length suffix) s
  else s.

(** [strings.Split s sep] for a non-empty [sep]: [skip] counts the bytes of a
    separator just met that are still to be passed over. *)
Fixpoint split_from (sep : string) (skip : nat) (s : string) : list string :=
  match s with
  | EmptyString => [EmptyString]
  | String c s' =>
      match skip with
      | S k => split_from sep k s'
      | O =>
          if HasPrefix s sep
          then EmptyString :: split_from sep (String.length sep - 1) s'
          else match split_from sep 0 s' with
               | part :: parts => String c part :: parts
               | [] => [String c EmptyString]
               end
      end
  end.

Definition Split (s sep : string) : list string := split_from sep 0 s.

(** [url[:idx]] when [sep] occurs in [url], else [url]. *)
Definition cut_at (url sep : string) : string :=
  let idx := Index url sep in
  if idx =? -1 then url else take_bytes (Z.to_nat idx) url.

(** [extractCodeFromURL]. *)
Definition extractCodeFromURL (url : string) : string :=
  if String.eqb url "" then ""
  else
    (* Remove query parameters and fragments *)
    let url := cut_at url "?" in
    let url := cut_at url "#" in
    (* Remove trailing slash *)
    let url := TrimSuffix url "/" in
    (* Get the last path segment *)
    let parts := Split url "/" in
    if (0 <? Z.of_nat (length parts)) then
      let lastPart := List.last parts "" in
      if negb (String.eqb lastPart "") then NormalizeCode lastPart else ""
    else "".

(** The code of a detail page, as [ParseVideoDetail] derives it from the
    title it has found and the URL it was given. *)
Definition detail_code (title detailURL : string) : string :=
  let code := ExtractCode title in
  if String.eqb code "" then ExtractCode detailURL else code.

(** The code of a listing card, as [parseVideoCard] derives it from the title
    and the normalised link of the card. *)
Definition card_code (title detailURL : string) : string :=
  let code := ExtractCode title in
  let code :=
    if (String.eqb code "" && negb (String.eqb detailURL ""))%bool
    then ExtractCode detailURL else code in
  (* Fallback: extract from URL path *)
  if (String.eqb code "" && negb (String.eqb detailURL ""))%bool
  then extractCodeFromURL detailURL else code.

(** The code [parseVideoFromLink] derives from the [href] of a bare link. *)
Definition link_code (href : string) : string :=
  let code := ExtractCode href in
  if String.eqb code "" then extractCodeFromURL href else code.

(** The URL [CrawlByCode] asks for. *)
Definition code_url (code : string) : string :=
  HTTPCrawler.BaseURL +:+ "/" +:+ ToLower code.

(** [s] holds no byte [c]. *)
Definition other_than (c x : ascii) : bool := negb (Ascii.eqb x c).

Definition free_of (c : ascii) (s : string) : bool := all_bytes (other_than c) s.

(** What may follow the last path segment of a URL without changing what
    [extractCodeFromURL] returns: nothing, a trailing slash, a query or a
    fragment. *)
Definition ignorable (tail : string) : bool :=
  (String.eqb tail "" || String.eqb tail "/"
   || HasPrefix tail "?" || HasPrefix tail "#"
   || HasPrefix tail "/?" || HasPrefix tail "/#")%bool.

(** [\s] of Go's [regexp]: tab, line feed, form feed, carriage return and
    space. *)
Definition is_re_space (c : ascii) : bool :=
  (byte_in 9 10 c || byte_in 12 13 c || byte_in 32 32 c)%bool.

(** The three bytes of U+5206, the minute sign of the listing. *)
Definition fen : string :=
  String (ascii_of_nat 229) (String (ascii_of_nat 136) (String (ascii_of_nat 134) "")).

(** [durationPattern = regexp.MustCompile(`(\d+)\s*U+5206`)], anchored at the
    start of [s].  A digit is neither a space nor the first byte of the sign,
    and a space is not that byte either, so the greedy runs are the only ones
    the engine can succeed with. *)
Definition durationPattern_at (s : string) : option string :=
  let '(digits, rest) := span is_digit s in
  match digits with
  | EmptyString => None
  | String _ _ =>
      let '(_, rest') := span is_re_space rest in
      if HasPrefix rest' fen then Some digits else None
  end.

(** [durationPattern.FindStringSubmatch(text)], group 1. *)
Fixpoint durationPattern_find (text : string) : option string :=
  match durationPattern_at text with
  | Some m => Some m
  | None =>
      match text with
      | String _ text' => durationPattern_find text'
      | EmptyString => None
      end
  end.

(** [regexp.MustCompile(`\d+`).FindString(text)]: the first run of digits,
    empty when there is none. *)
Fixpoint numPattern_find (text : string) : string :=
  match span is_digit text with
  | (String d ds, _) => String d ds
  | (EmptyString, _) =>
      match text with
      | String _ text' => numPattern_find text'
      | EmptyString => EmptyString
      end
  end.

Definition digit_value (c : ascii) : Z := Z.of_nat (nat_of_ascii c) - 48.

Fixpoint decimal (acc : Z) (digits : string) : Z :=
  match digits with
  | EmptyString => acc
  | String c digits' => decimal (10 * acc + digit_value c) digits'
  end.

(** [strconv.Atoi] on a run of digits: the value, or an error when it does
    not fit Go's 64-bit [int]. *)
Definition Atoi (digits : string) : option Z :=
  let n := decimal 0 digits in
  if n <? 2 ^ 63 then Some n else None.

(** [ExtractDuration]. *)
Definition ExtractDuration (text : string) : Z :=
  if String.eqb text "" then 0
  else
    let first :=
      match durationPattern_find text with
      | Some m => Atoi m
      | None => None
      end in
    match first with
    | Some duration => duration
    | None =>
        (* Try to parse plain number *)
        let numMatch := numPattern_find text in
        if negb (String.eqb numMatch "") then
          match Atoi numMatch with
          | Some duration => duration
          | None => 0
          end
        else 0
    end.

End CrawlerHelpers.

(* ===================================================================== *)
(** * internal/crawler: retries, detail pages, and the shape of a harvest *)
(* ===================================================================== *)

Module Retry.
Import GoStrings.

(** What [fetchWithRetry] meets at each attempt: the error of
    [limiter.Wait], the outcome of the request ([fetch]), and, when the
    back-off sleep is cut short by the context, the error of the context. *)
Record RetryEnv := {
  MaxRetries : Z;
  wait_err : Z -> option error;
  fetch : Z -> string -> result string;
  backoff_done : Z -> option error
}.

(** What [fetchWithRetry] does, in order.  [Slept attempt] is the back-off
    of [2 ^ attempt] seconds that follows a failed attempt. *)
Inductive Action :=
| Waited (attempt : Z)
| Requested (attempt : Z) (url : string)
| Slept (attempt : Z).

Definition is_request (a : Action) : bool :=
  match a with Requested _ _ => true | _ => false end.

Definition is_sleep (a : Action) : bool :=
  match a with Slept _ => true | _ => false end.

Definition requests_made (log : list Action) : Z :=
  Z.of_nat (length (filter (fun a => is_request a = true) log)).

Definition sleeps_made (log : list Action) : Z :=
  Z.of_nat (length (filter (fun a => is_sleep a = true) log)).

(** [fmt.Errorf("max retries exceeded: %w", lastErr)]; the verb prints a nil
    error as [%!w(<nil>)]. *)
Definition exceeded (lastErr : option error) : error :=
  match lastErr with
  | Some e => "max retries exceeded: " +:+ e
  | None => "max retries exceeded: %!w(<nil>)"
  end.

(** The loop of [fetchWithRetry]; [n] counts the iterations that
    [attempt <= MaxRetries] still allows. *)
Fixpoint retry_loop (env : RetryEnv) (targetURL : string) (n : nat) (attempt : Z)
    (lastErr : option error) (log : list Action) : result string * list Action :=
  match n with
  | O => (Err (exceeded lastErr), log)
  | S n' =>
      (* Wait for rate limiter *)
      let log := log ++ [Waited attempt] in
      match wait_err env attempt with
      | Some e => (Err ("rate limiter error: " +:+ e), log)
      | None =>
          let log := log ++ [Requested attempt targetURL] in
          match fetch env attempt targetURL with
          | Ok html => (Ok html, log)
          | Err e =>
              (* Check if we should retry *)
              if attempt <? MaxRetries env then
                match backoff_done env attempt with
                | Some ctxErr => (Err ctxErr, log)
                | None =>
                    retry_loop env targetURL n' (attempt + 1) (Some e)
                      (log ++ [Slept attempt])
                end
              else retry_loop env targetURL n' (attempt + 1) (Some e) log
          end
      end
  end.

(** [fetchWithRetry]. *)
Definition fetchWithRetry (env : RetryEnv) (targetURL : string)
  : result string * list Action :=
  retry_loop env targetURL (Z.to_nat (MaxRetries env + 1)) 0 None [].

(** The limiter lets every attempt through and no sleep is cut short. *)
Definition undisturbed (env : RetryEnv) : Prop :=
  forall attempt, wait_err env attempt = None /\ backoff_done env attempt = None.

(** An environment in which the first [k] requests fail with the number of
    the attempt and every later one returns the page. *)
Definition fails_first (retries k : Z) : RetryEnv :=
  {| MaxRetries := retries;
     wait_err := fun _ => None;
     fetch := fun attempt _ => if attempt <? k then Err (pretty attempt) else Ok "page";
     backoff_done := fun _ => None |}.

End Retry.

Module Detail.
Import Model GoStrings Crawler CrawlerHelpers.

(** What a detail crawl meets: the outcome of [fetchWithRetry], the error of
    [getBrowser], what the browser renders, and what the document of a page
    holds: the error of reading it, the text of its first title element and
    of its first duration element when there is one, and the fields the
    parser copies from the page as they are. *)
Record DetailWorld := {
  fetchWithRetry : string -> result string;
  getBrowser : option error;
  FetchRenderedHTML : string -> result string;
  document_err : string -> option error;
  title_text : string -> option string;
  duration_text : string -> option string;
  copied : string -> Video
}.

(** [Parser.ParseVideoDetail]. *)
Definition ParseVideoDetail (w : DetailWorld) (html detailURL : string) : result Video :=
  match document_err w html with
  | Some err => Err err
  | None =>
      (* Extract title *)
      let title :=
        match title_text w html with
        | Some text => TrimSpace text
        | None => ""
        end in
      Ok {| ID := 0;
            (* Extract code from title or URL *)
            Code := detail_code title detailURL;
            Title := title;
            Actresses := Actresses (copied w html);
            Tags := Tags (copied w html);
            Duration := match duration_text w html with
                        | Some text => ExtractDuration text
                        | None => 0
                        end;
            CoverURL := CoverURL (copied w html);
            PreviewURL := PreviewURL (copied w html);
            DetailURL := detailURL;
            Pushed := false |}
  end.

(** The requests of a detail crawl. *)
Inductive Event :=
| Fetched (url : string)
| Rendered (url : string).

(** [crawlDetailWithBrowser]. *)
Definition crawlDetailWithBrowser (w : DetailWorld) (detailURL : string)
  : result Video * list Event :=
  match getBrowser w with
  | Some e => (Err e, [])
  | None =>
      match FetchRenderedHTML w detailURL with
      | Err e => (Err e, [Rendered detailURL])
      | Ok html => (ParseVideoDetail w html detailURL, [Rendered detailURL])
      end
  end.

(** [CrawlVideoDetail]. *)
Definition CrawlVideoDetail (w : DetailWorld) (detailURL : string)
  : result Video * list Event :=
  match fetchWithRetry w detailURL with
  | Err _ =>
      (* Fallback to headless browser *)
      let '(r, log) := crawlDetailWithBrowser w detailURL in
      (r, Fetched detailURL :: log)
  | Ok html => (ParseVideoDetail w html detailURL, [Fetched detailURL])
  end.

(** [CrawlByCode]. *)
Definition CrawlByCode (w : DetailWorld) (code : string) : result Video * list Event :=
  let detailURL := HTTPCrawler.BaseURL +:+ "/" +:+ ToLower code in
  CrawlVideoDetail w detailURL.

(** A world in which the plain fetch fails and the browser renders a page
    whose title names no code and whose duration reads 118 minutes. *)
Definition world_rendered_detail : DetailWorld :=
  {| fetchWithRetry := fun _ => Err "HTTP status 403";
     getBrowser := None;
     FetchRenderedHTML := fun _ => Ok "page";
     document_err := fun _ => None;
     title_text := fun _ => Some "  A title without a code  ";
     duration_text := fun _ => Some ("118" +:+ fen);
     copied := fun _ => Samples.draft "" |}.

End Detail.

Module Pages.
Import Model GoStrings HTTPCrawler.

(** The plain fetches in a log. *)
Definition plain (log : list Event) : list Event :=
  filter (fun e => is_rendered e = false) log.

(** The fetches of [n] consecutive pages from [page] on. *)
Fixpoint page_fetches (base : string) (n : nat) (page : Z) : list Event :=
  match n with
  | O => []
  | S n' => Fetched page (page_url base page) :: page_fetches base n' (page + 1)
  end.

(** The context is never done. *)
Definition never_done (w : World) : Prop := forall page, ctx_done w page = false.

(** A harvest that asked for nothing and found nothing. *)
Definition nothing : Harvest := {| found := []; failure := None; requests := [] |}.

(** A harvest cut short by the context. *)
Definition cut_short (h : Harvest) : Harvest :=
  {| found := found h; failure := Some canceled; requests := requests h |}.

(** A world whose listing has three cards on every page and whose context
    is done when page [k] is due. *)
Definition world_done_at (k : Z) : World :=
  {| ctx_done := fun page => page =? k;
     fetchWithRetry := fun url => Ok url;
     FetchRenderedHTML := fun _ => Err "no browser";
     ParseVideoList := fun html =>
       Ok [Samples.draft (html +:+ "#1"); Samples.draft (html +:+ "#2");
           Samples.draft (html +:+ "#3")];
     PathEscape := fun s => s |}.

End Pages.

(* ===================================================================== *)
(** * internal/store: counting, existence, and the subscription table *)
(* ===================================================================== *)

Module StoreMore.
Import Model GoStrings Store.

(** [CountVideos]. *)
Definition CountVideos (fault : option error) (db : MySQLStore) : result Z :=
  match fault with
  | Some e => Err ("failed to count videos: " +:+ e)
  | None => Ok (Z.of_nat (length (videos db)))
  end.

(** [ExistsByCode]. *)
Definition ExistsByCode (fault : option error) (code : string) (db : MySQLStore)
  : result bool :=
  match fault with
  | Some e => Err ("failed to check video existence: " +:+ e)
  | None => Ok (0 <? Z.of_nat (length (rows_with_code code db)))
  end.

Definition with_subscriptions (subs : list Subscription) (db : MySQLStore) : MySQLStore :=
  {| videos := videos db; subscriptions := subs;
     push_records := push_records db; next_id := next_id db |}.

Definition set_Enabled (b : bool) (s : Subscription) : Subscription :=
  {| SubID := SubID s; ChatID := ChatID s; ChatType := ChatType s;
     SubType := SubType s; Keyword := Keyword s; Enabled := b |}.

Definition in_chat (chatID : Z) (s : Subscription) : bool := ChatID s =? chatID.

(** [GetSubscriptions]. *)
Definition GetSubscriptions (fault : option error) (chatID : Z) (db : MySQLStore)
  : result (list Subscription) :=
  match fault with
  | Some e => Err ("failed to get subscriptions: " +:+ e)
  | None =>
      Ok (filter (fun s => in_chat chatID s = true /\ Enabled s = true) (subscriptions db))
  end.

(** [DeleteAllSubscriptions]. *)
Definition DeleteAllSubscriptions (fault : option error) (chatID : Z) (db : MySQLStore)
  : MySQLStore * option error :=
  match fault with
  | Some e => (db, Some ("failed to delete all subscriptions: " +:+ e))
  | None =>
      (with_subscriptions
         (filter (fun s => in_chat chatID s = false) (subscriptions db)) db, None)
  end.

(** The two text columns of [subscriptions] are compared by the database,
    under the collation of the table; [text_eq] is that comparison. *)
Section Collation.
Variable text_eq : string -> string -> bool.

(** [WHERE chat_id = ? AND type = ? AND keyword = ?]. *)
Definition same_subscription (chatID : Z) (subType keyword : string)
    (s : Subscription) : bool :=
  ((ChatID s =? chatID) && text_eq (SubType s) subType
   && text_eq (Keyword s) keyword)%bool.

(** [CreateSubscription].  [lookup] and [write] are the faults of its two
    queries, [fresh] the primary key the database gives a new row.  The rows
    are kept in the order of their primary key, the order [First] uses; a
    new row is stored with [enabled] true, the default of the column, also
    when the value handed over is false. *)
Definition CreateSubscription (lookup write : option error) (fresh : Z)
    (sub : Subscription) (db : MySQLStore) : MySQLStore * option error :=
  match lookup with
  | Some e => (db, Some ("failed to check existing subscription: " +:+ e))
  | None =>
      match find (same_subscription (ChatID sub) (SubType sub) (Keyword sub))
                 (subscriptions db) with
      | Some existing =>
          (* Subscription already exists, update enabled status *)
          match write with
          | Some e => (db, Some e)
          | None =>
              (with_subscriptions
                 (map (fun s => if SubID s =? SubID existing then set_Enabled true s else s)
                      (subscriptions db)) db, None)
          end
      | None =>
          (* Create new subscription *)
          match write with
          | Some e => (db, Some ("failed to create subscription: " +:+ e))
          | None =>
              (with_subscriptions
                 (subscriptions db ++
                  [{| SubID := fresh; ChatID := ChatID sub; ChatType := ChatType sub;
                      SubType := SubType sub; Keyword := Keyword sub; Enabled := true |}])
                 db, None)
          end
      end
  end.

(** [DeleteSubscription]. *)
Definition DeleteSubscription (fault : option error) (chatID : Z)
    (subType keyword : string) (db : MySQLStore) : MySQLStore * option error :=
  match fault with
  | Some e => (db, Some ("failed to delete subscription: " +:+ e))
  | None =>
      (with_subscriptions
         (filter (fun s => same_subscription chatID subType keyword s = false)
                 (subscriptions db)) db, None)
  end.

End Collation.

(** The primary key of [subscriptions]. *)
Definition unique_ids (db : MySQLStore) : Prop := NoDup (map SubID (subscriptions db)).

(** A store with two chats: chat 100 follows an actress and a tag, chat 200
    follows everything. *)
Definition two_chats : MySQLStore :=
  {| videos := [];
     subscriptions :=
       [ {| SubID := 1; ChatID := 100; ChatType := "private"; SubType := SubTypeActress;
            Keyword := "Yua"; Enabled := true |};
         {| SubID := 2; ChatID := 200; ChatType := "group"; SubType := SubTypeAll;
            Keyword := ""; Enabled := true |};
         {| SubID := 3; ChatID := 100; ChatType := "private"; SubType := SubTypeTag;
            Keyword := "drama"; Enabled := true |} ];
     push_records := []; next_id := 1 |}.

End StoreMore.

(* ===================================================================== *)
(** * internal/push: what a delivery leaves behind *)
(* ===================================================================== *)

Module PushMore.
Import Model GoStrings Store Push.

(** The chat a transport call goes to. *)
Definition sent_to (m : Sent) : Z :=
  match m with
  | SentVideo chatID _ _ | SentPhoto chatID _ | SentMarkdown chatID => chatID
  end.

(** The history holds at most one success for every pair. *)
Definition one_success_per_pair (db : MySQLStore) : Prop :=
  forall videoID chatID, count_success videoID chatID db <= 1.

(** Every collaborator answers and every send succeeds. *)
Definition calm_subs : SubsEnv := {| matching_fault := None; chat_envs := [] |}.

(** A store with one undelivered video and three subscriptions that match
    it, two of them of the same chat. *)
Definition three_subs : Service :=
  {| store :=
       {| videos := [Samples.sample_video];
          subscriptions :=
            [ Samples.sample_sub SubTypeAll "";
              {| SubID := 2; ChatID := 200; ChatType := "group"; SubType := SubTypeTag;
                 Keyword := "hd"; Enabled := true |};
              Samples.sample_sub SubTypeActress "mikami" ];
          push_records := []; next_id := 2 |};
     outbox := [] |}.

End PushMore.

(* ===================================================================== *)
(** * internal/scheduler: the running flag, progress, and one cycle *)
(* ===================================================================== *)

Module SchedulerMore.
Import Scheduler.
Local Open Scope nat_scope.

(** [IsRunning]. *)
Definition IsRunning (s : State) : bool := running s.

(** The program points between [s.running.Store(true)] and the deferred
    [s.running.Store(false)]. *)
Definition flagged (pc : Pc) : bool :=
  match pc with
  | AtRunOnce | InRunOnce | AtStoreFalse => true
  | _ => false
  end.

(** The atomic actions a trigger at [pc] has before it when it is
    accepted. *)
Definition remaining (pc : Pc) : nat :=
  match pc with
  | AtTryLock => 6
  | AtStoreTrue => 5
  | AtRunOnce => 4
  | InRunOnce => 3
  | AtStoreFalse => 2
  | AtUnlock => 1
  | Returned _ => 0
  end.

(** How often trigger [i] acts in a schedule. *)
Definition actions_of (i : nat) (schedule : list nat) : nat :=
  length (filter (fun j => j = i) schedule).

(** The flag is up exactly while some trigger is between the two stores. *)
Definition flag_tracks (s : State) : Prop :=
  running s = true <-> 0 < count flagged (threads s).

End SchedulerMore.

Module Cycle.
Import Model GoStrings Store Push.

(** What one cycle meets: the world of the harvest, the fault of the batch
    insert, and the environment of the sweep. *)
Record CycleEnv := {
  world : HTTPCrawler.World;
  save_fault : option error;
  sweep_env : SweepEnv
}.

(** [RunOnce]: the service afterwards and the error returned.  A failure to
    save and a failure of the sweep are logged, not returned. *)
Definition RunOnce (env : CycleEnv) (pages : Z) (s : Service) : Service * option error :=
  (* Crawl new videos *)
  let h := HTTPCrawler.CrawlNewVideos (world env) pages in
  match HTTPCrawler.failure h with
  | Some err => (s, Some err)
  | None =>
      let videos := HTTPCrawler.found h in
      (* Save videos to store *)
      let db :=
        if 0 <? HTTPCrawler.len videos
        then fst (SaveVideos (save_fault env) videos (store s))
        else store s in
      (* Push unpushed videos to subscribers *)
      (fst (PushUnpushedVideos (sweep_env env) {| store := db; outbox := outbox s |}),
       None)
  end.

(** A cycle during which nothing fails. *)
Definition calm_cycle (w : HTTPCrawler.World) : CycleEnv :=
  {| world := w; save_fault := None; sweep_env := Samples.sweep_calm |}.

End Cycle.

(* ===================================================================== *)
(** * internal/bot: the subscription commands and the group greeting *)
(* ===================================================================== *)

Module BotMore.
Import Model GoStrings Store StoreMore Bot.

(** The replies of the two commands.  Their texts are constants of the
    source; a constructor stands for each. *)
Inductive Reply :=
| SubscribedAll
| SubscribedActress (keyword : string)
| SubscribedTag (keyword : string)
| SubscribeFailed
| UnsubscribedAll
| Unsubscribed (args : string)
| UnsubscribeFailed.

Section Collation.
Variable text_eq : string -> string -> bool.

(** [handleSubscribe]: the store afterwards and what is sent to the chat.
    No reply is built for a type other than the three. *)
Definition handleSubscribe (lookup write : option error) (fresh : Z)
    (chatID : Z) (chatType args : string) (db : MySQLStore)
  : MySQLStore * list Reply :=
  let '(subType, keyword) := DetermineSubscriptionType args in
  let sub := {| SubID := 0; ChatID := chatID; ChatType := chatType;
                SubType := subType; Keyword := keyword; Enabled := true |} in
  match CreateSubscription text_eq lookup write fresh sub db with
  | (db', Some _) => (db', [SubscribeFailed])
  | (db', None) =>
      (db',
       if String.eqb subType SubTypeAll then [SubscribedAll]
       else if String.eqb subType SubTypeActress then [SubscribedActress keyword]
       else if String.eqb subType SubTypeTag then [SubscribedTag keyword]
       else [])
  end.

(** [handleUnsubscribe]. *)
Definition handleUnsubscribe (fault : option error) (chatID : Z) (args : string)
    (db : MySQLStore) : MySQLStore * list Reply :=
  let args := TrimSpace args in
  if String.eqb args "" then
    (* Unsubscribe from all *)
    match DeleteAllSubscriptions fault chatID db with
    | (db', Some _) => (db', [UnsubscribeFailed])
    | (db', None) => (db', [UnsubscribedAll])
    end
  else
    (* Unsubscribe from specific keyword *)
    let '(subType, keyword) := DetermineSubscriptionType args in
    match DeleteSubscription text_eq fault chatID subType keyword db with
    | (db', Some _) => (db', [UnsubscribeFailed])
    | (db', None) => (db', [Unsubscribed args])
    end.

(** [autoSubscribeGroup]; its failures are only logged. *)
Definition autoSubscribeGroup (get lookup write : option error) (fresh : Z)
    (chatID : Z) (chatType : string) (db : MySQLStore) : MySQLStore :=
  (* Check if already subscribed *)
  match GetSubscriptions get chatID db with
  | Err _ => db
  | Ok subs =>
      (* If already has subscriptions, don't auto-subscribe *)
      if 0 <? Z.of_nat (length subs) then db
      else
        let sub := {| SubID := 0; ChatID := chatID; ChatType := chatType;
                      SubType := SubTypeAll; Keyword := ""; Enabled := true |} in
        fst (CreateSubscription text_eq lookup write fresh sub db)
  end.

(** [HandleUpdate] for a message that is not a command. *)
Definition handleMessage (get lookup write : option error) (fresh : Z)
    (chatID : Z) (chatType : string) (db : MySQLStore) : MySQLStore :=
  if (String.eqb chatType "group" || String.eqb chatType "supergroup")%bool
  then autoSubscribeGroup get lookup write fresh chatID chatType db
  else db.

End Collation.

End BotMore.

(* ===================================================================== *)
(** * internal/push: escaping for MarkdownV2 *)
(* ===================================================================== *)

Module Formatter.
Import GoStrings.

(** [strings.ReplaceAll s old new] for a non-empty [old]: the occurrences are
    replaced from left to right and do not overlap; [skip] counts the bytes
    of the occurrence just replaced that are still to be passed over. *)
Fixpoint replace_from (old new : string) (skip : nat) (s : string) : string :=
  match s with
  | EmptyString => EmptyString
  | String c s' =>
      match skip with
      | S k => replace_from old new k s'
      | O =>
          if HasPrefix s old
          then new +:+ replace_from old new (String.length old - 1) s'
          else String c (replace_from old new 0 s')
      end
  end.

Definition ReplaceAll (s old new : string) : string := replace_from old new 0 s.

(** The characters [EscapeMarkdown] escapes, in its order. *)
Definition specialChars : list string :=
  ["_"; "*"; "["; "]"; "("; ")"; "~"; "`"; ">"; "#"; "+"; "-"; "="; "|"; "{"; "}";
   "."; "!"].

(** The loop of [EscapeMarkdown] over [chars]: one [ReplaceAll] after the
    other. *)
Definition escape_with (chars : list string) (text : string) : string :=
  fold_left (fun result char => ReplaceAll result char ("\" +:+ char)) chars text.

(** [EscapeMarkdown]. *)
Definition EscapeMarkdown (text : string) : string := escape_with specialChars text.

(** Escaping in one pass: a backslash before each special byte. *)
Definition is_special (c : ascii) : bool :=
  existsb (String.eqb (String c EmptyString)) specialChars.

Fixpoint escape_each (text : string) : string :=
  match text with
  | EmptyString => EmptyString
  | String c text' =>
      if is_special c then String "\" (String c (escape_each text'))
      else String c (escape_each text')
  end.

(** The special bytes of a text. *)
Fixpoint specials (text : string) : nat :=
  match text with
  | EmptyString => O
  | String c text' => ((if is_special c then 1 else 0) + specials text')%nat
  end.

End Formatter.

(* ===================================================================== *)
(** * Facts about the string helpers *)
(* ===================================================================== *)

Module GoStringsFacts.
Import GoStrings.

Ltac by_bytes c :=
  destruct c as [[] [] [] [] [] [] [] []]; vm_compute; try reflexivity; try congruence.

Lemma upper_byte_idem c : upper_byte (upper_byte c) = upper_byte c.
Proof. by_bytes c. Qed.

Lemma lower_byte_idem c : lower_byte (lower_byte c) = lower_byte c.
Proof. by_bytes c. Qed.

Lemma map_bytes_idem f :
  (forall c, f (f c) = f c) -> forall s, map_bytes f (map_bytes f s) = map_bytes f s.
Proof.
  intros Hf s. induction s as [|c s IH]; simpl; [reflexivity|].
  now rewrite Hf, IH.
Qed.

Lemma ToUpper_idem s : ToUpper (ToUpper s) = ToUpper s.
Proof. apply map_bytes_idem, upper_byte_idem. Qed.

Lemma ToUpper_empty_inv s : ToUpper s = "" -> s = "".
Proof. destruct s; simpl; [reflexivity | discriminate]. Qed.

Lemma append_nil_r s : s +:+ "" = s.
Proof. induction s as [|c s IH]; simpl; [reflexivity | now rewrite IH]. Qed.

Lemma append_assoc a b c : (a +:+ b) +:+ c = a +:+ (b +:+ c).
Proof. induction a as [|x a IH]; simpl; [reflexivity | now rewrite IH]. Qed.

Lemma length_append a b :
  String.length (a +:+ b) = (String.length a + String.length b)%nat.
Proof. induction a as [|x a IH]; simpl; [reflexivity | now rewrite IH]. Qed.

Lemma append_inv_length a b a' b' :
  a +:+ b = a' +:+ b' -> String.length a = String.length a' -> a = a' /\ b = b'.
Proof.
  revert a'. induction a as [|x a IH]; intros [|x' a'] H Hl; simpl in *;
    try discriminate; [now split|].
  injection H as -> H. injection Hl as Hl.
  destruct (IH _ H Hl) as [-> ->]. now split.
Qed.

Lemma HasPrefix_spec s p : HasPrefix s p = true <-> exists r, s = p +:+ r.
Proof.
  revert s. induction p as [|c p IH]; intros s; simpl.
  - split; [intros _; now exists s | reflexivity].
  - destruct s as [|d s].
    + split; [discriminate | intros [r Hr]; discriminate].
    + rewrite andb_true_iff, Ascii.eqb_eq, IH. split.
      * intros [-> [r ->]]. now exists r.
      * intros [r Hr]. injection Hr as -> ->. split; [reflexivity | now exists r].
Qed.

(** [Contains] finds exactly the occurrences of [sub] as a substring. *)
Lemma Contains_spec s sub :
  Contains s sub = true <-> exists pre post, s = pre +:+ sub +:+ post.
Proof.
  induction s as [|c s IH]; simpl.
  - destruct (HasPrefix "" sub) eqn:E.
    + apply HasPrefix_spec in E as [r Hr]. split; [|reflexivity].
      intros _. now exists "", r.
    + split; [discriminate|]. intros (pre & post & H).
      destruct pre; simpl in H; [|discriminate].
      assert (HasPrefix "" sub = true) by (apply HasPrefix_spec; eauto).
      congruence.
  - destruct (HasPrefix (String c s) sub) eqn:E.
    + apply HasPrefix_spec in E as [r Hr]. split; [|reflexivity].
      intros _. now exists "", r.
    + rewrite IH. split.
      * intros (pre & post & ->). now exists (String c pre), post.
      * intros (pre & post & H). destruct pre as [|d pre]; simpl in H.
        -- assert (HasPrefix (String c s) sub = true) by (apply HasPrefix_spec; eauto).
           congruence.
        -- injection H as _ ->. eauto.
Qed.

Lemma Contains_empty s : Contains s "" = true.
Proof. apply Contains_spec. now exists "", s. Qed.

Lemma map_bytes_append f a b : map_bytes f (a +:+ b) = map_bytes f a +:+ map_bytes f b.
Proof. induction a as [|x a IH]; simpl; [reflexivity | now rewrite IH]. Qed.


Lemma span_eq p s a b : span p s = (a, b) -> s = a +:+ b.
Proof.
  revert a b. induction s as [|c s IH]; intros a b H; simpl in H.
  - now injection H as <- <-.
  - destruct (p c); [|now injection H as <- <-].
    destruct (span p s) as [a0 b0]. injection H as <- <-.
    simpl. now rewrite (IH _ _ eq_refl).
Qed.

Lemma span_all p s a b : span p s = (a, b) -> all_bytes p a = true.
Proof.
  revert a b. induction s as [|c s IH]; intros a b H; simpl in H.
  - now injection H as <- <-.
  - destruct (p c) eqn:E; [|now injection H as <- <-].
    destruct (span p s) as [a0 b0]. injection H as <- <-.
    simpl. now rewrite E, (IH _ _ eq_refl).
Qed.

Lemma span_stops p s a b : span p s = (a, b) -> stops p b.
Proof.
  revert a b. induction s as [|c s IH]; intros a b H; simpl in H.
  - now injection H as <- <-.
  - destruct (p c) eqn:E; [|injection H as <- <-; exact E].
    destruct (span p s) as [a0 b0]. injection H as <- <-. now apply (IH a0).
Qed.

Lemma span_append p a b :
  all_bytes p a = true -> stops p b -> span p (a +:+ b) = (a, b).
Proof.
  intros Ha Hb. induction a as [|c a IH]; simpl in *.
  - destruct b as [|d b]; simpl in *; [reflexivity | now rewrite Hb].
  - apply andb_true_iff in Ha as [-> Ha]. now rewrite IH.
Qed.

Lemma span_append_le p a b a' b' :
  all_bytes p a = true -> span p (a +:+ b) = (a', b') ->
  (String.length a <= String.length a')%nat.
Proof.
  revert a'. induction a as [|c a IH]; intros a' Ha H; simpl in *; [lia|].
  apply andb_true_iff in Ha as [Hc Ha]. rewrite Hc in H.
  destruct (span p (a +:+ b)) as [a0 b0] eqn:E. injection H as <- <-.
  simpl. specialize (IH _ Ha eq_refl). lia.
Qed.

Lemma all_ascii_spec p : all_ascii p = true -> forall c, p c = true.
Proof.
  unfold all_ascii. rewrite forallb_forall. intros H c. apply H.
  rewrite <- (ascii_nat_embedding c). apply in_map, in_seq.
  pose proof (nat_ascii_bounded c). lia.
Qed.


End GoStringsFacts.

Module CrawlerFacts.
Import GoStrings GoStringsFacts Crawler.


Lemma NormalizeCode_eq s : NormalizeCode s = ToUpper s.
Proof. unfold NormalizeCode. destruct s; reflexivity. Qed.

(** C7. For every string [x], [NormalizeCode] is idempotent and its result
    is equal to its own upper-case form. *)
Theorem NormalizeCode_idempotent_upper (x : string) :
  NormalizeCode (NormalizeCode x) = NormalizeCode x
  /\ ToUpper (NormalizeCode x) = NormalizeCode x.
Proof.
  rewrite !NormalizeCode_eq. split; apply ToUpper_idem.
Qed.

(** ** The first match of the specification's pattern *)

Lemma shape_split m post :
  code_shape m ->
  exists l L d D,
    m +:+ post = String l L +:+ String "-"%char (String d D +:+ post)
    /\ m = String l L +:+ String "-"%char (String d D)
    /\ all_bytes is_letter (String l L) = true
    /\ all_bytes is_digit (String d D) = true.
Proof.
  intros (L & D & -> & HL & HD & HaL & HaD).
  destruct L as [|l L]; [congruence|]. destruct D as [|d D]; [congruence|].
  exists l, L, d, D. repeat split; try assumption.
  rewrite append_assoc. reflexivity.
Qed.

Lemma shape_spans m post :
  code_shape m ->
  exists l L d D D' r,
    m = String l L +:+ String "-"%char (String d D)
    /\ span is_letter (m +:+ post) = (String l L, String "-"%char (String d D +:+ post))
    /\ span is_digit (String d D +:+ post) = (String d D', r)
    /\ (String.length D <= String.length D')%nat.
Proof.
  intros Hm. destruct (shape_split m post Hm) as (l & L & d & D & E & -> & HL & HD).
  destruct (span is_digit (String d D +:+ post)) as [D0 r] eqn:ED.
  pose proof (span_append_le _ _ _ _ _ HD ED) as Hle.
  assert (Hd : is_digit d = true) by (simpl in HD; now apply andb_true_iff in HD).
  simpl in ED. rewrite Hd in ED.
  destruct (span is_digit (D +:+ post)) as [D' r'] eqn:ED'. injection ED as <- <-.
  exists l, L, d, D, D', r'. split; [reflexivity|]. split; [|split].
  - rewrite E. apply span_append; [assumption | reflexivity].
  - simpl. now rewrite Hd, ED'.
  - simpl in Hle. lia.
Qed.

Lemma ascii_pattern_at_complete s m post :
  s = m +:+ post -> code_shape m -> exists m0, ascii_pattern_at s = Some m0.
Proof.
  intros -> Hm. destruct (shape_spans m post Hm) as (l & L & d & D & D' & r & _ & EL & ED & _).
  unfold ascii_pattern_at. rewrite EL. simpl Ascii.eqb. cbv iota. rewrite ED. eauto.
Qed.

Lemma ascii_pattern_at_sound s m :
  ascii_pattern_at s = Some m ->
  exists post,
    s = m +:+ post /\ code_shape m
    /\ forall m' post', s = m' +:+ post' -> code_shape m' ->
         (String.length m' <= String.length m)%nat.
Proof.
  unfold ascii_pattern_at. intros H.
  destruct (span is_letter s) as [L r] eqn:EL.
  destruct L as [|l L]; [discriminate|]. destruct r as [|c r]; [discriminate|].
  destruct (Ascii.eqb c "-") eqn:Ec; [|discriminate]. apply Ascii.eqb_eq in Ec as ->.
  destruct (span is_digit r) as [D r'] eqn:ED.
  destruct D as [|d D]; [discriminate|]. injection H as <-.
  exists r'. split; [|split].
  - rewrite (span_eq _ _ _ _ EL), (span_eq _ _ _ _ ED). simpl. f_equal.
    rewrite append_assoc. reflexivity.
  - exists (String l L), (String d D). repeat split; try discriminate.
    + apply (span_all _ _ _ _ EL).
    + apply (span_all _ _ _ _ ED).
  - intros m' post' -> Hm'.
    destruct (shape_spans m' post' Hm') as (l' & L' & d' & D' & D2 & r2 & -> & EL' & ED' & Hle).
    rewrite EL' in EL. injection EL as El EL Er. subst l' L' r.
    assert (E : (String d D, r') = (String d' D2, r2)) by (rewrite <- ED; exact ED').
    injection E as -> -> ->.
    simpl. rewrite !length_append. simpl. lia.
Qed.

Lemma ascii_pattern_find_cons c x :
  ascii_pattern_find (String c x) =
  match ascii_pattern_at (String c x) with
  | Some m => Some m
  | None => ascii_pattern_find x
  end.
Proof. reflexivity. Qed.

Lemma ascii_pattern_find_some x m :
  ascii_pattern_find x = Some m -> first_code_match x m.
Proof.
  revert m. induction x as [|c x IH]; intros m H; [discriminate H|].
  rewrite ascii_pattern_find_cons in H.
  destruct (ascii_pattern_at (String c x)) eqn:E.
  - injection H as ->. apply ascii_pattern_at_sound in E as (post & Hx & Hm & Hmax).
    exists "", post. split; [exact Hx|]. split; [exact Hm|].
    intros pre' m' post' Hx' Hm'. split; [simpl; lia|].
    intros Hl. destruct pre'; [|discriminate]. simpl in Hx'. eapply Hmax; eauto.
  - destruct (IH _ H) as (pre & post & Hx & Hm & Hfirst).
    exists (String c pre), post. split; [simpl; now rewrite <- Hx|].
    split; [exact Hm|]. intros pre' m' post' Hx' Hm'.
    destruct pre' as [|c' pre'].
    + simpl in Hx'. destruct (ascii_pattern_at_complete _ _ _ Hx' Hm') as [m0 Hm0]. congruence.
    + simpl in Hx'. injection Hx' as _ Hx'.
      destruct (Hfirst _ _ _ Hx' Hm') as [Hle Hlen]. simpl. split; [lia|].
      intros Hl. injection Hl as Hl. auto.
Qed.

Lemma ascii_pattern_find_none x :
  ascii_pattern_find x = None -> ~ contains_code x.
Proof.
  induction x as [|c x IH]; intros H (pre & m & post & Hx & Hm).
  - destruct pre; [|discriminate]. simpl in Hx.
    destruct (ascii_pattern_at_complete _ _ _ Hx Hm) as [m0 Hm0]. discriminate.
  - rewrite ascii_pattern_find_cons in H.
    destruct (ascii_pattern_at (String c x)) eqn:E; [discriminate|].
    destruct pre as [|c' pre].
    + simpl in Hx. destruct (ascii_pattern_at_complete _ _ _ Hx Hm) as [m0 Hm0]. congruence.
    + simpl in Hx. injection Hx as _ Hx. apply (IH H). now exists pre, m, post.
Qed.

(** The first match is unique, so "the first such substring" names one string. *)
Lemma first_code_match_unique x m1 m2 :
  first_code_match x m1 -> first_code_match x m2 -> m1 = m2.
Proof.
  intros (p1 & q1 & E1 & S1 & F1) (p2 & q2 & E2 & S2 & F2).
  destruct (F1 _ _ _ E2 S2) as [Hle1 Hm1]. destruct (F2 _ _ _ E1 S1) as [Hle2 Hm2].
  assert (Hp : String.length p1 = String.length p2) by lia.
  assert (Hm : String.length m1 = String.length m2).
  { specialize (Hm1 (eq_sym Hp)). specialize (Hm2 Hp). lia. }
  rewrite E1 in E2. apply append_inv_length in E2 as [_ E2]; [|assumption].
  now apply append_inv_length in E2 as [E2 _].
Qed.

(** ** [codePattern] on text of ASCII bytes *)

Lemma ascii_no_lead c :
  is_ascii c = true -> byte_is 197 c = false /\ byte_is 226 c = false.
Proof. by_bytes c; split; reflexivity. Qed.

Lemma span_letters_ascii s :
  ascii_text s = true -> span_letters s = span is_letter s.
Proof.
  unfold ascii_text. induction s as [|c s IH]; [reflexivity|].
  cbn [all_bytes]. rewrite andb_true_iff. intros [Hc Hs].
  cbn [span_letters span]. destruct (is_letter c); [now rewrite (IH Hs)|].
  destruct (ascii_no_lead c Hc) as [-> ->]. reflexivity.
Qed.

Lemma codePattern_at_ascii s :
  ascii_text s = true -> codePattern_at s = ascii_pattern_at s.
Proof.
  intros H. unfold codePattern_at, ascii_pattern_at. now rewrite span_letters_ascii.
Qed.

Lemma codePattern_find_cons c x :
  codePattern_find (String c x) =
  match codePattern_at (String c x) with
  | Some m => Some m
  | None => codePattern_find x
  end.
Proof. reflexivity. Qed.

(** On text of ASCII bytes [codePattern] finds what the specification's
    pattern finds. *)
Lemma codePattern_find_ascii s :
  ascii_text s = true -> codePattern_find s = ascii_pattern_find s.
Proof.
  induction s as [|c s IH]; [reflexivity|]. intros H.
  rewrite codePattern_find_cons, ascii_pattern_find_cons, (codePattern_at_ascii _ H).
  destruct (ascii_pattern_at (String c s)); [reflexivity|].
  apply IH. unfold ascii_text in *. cbn [all_bytes] in H.
  now apply andb_true_iff in H.
Qed.

(** For text of ASCII bytes: if [x] contains a substring of the shape
    [[A-Za-z]+-[0-9]+], then [ExtractCode x] is the first (leftmost) such
    substring in upper case; if it contains none, [ExtractCode x] is the
    empty string. *)
Lemma ExtractCode_ascii_text (x : string) :
  ascii_text x = true ->
  (contains_code x -> exists m, first_code_match x m /\ ExtractCode x = ToUpper m)
  /\ (~ contains_code x -> ExtractCode x = "").
Proof.
  intros Hx. unfold ExtractCode. rewrite (codePattern_find_ascii x Hx).
  destruct (ascii_pattern_find x) as [m|] eqn:E.
  - pose proof (ascii_pattern_find_some _ _ E) as Hm. split.
    + intros _. exists m. split; [assumption|].
      destruct (String.eqb_spec x "") as [->|_]; [|apply NormalizeCode_eq].
      destruct Hm as (pre & post & Hx' & (L & D & -> & HL & _) & _).
      destruct pre; [|discriminate]. destruct L; [congruence | discriminate].
    + intros Hno. exfalso. apply Hno.
      destruct Hm as (pre & post & Hx' & Hs & _). now exists pre, m, post.
  - split; [|intros _; now destruct (String.eqb x "")].
    intros Hc. now apply ascii_pattern_find_none in E.
Qed.

Lemma ExtractCode_ascii_text_witness :
  contains_code "new: abc-123 and de-4"
  /\ exists m, first_code_match "new: abc-123 and de-4" m
               /\ ExtractCode "new: abc-123 and de-4" = ToUpper m.
Proof.
  assert (H : contains_code "new: abc-123 and de-4").
  { exists "new: ", "abc-123", " and de-4". split; [reflexivity|].
    exists "abc", "123". repeat split; discriminate. }
  split; [exact H|].
  exact (proj1 (ExtractCode_ascii_text "new: abc-123 and de-4" eq_refl) H).
Defined.

Example ExtractCode_sample : ExtractCode "new: abc-123 and de-4" = "ABC-123".
Proof. reflexivity. Qed.

Example ExtractCode_backtrack : ExtractCode "ab-cd-12x" = "CD-12".
Proof. reflexivity. Qed.

(** ** [codePattern] outside ASCII *)

(** The long s and the Kelvin sign count as letters of a code. *)
Example codePattern_folds :
  codePattern_find (long_s +:+ "-1 ") = Some (long_s +:+ "-1")
  /\ codePattern_find ("a" +:+ kelvin +:+ "b-22.") = Some ("a" +:+ kelvin +:+ "b-22")
  /\ ascii_pattern_find (long_s +:+ "-1 ") = None
  /\ ascii_pattern_find ("a" +:+ kelvin +:+ "b-22.") = Some "b-22".
Proof. repeat split. Qed.

(** C6, at the failing inputs.  The text [K-1] written with the Kelvin sign
    contains no substring of the shape [[A-Za-z]+-[0-9]+], yet [ExtractCode]
    returns it whole, not the empty string, and what it returns is not a
    valid code for [IsValidCode].  In the text made of the Kelvin sign and
    [ab-12] the first substring of that shape is [ab-12], yet [ExtractCode]
    returns the Kelvin sign followed by [AB-12]. *)
Theorem ExtractCode_kelvin_sign :
  (~ contains_code kelvin_code
   /\ ExtractCode kelvin_code = kelvin_code
   /\ kelvin_code <> ""
   /\ CrawlerHelpers.IsValidCode (ExtractCode kelvin_code) = false)
  /\ (first_code_match (kelvin +:+ "ab-12") "ab-12"
      /\ ExtractCode (kelvin +:+ "ab-12") = kelvin +:+ "AB-12"
      /\ kelvin +:+ "AB-12" <> ToUpper "ab-12").
Proof.
  split.
  - split; [apply ascii_pattern_find_none; reflexivity|].
    split; [reflexivity|]. split; [discriminate|reflexivity].
  - split; [apply ascii_pattern_find_some; reflexivity|].
    split; [reflexivity|discriminate].
Qed.

End CrawlerFacts.

(* ===================================================================== *)
(** * Subscription matching *)
(* ===================================================================== *)

Module MatchFacts.
Import Model GoStrings GoStringsFacts Store Push Bot Samples.





Lemma MatchesSubscription_store video sub :
  MatchesSubscription (Some video) (Some sub) = matchesSubscription video sub.
Proof. reflexivity. Qed.




Example MatchesSubscription_samples :
  MatchesSubscription (Some sample_video) (Some (sample_sub SubTypeActress "MIKAMI")) = true
  /\ MatchesSubscription (Some sample_video) (Some (sample_sub SubTypeActress "aoi")) = false
  /\ MatchesSubscription (Some sample_video) (Some (sample_sub SubTypeTag "hd")) = true
  /\ MatchesSubscription (Some sample_video) (Some (sample_sub "OTHER" "hd")) = false.
Proof. repeat split. Qed.

Example DetermineSubscriptionType_samples :
  DetermineSubscriptionType "" = (SubTypeAll, "")
  /\ DetermineSubscriptionType "  " = (SubTypeAll, "")
  /\ DetermineSubscriptionType "#drama" = (SubTypeTag, "drama")
  /\ DetermineSubscriptionType " yua " = (SubTypeActress, "yua").
Proof. repeat split. Qed.

(** C10. For a non-nil video, an ACTRESS or TAG subscription whose keyword
    is empty matches, as an ALL subscription does; the argument ["#"] of the
    subscribe command yields a TAG subscription with the empty keyword,
    which matches every video. *)
Theorem empty_keyword_matches_every_video :
  (forall v s,
      SubType s = SubTypeActress \/ SubType s = SubTypeTag ->
      Keyword s = "" ->
      MatchesSubscription (Some v) (Some s) = true)
  /\ DetermineSubscriptionType "#" = (SubTypeTag, "")
  /\ (forall v chatID chatType,
        Enabled (subscription_of chatID chatType "#") = true
        /\ MatchesSubscription (Some v) (Some (subscription_of chatID chatType "#")) = true
        /\ matchesSubscription v (subscription_of chatID chatType "#") = true).
Proof.
  split; [|split; [reflexivity|]].
  - intros v s [H|H] Hk; simpl; rewrite H, Hk; simpl; apply Contains_empty.
  - intros v chatID chatType. split; [reflexivity|].
    rewrite MatchesSubscription_store. split; simpl; apply Contains_empty.
Qed.

Lemma empty_keyword_matches_every_video_witness :
  MatchesSubscription (Some sample_video) (Some (sample_sub SubTypeActress "")) = true
  /\ MatchesSubscription (Some sample_video) (Some (sample_sub SubTypeTag "")) = true.
Proof.
  split; apply (proj1 empty_keyword_matches_every_video); simpl; auto.
Defined.

End MatchFacts.

(* ===================================================================== *)
(** * Persistence: one row per code, and [pushed] never goes back *)
(* ===================================================================== *)

Module StoreFacts.
Import Model GoStrings Store Samples.

Lemma has_code_iff c v : has_code c v = true <-> Code v = c.
Proof. unfold has_code. apply String.eqb_eq. Qed.

Lemma existsb_has_code c (l : list Video) :
  existsb (has_code c) l = true <-> In c (map Code l).
Proof.
  rewrite existsb_exists, in_map_iff. split.
  - intros (v & Hin & H). apply has_code_iff in H. eauto.
  - intros (v & H & Hin). exists v. split; [assumption | now apply has_code_iff].
Qed.

Lemma existsb_has_code_false c (l : list Video) :
  existsb (has_code c) l = false <-> ~ In c (map Code l).
Proof.
  rewrite <- existsb_has_code. destruct (existsb (has_code c) l); split; congruence.
Qed.

Lemma rows_absent c (l : list Video) :
  ~ In c (map Code l) -> filter (fun v => has_code c v = true) l = [].
Proof.
  induction l as [|v l IH]; simpl; intros Hnotin; [reflexivity|].
  rewrite filter_cons. destruct (decide (has_code c v = true)) as [Hc|Hc].
  - apply has_code_iff in Hc. tauto.
  - apply IH. tauto.
Qed.

Lemma rows_unique c (l : list Video) :
  NoDup (map Code l) -> In c (map Code l) ->
  length (filter (fun v => has_code c v = true) l) = 1%nat.
Proof.
  induction l as [|v l IH]; simpl; intros Hnd Hin; [contradiction|].
  apply NoDup_cons in Hnd as [Hnotin Hnd']. rewrite list_elem_of_In in Hnotin.
  rewrite filter_cons.
  destruct (decide (has_code c v = true)) as [Hc|Hc].
  - apply has_code_iff in Hc. subst c. simpl. now rewrite rows_absent.
  - apply IH; [assumption|]. destruct Hin as [Hin|Hin]; [|assumption].
    exfalso. apply Hc. now apply has_code_iff.
Qed.

(** ** [INSERT ... ON CONFLICT DO NOTHING] *)

Lemma insert_taken v db :
  In (Code v) (map Code (videos db)) -> insert_or_ignore v db = (db, false).
Proof.
  intros H. unfold insert_or_ignore. apply existsb_has_code in H. now rewrite H.
Qed.

Lemma insert_fresh v db :
  ~ In (Code v) (map Code (videos db)) ->
  insert_or_ignore v db =
  (with_videos (set_ID (next_id db) v :: videos db) (next_id db + 1) db, true).
Proof.
  intros H. unfold insert_or_ignore. apply existsb_has_code_false in H. now rewrite H.
Qed.

Lemma insert_present v db :
  In (Code v) (map Code (videos (fst (insert_or_ignore v db)))).
Proof.
  destruct (in_dec string_dec (Code v) (map Code (videos db))) as [H|H].
  - now rewrite insert_taken.
  - rewrite insert_fresh by assumption. simpl. now left.
Qed.

Lemma insert_unique v db :
  unique_codes db -> unique_codes (fst (insert_or_ignore v db)).
Proof.
  unfold unique_codes. intros Hu.
  destruct (in_dec string_dec (Code v) (map Code (videos db))) as [H|H].
  - now rewrite insert_taken.
  - rewrite insert_fresh by assumption. simpl.
    apply NoDup_cons_2; [now rewrite list_elem_of_In | assumption].
Qed.

Lemma insert_keeps_flag c v db :
  pushed_flag c db = Some true ->
  pushed_flag c (fst (insert_or_ignore v db)) = Some true.
Proof.
  unfold pushed_flag. intros Hf.
  destruct (in_dec string_dec (Code v) (map Code (videos db))) as [H|H].
  - now rewrite insert_taken.
  - rewrite insert_fresh by assumption. simpl.
    destruct (has_code c (set_ID (next_id db) v)) eqn:E; [|assumption].
    exfalso. apply has_code_iff in E. simpl in E. subst c.
    destruct (find (has_code (Code v)) (videos db)) as [r|] eqn:Efind; [|discriminate].
    apply find_some in Efind as [Hin Hc]. apply has_code_iff in Hc.
    apply H. rewrite <- Hc. now apply in_map.
Qed.

Lemma insert_batch_unique vs db :
  unique_codes db -> unique_codes (fst (insert_batch vs db)).
Proof.
  revert db. induction vs as [|v vs IH]; intros db Hu; simpl; [assumption|].
  destruct (insert_or_ignore v db) as [db1 b] eqn:E1.
  destruct (insert_batch vs db1) as [db2 n] eqn:E2. simpl.
  change db2 with (fst (db2, n)). rewrite <- E2. apply IH.
  change db1 with (fst (db1, b)). rewrite <- E1. now apply insert_unique.
Qed.

Lemma insert_batch_keeps_flag c vs db :
  pushed_flag c db = Some true ->
  pushed_flag c (fst (insert_batch vs db)) = Some true.
Proof.
  revert db. induction vs as [|v vs IH]; intros db Hf; simpl; [assumption|].
  destruct (insert_or_ignore v db) as [db1 b] eqn:E1.
  destruct (insert_batch vs db1) as [db2 n] eqn:E2. simpl.
  change db2 with (fst (db2, n)). rewrite <- E2. apply IH.
  change db1 with (fst (db1, b)). rewrite <- E1. now apply insert_keeps_flag.
Qed.

(** A batch whose codes are all taken inserts nothing. *)
Lemma insert_batch_all_taken vs db :
  (forall v, In v vs -> In (Code v) (map Code (videos db))) ->
  insert_batch vs db = (db, 0).
Proof.
  induction vs as [|v vs IH]; intros H; simpl; [reflexivity|].
  rewrite insert_taken by (apply H; now left).
  rewrite IH by (intros w Hw; apply H; now right). reflexivity.
Qed.

(** [saved + duplicates] is the size of the batch, and [saved] is the number
    of rows the table grew by. *)
Lemma insert_batch_count vs db :
  let '(db', rows) := insert_batch vs db in
  0 <= rows <= Z.of_nat (length vs)
  /\ Z.of_nat (length (videos db')) = Z.of_nat (length (videos db)) + rows.
Proof.
  revert db. induction vs as [|v vs IH]; intros db; simpl; [lia|].
  unfold insert_or_ignore at 1.
  destruct (existsb (has_code (Code v)) (videos db)).
  - specialize (IH db). destruct (insert_batch vs db) as [db2 n]. lia.
  - match goal with |- context [insert_batch vs ?d] => specialize (IH d) end.
    match goal with |- context [insert_batch vs ?d] => destruct (insert_batch vs d) as [db2 n] end.
    simpl in IH. lia.
Qed.

(** ** [MarkAsPushed] *)

Lemma mark_codes i (l : list Video) :
  map Code (map (fun v => if ID v =? i then set_Pushed true v else v) l) = map Code l.
Proof.
  induction l as [|v l IH]; simpl; [reflexivity|].
  rewrite IH. now destruct (ID v =? i).
Qed.

Lemma mark_keeps_flag c i (l : list Video) :
  Pushed <$> find (has_code c) l = Some true ->
  Pushed <$> find (has_code c)
    (map (fun v => if ID v =? i then set_Pushed true v else v) l) = Some true.
Proof.
  induction l as [|v l IH]; simpl; [discriminate|].
  assert (Hc : has_code c (if ID v =? i then set_Pushed true v else v) = has_code c v)
    by now destruct (ID v =? i).
  rewrite Hc. destruct (has_code c v); [|exact IH].
  simpl. destruct (ID v =? i); [reflexivity | trivial].
Qed.

(** ** Histories of operations *)

Lemma set_Pushed_Code b v : Code (set_Pushed b v) = Code v.
Proof. reflexivity. Qed.

Lemma map_set_Pushed_Code b (vs : list Video) :
  map Code (map (set_Pushed b) vs) = map Code vs.
Proof. induction vs as [|v vs IH]; simpl; [reflexivity | now rewrite IH]. Qed.

Lemma apply_op_unique op db : unique_codes db -> unique_codes (apply_op op db).
Proof.
  intros Hu. destruct op as [[e|] v | [e|] vs | [e|] i]; simpl; try assumption.
  - now apply insert_unique.
  - unfold SaveVideos. destruct (Z.of_nat (length vs) =? 0); [assumption|]. simpl. assumption.
  - unfold SaveVideos. destruct (Z.of_nat (length vs) =? 0); [assumption|].
    pose proof (insert_batch_unique (map (set_Pushed false) vs) db Hu) as H.
    destruct (insert_batch (map (set_Pushed false) vs) db). exact H.
  - unfold unique_codes. simpl. now rewrite mark_codes.
Qed.

Lemma apply_op_keeps_flag c op db :
  pushed_flag c db = Some true -> pushed_flag c (apply_op op db) = Some true.
Proof.
  intros Hf. destruct op as [[e|] v | [e|] vs | [e|] i]; simpl; try assumption.
  - now apply insert_keeps_flag.
  - unfold SaveVideos. destruct (Z.of_nat (length vs) =? 0); assumption.
  - unfold SaveVideos. destruct (Z.of_nat (length vs) =? 0); [assumption|].
    pose proof (insert_batch_keeps_flag c (map (set_Pushed false) vs) db Hf) as H.
    destruct (insert_batch (map (set_Pushed false) vs) db). exact H.
  - unfold pushed_flag. simpl. now apply mark_keeps_flag.
Qed.

Lemma insert_keeps_code c v db :
  In c (map Code (videos db)) -> In c (map Code (videos (fst (insert_or_ignore v db)))).
Proof.
  intros Hd. unfold insert_or_ignore.
  destruct (existsb (has_code (Code v)) (videos db)); simpl; auto.
Qed.

Lemma insert_batch_keeps_code c vs db :
  In c (map Code (videos db)) -> In c (map Code (videos (fst (insert_batch vs db)))).
Proof.
  revert db. induction vs as [|v vs IH]; intros db Hd; simpl; [assumption|].
  pose proof (insert_keeps_code c v db Hd) as H1.
  destruct (insert_or_ignore v db) as [d1 b].
  specialize (IH d1 H1). destruct (insert_batch vs d1). exact IH.
Qed.

(** Every video of a batch has its code in the table afterwards. *)
Lemma insert_batch_present v vs db :
  In v vs -> In (Code v) (map Code (videos (fst (insert_batch vs db)))).
Proof.
  revert db. induction vs as [|w vs IH]; intros db Hin; simpl; [contradiction|].
  destruct Hin as [->|Hin].
  - pose proof (insert_present v db) as H1.
    destruct (insert_or_ignore v db) as [d1 b]. simpl in H1.
    pose proof (insert_batch_keeps_code _ vs d1 H1) as H2.
    destruct (insert_batch vs d1). exact H2.
  - destruct (insert_or_ignore w db) as [d1 b].
    specialize (IH d1 Hin). destruct (insert_batch vs d1). exact IH.
Qed.

Lemma SaveVideos_present v vs db :
  In v vs -> In (Code v) (map Code (videos (fst (SaveVideos None vs db)))).
Proof.
  intros Hin. unfold SaveVideos.
  destruct (Z.of_nat (length vs) =? 0) eqn:E.
  - destruct vs; [contradiction | simpl in E; lia].
  - assert (H : In (set_Pushed false v) (map (set_Pushed false) vs)) by now apply in_map.
    apply (insert_batch_present _ _ db) in H. simpl in H.
    destruct (insert_batch (map (set_Pushed false) vs) db). exact H.
Qed.

Lemma apply_op_keeps_code c op db :
  In c (map Code (videos db)) -> In c (map Code (videos (apply_op op db))).
Proof.
  intros Hin.
  destruct op as [[e|] v | [e|] vs | [e|] i]; simpl; try assumption.
  - now apply insert_keeps_code.
  - unfold SaveVideos. destruct (Z.of_nat (length vs) =? 0); assumption.
  - unfold SaveVideos. destruct (Z.of_nat (length vs) =? 0); [assumption|].
    pose proof (insert_batch_keeps_code c (map (set_Pushed false) vs) db Hin) as Hb.
    destruct (insert_batch (map (set_Pushed false) vs) db). exact Hb.
  - now rewrite mark_codes.
Qed.

Lemma run_ops_unique ops db : unique_codes db -> unique_codes (run_ops ops db).
Proof.
  revert db. induction ops as [|op ops IH]; intros db Hu; simpl; [assumption|].
  now apply IH, apply_op_unique.
Qed.

Lemma run_ops_keeps_flag c ops db :
  pushed_flag c db = Some true -> pushed_flag c (run_ops ops db) = Some true.
Proof.
  revert db. induction ops as [|op ops IH]; intros db Hf; simpl; [assumption|].
  now apply IH, apply_op_keeps_flag.
Qed.

Lemma run_ops_keeps_code c ops db :
  In c (map Code (videos db)) -> In c (map Code (videos (run_ops ops db))).
Proof.
  revert db. induction ops as [|op ops IH]; intros db Hf; simpl; [assumption|].
  now apply IH, apply_op_keeps_code.
Qed.

Lemma empty_unique : unique_codes empty.
Proof. apply NoDup_nil_2. Qed.

(** Saving again is a no-op: the first save decides. *)
Lemma save_times_once n video db :
  save_times (S n) video db = fst (SaveVideo None video db).
Proof.
  induction n as [|n IH]; [reflexivity|].
  change (save_times (S (S n)) video db)
    with (fst (SaveVideo None video (save_times (S n) video db))).
  rewrite IH. simpl. rewrite (insert_taken (set_Pushed false video)); [reflexivity|].
  apply insert_present.
Qed.

(** C9. Saving a video [N >= 1] times, with [SaveVideo] or in a [SaveVideos]
    batch, leaves exactly one persisted record for its code; a code that was
    new is stored with [pushed = false]; duplicate saves change nothing and
    are counted as duplicates; and no history of [SaveVideo], [SaveVideos]
    and [MarkAsPushed] calls takes a [pushed] flag from true back to false. *)
Theorem save_once_pushed_forever (db : MySQLStore) (video : Video) (n : nat) :
  unique_codes db ->
  let db' := save_times (S n) video db in
  length (rows_with_code (Code video) db') = 1%nat
  /\ db' = fst (SaveVideo None video db)
  /\ (~ In (Code video) (map Code (videos db)) ->
      find (has_code (Code video)) (videos db')
      = Some (set_ID (next_id db) (set_Pushed false video))
      /\ pushed_flag (Code video) db' = Some false)
  /\ (In (Code video) (map Code (videos db)) -> db' = db)
  /\ SaveVideos None [video] db' = (db', (0, 1, None))
  /\ (forall vs, In video vs ->
        length (rows_with_code (Code video) (fst (SaveVideos None vs db))) = 1%nat)
  /\ (forall ops, length (rows_with_code (Code video) (run_ops ops db')) = 1%nat)
  /\ (forall ops code d,
        pushed_flag code d = Some true -> pushed_flag code (run_ops ops d) = Some true).
Proof.
  intros Hu db'. subst db'. rewrite save_times_once. simpl.
  pose proof (insert_present (set_Pushed false video) db) as Hin.
  pose proof (insert_unique (set_Pushed false video) db Hu) as Hu'.
  rewrite set_Pushed_Code in Hin.
  split; [now apply rows_unique|]. split; [reflexivity|].
  split; [|split; [|split; [|split; [|split]]]].
  - intros Hnew. rewrite insert_fresh by assumption. unfold pushed_flag. simpl.
    unfold has_code. simpl. now rewrite String.eqb_refl.
  - intros Hold. now rewrite insert_taken.
  - unfold SaveVideos. simpl. rewrite insert_taken by assumption. reflexivity.
  - intros vs Hvs. apply rows_unique.
    + apply (apply_op_unique (OpSaveVideos None vs) db Hu).
    + now apply SaveVideos_present.
  - intros ops. apply rows_unique.
    + now apply run_ops_unique.
    + now apply run_ops_keeps_code.
  - intros ops code d. apply run_ops_keeps_flag.
Qed.

Lemma save_once_pushed_forever_witness :
  length (rows_with_code "ABC-123" (save_times 3 (draft "ABC-123") empty)) = 1%nat
  /\ pushed_flag "ABC-123" (save_times 3 (draft "ABC-123") empty) = Some false.
Proof.
  destruct (save_once_pushed_forever empty (draft "ABC-123") 2 empty_unique)
    as (Hone & _ & Hnew & _).
  split; [exact Hone|]. apply Hnew. simpl. tauto.
Defined.

Example save_and_mark :
  let db := run_ops [OpSaveVideo None (draft "ABC-123"); OpMarkAsPushed None 1;
                     OpSaveVideos None [draft "ABC-123"; draft "XYZ-9"]] empty in
  map (fun v => (ID v, Code v, Pushed v)) (videos db)
  = [(2, "XYZ-9", false); (1, "ABC-123", true)]
  /\ snd (SaveVideos None [draft "ABC-123"; draft "XYZ-9"; draft "XYZ-9"]
            (run_ops [OpSaveVideo None (draft "ABC-123")] empty)) = (1, 2, None).
Proof. split; reflexivity. Qed.

End StoreFacts.

(* ===================================================================== *)
(** * Delivery: one SUCCESS record per pair, and what the sweep marks *)
(* ===================================================================== *)

Module PushFacts.
Import Model GoStrings Store Push Samples.

Lemma count_success_nonneg v c db : 0 <= count_success v c db.
Proof. unfold count_success. lia. Qed.

Lemma count_success_record fault now r v c db :
  count_success v c (fst (RecordPush fault now r db))
  <= count_success v c db + 1.
Proof.
  unfold RecordPush, count_success. destruct fault; simpl; [lia|].
  rewrite filter_app, length_app, filter_cons, filter_nil.
  destruct (decide _); simpl; lia.
Qed.

(** Once a SUCCESS record exists, a call changes nothing: no transport
    call, no record; it returns nil unless the history query itself fails. *)
Lemma PushVideoToChat_after_success env video chatID s :
  0 < count_success (ID video) chatID (store s) ->
  PushVideoToChat env video chatID s
  = (s, match hasPushed_fault env with
        | Some e => Some ("failed to check push history: " +:+
                          ("failed to check push status: " +:+ e))
        | None => None
        end).
Proof.
  intros H. unfold PushVideoToChat, HasPushed.
  destruct (hasPushed_fault env); [reflexivity|].
  apply Z.ltb_lt in H. now rewrite H.
Qed.

Lemma PushVideoToChat_keeps_bound env video chatID s :
  count_success (ID video) chatID (store s) <= 1 ->
  count_success (ID video) chatID (store (fst (PushVideoToChat env video chatID s))) <= 1.
Proof.
  intros H. unfold PushVideoToChat, HasPushed.
  destruct (hasPushed_fault env); [exact H|].
  destruct (0 <? count_success (ID video) chatID (store s)) eqn:E; [exact H|].
  apply Z.ltb_ge in E. destruct (limiter_err env); [exact H|].
  destruct (nonempty (PreviewURL video));
    destruct (bool_decide _ || _)%bool; try destruct (nonempty (CoverURL video));
    match goal with
    | |- context [RecordPush ?f ?n ?r ?d] =>
        pose proof (count_success_record f n r (ID video) chatID d) as Hr;
        destruct (RecordPush f n r d) as [db' o]; simpl in *; lia
    end.
Qed.

Ltac decide_sends :=
  repeat match goal with
         | |- context [@bool_decide ?P ?d] =>
             let b := eval vm_compute in (@bool_decide P d) in
             change (@bool_decide P d) with b
         end.

Ltac push_cases env video :=
  destruct (nonempty (PreviewURL video)); cbn [negb orb];
  destruct (sendVideo_err env); decide_sends; cbn [orb];
  try destruct (nonempty (CoverURL video));
  try destruct (sendPhoto_err env); try destruct (sendMarkdown_err env).

Lemma count_success_snoc v c (db : MySQLStore) r :
  Z.of_nat (length (filter (fun r => is_success v c r = true) (push_records db ++ [r])))
  = count_success v c db + (if is_success v c r then 1 else 0).
Proof.
  unfold count_success. rewrite filter_app, length_app, filter_cons, filter_nil.
  destruct (is_success v c r).
  - destruct (decide (true = true)); [|easy]. cbn [length]. lia.
  - destruct (decide (false = true)); [easy|]. cbn [length]. lia.
Qed.

(** What one [PushVideoToChat] does to the history: nothing, or one more
    record for its own pair. *)
Lemma PushVideoToChat_history env video chatID s :
  let s' := fst (PushVideoToChat env video chatID s) in
  push_records (store s') = push_records (store s)
  \/ exists r,
       push_records (store s') = push_records (store s) ++ [r]
       /\ VideoID r = ID video /\ RecChatID r = chatID
       /\ (Status r = PushStatusSuccess <-> snd (PushVideoToChat env video chatID s) = None)
       /\ count_success (ID video) chatID (store s) = 0.
Proof.
  cbn zeta. unfold PushVideoToChat, HasPushed.
  destruct (hasPushed_fault env); [now left|].
  destruct (Z.ltb_spec 0 (count_success (ID video) chatID (store s))); [now left|].
  destruct (limiter_err env); [now left|].
  pose proof (count_success_nonneg (ID video) chatID (store s)).
  destruct (nonempty (PreviewURL video)); cbn [negb orb];
    destruct (sendVideo_err env); cbn [bool_decide orb];
    try destruct (nonempty (CoverURL video));
    try destruct (sendPhoto_err env); try destruct (sendMarkdown_err env);
    unfold RecordPush; destruct (recordPush_fault env); cbn [fst snd store];
    (now left) ||
    (right; eexists; split; [reflexivity|]; cbn [VideoID RecChatID Status];
     repeat split; try easy; lia).
Qed.

Lemma PushVideoToChat_monotone env video chatID s v c :
  count_success v c (store s)
  <= count_success v c (store (fst (PushVideoToChat env video chatID s))).
Proof.
  destruct (PushVideoToChat_history env video chatID s) as [H|(r & H & _)];
    unfold count_success at 2; rewrite H; [unfold count_success; lia|].
  rewrite count_success_snoc. destruct (is_success v c r); lia.
Qed.

(** A call that returns nil and can write its record leaves the pair on
    record as delivered. *)
Lemma success_is_recorded env video chatID s :
  snd (PushVideoToChat env video chatID s) = None ->
  recordPush_fault env = None ->
  0 < count_success (ID video) chatID (store (fst (PushVideoToChat env video chatID s))).
Proof.
  unfold PushVideoToChat, HasPushed.
  destruct (hasPushed_fault env); [discriminate|].
  destruct (Z.ltb_spec 0 (count_success (ID video) chatID (store s))) as [Hdone|Hnew];
    [intros _ _; exact Hdone|].
  destruct (limiter_err env); [discriminate|].
  pose proof (count_success_nonneg (ID video) chatID (store s)).
  push_cases env video; unfold RecordPush; destruct (recordPush_fault env);
    cbn [fst snd store outbox push_records]; intros Hr Hf; try discriminate;
    unfold count_success; cbn [push_records]; rewrite count_success_snoc;
    unfold is_success; cbn [VideoID RecChatID Status];
    rewrite !Z.eqb_refl; cbn; lia.
Qed.

Lemma push_repeatedly_app l1 l2 video chatID s :
  push_repeatedly (l1 ++ l2) video chatID s
  = let '(s1, r1) := push_repeatedly l1 video chatID s in
    let '(s2, r2) := push_repeatedly l2 video chatID s1 in
    (s2, r1 ++ r2).
Proof.
  revert s. induction l1 as [|e l1 IH]; intros s; simpl.
  - now destruct (push_repeatedly l2 video chatID s).
  - destruct (PushVideoToChat e video chatID s) as [s1 r]. rewrite IH.
    destruct (push_repeatedly l1 video chatID s1) as [s2 rs].
    now destruct (push_repeatedly l2 video chatID s2).
Qed.

Lemma push_repeatedly_length envs video chatID s :
  length (snd (push_repeatedly envs video chatID s)) = length envs.
Proof.
  revert s. induction envs as [|e envs IH]; intros s; simpl; [reflexivity|].
  destruct (PushVideoToChat e video chatID s) as [s1 r]. specialize (IH s1).
  destruct (push_repeatedly envs video chatID s1). simpl in *. now rewrite IH.
Qed.

Lemma push_repeatedly_bound envs video chatID s :
  count_success (ID video) chatID (store s) <= 1 ->
  count_success (ID video) chatID
    (store (fst (push_repeatedly envs video chatID s))) <= 1.
Proof.
  revert s. induction envs as [|e envs IH]; intros s H; simpl; [exact H|].
  pose proof (PushVideoToChat_keeps_bound e video chatID s H) as H1.
  destruct (PushVideoToChat e video chatID s) as [s1 r]. specialize (IH s1 H1).
  now destruct (push_repeatedly envs video chatID s1).
Qed.

(** The [k]-th call of a run starts from the state the first [k] calls
    leave, and its result is the [k]-th returned value. *)
Lemma push_repeatedly_step envs k env video chatID s :
  envs !! k = Some env ->
  let before := fst (push_repeatedly (take k envs) video chatID s) in
  fst (push_repeatedly (take (S k) envs) video chatID s)
  = fst (PushVideoToChat env video chatID before)
  /\ snd (push_repeatedly envs video chatID s) !! k
     = Some (snd (PushVideoToChat env video chatID before)).
Proof.
  intros Hk. simpl.
  rewrite (take_S_r _ _ _ Hk), push_repeatedly_app.
  pose proof (push_repeatedly_length (take k envs) video chatID s) as Hlen.
  rewrite length_take_le in Hlen by (apply lookup_lt_Some in Hk; lia).
  destruct (push_repeatedly (take k envs) video chatID s) as [s1 r1] eqn:E1.
  simpl in *. split.
  - now destruct (PushVideoToChat env video chatID s1).
  - rewrite <- (take_drop_middle _ _ _ Hk), push_repeatedly_app, E1. simpl.
    destruct (PushVideoToChat env video chatID s1) as [s2 r].
    destruct (push_repeatedly (drop (S k) envs) video chatID s2) as [s3 r3]. simpl.
    rewrite lookup_app_r by lia. now rewrite Hlen, Nat.sub_diag.
Qed.

Lemma push_repeatedly_monotone envs video chatID s :
  count_success (ID video) chatID (store s)
  <= count_success (ID video) chatID
       (store (fst (push_repeatedly envs video chatID s))).
Proof.
  revert s. induction envs as [|e envs IH]; intros s; simpl; [lia|].
  pose proof (PushVideoToChat_monotone e video chatID s (ID video) chatID) as H1.
  destruct (PushVideoToChat e video chatID s) as [s1 r]. specialize (IH s1).
  destruct (push_repeatedly envs video chatID s1). simpl in *. lia.
Qed.

(** Once a call has returned nil and written its record, the pair stays on
    record as delivered. *)
Lemma recorded_success_stays envs j k envj video chatID s :
  (j < k)%nat -> envs !! j = Some envj ->
  snd (push_repeatedly envs video chatID s) !! j = Some None ->
  recordPush_fault envj = None ->
  0 < count_success (ID video) chatID
        (store (fst (push_repeatedly (take k envs) video chatID s))).
Proof.
  intros Hjk Hj Hr Hf.
  destruct (push_repeatedly_step envs j envj video chatID s Hj) as [Hs Hrj].
  cbn zeta in Hs, Hrj. rewrite Hrj in Hr. injection Hr as Hr.
  pose proof (success_is_recorded envj video chatID _ Hr Hf) as Hpos.
  rewrite <- Hs in Hpos.
  replace k with (S j + (k - S j))%nat by lia.
  rewrite <- take_take_drop, push_repeatedly_app.
  pose proof (push_repeatedly_monotone (take (k - S j) (drop (S j) envs)) video chatID
                (fst (push_repeatedly (take (S j) envs) video chatID s))) as Hm.
  destruct (push_repeatedly (take (S j) envs) video chatID s) as [s1 r1].
  cbn [fst] in Hm, Hpos.
  destruct (push_repeatedly (take (k - S j) (drop (S j) envs)) video chatID s1) as [s2 r2].
  cbn [fst] in Hm |- *. lia.
Qed.

(** C2, as the code has it.  For one (video id, chat id) pair and any number
    of sequential [PushVideoToChat] calls, whatever the collaborators
    answer, from a history with at most one SUCCESS push record for the
    pair: at most one SUCCESS push record exists for the pair; every call
    made once a SUCCESS record exists is a no-op (no transport call, no new
    push record) and returns nil when its history query answers; and that
    is the case of every call after a call that returned nil and could
    write its push record. *)
Theorem at_most_one_success (envs : list ChatEnv) (video : Video) (chatID : Z)
    (s : Service) :
  count_success (ID video) chatID (store s) <= 1 ->
  count_success (ID video) chatID
    (store (fst (push_repeatedly envs video chatID s))) <= 1
  /\ (forall k env,
       envs !! k = Some env ->
       let before := fst (push_repeatedly (take k envs) video chatID s) in
       0 < count_success (ID video) chatID (store before) ->
       fst (push_repeatedly (take (S k) envs) video chatID s) = before
       /\ (hasPushed_fault env = None ->
           snd (push_repeatedly envs video chatID s) !! k = Some None))
  /\ (forall j k envj envk,
       (j < k)%nat -> envs !! j = Some envj -> envs !! k = Some envk ->
       snd (push_repeatedly envs video chatID s) !! j = Some None ->
       recordPush_fault envj = None ->
       fst (push_repeatedly (take (S k) envs) video chatID s)
       = fst (push_repeatedly (take k envs) video chatID s)
       /\ (hasPushed_fault envk = None ->
           snd (push_repeatedly envs video chatID s) !! k = Some None)).
Proof.
  intros H. split; [now apply push_repeatedly_bound|].
  assert (Hnoop : forall k env,
    envs !! k = Some env ->
    0 < count_success (ID video) chatID
          (store (fst (push_repeatedly (take k envs) video chatID s))) ->
    fst (push_repeatedly (take (S k) envs) video chatID s)
    = fst (push_repeatedly (take k envs) video chatID s)
    /\ (hasPushed_fault env = None ->
        snd (push_repeatedly envs video chatID s) !! k = Some None)).
  { intros k env Hk Hpos.
    destruct (push_repeatedly_step envs k env video chatID s Hk) as [Hs Hr].
    cbn zeta in Hs, Hr.
    rewrite (PushVideoToChat_after_success env video chatID _ Hpos) in Hs, Hr.
    split; [exact Hs|]. intros Hf. rewrite Hr. simpl. now rewrite Hf. }
  split.
  - intros k env Hk before Hpos. now apply Hnoop.
  - intros j k envj envk Hjk Hj Hk Hr Hf. apply (Hnoop k envk Hk).
    now apply (recorded_success_stays envs j k envj).
Qed.

Lemma at_most_one_success_witness :
  let s0 := {| store := Store.empty; outbox := [] |} in
  let envs := [transport_down "timeout"; calm; calm] in
  count_success 1 100 (store (fst (push_repeatedly envs sample_video 100 s0))) <= 1
  /\ fst (push_repeatedly (take 3 envs) sample_video 100 s0)
     = fst (push_repeatedly (take 2 envs) sample_video 100 s0)
  /\ snd (push_repeatedly envs sample_video 100 s0) !! 2%nat = Some None.
Proof.
  intros s0 envs.
  assert (H0 : count_success (ID sample_video) 100 (store s0) <= 1)
    by (vm_compute; discriminate).
  destruct (at_most_one_success envs sample_video 100 s0 H0) as (Hb & _ & Hk).
  split; [exact Hb|].
  destruct (Hk 1%nat 2%nat calm calm ltac:(lia) eq_refl eq_refl eq_refl eq_refl)
    as [Hs Hr].
  split; [exact Hs | exact (Hr eq_refl)].
Defined.

(** The claim as the specification words it fails twice.  When the store
    cannot write the push record of a delivery, the call returns nil all the
    same, nothing is on record, and the next call delivers again and writes
    a record.  And when the history query of a later call fails, that call
    returns the error, not nil. *)
Lemma call_after_success_repeats :
  let s0 := {| store := Store.empty; outbox := [] |} in
  ~ calls_after_success_are_noops [record_down "gone"; calm] sample_video 100 s0
  /\ ~ calls_after_success_are_noops [calm; history_down "gone"] sample_video 100 s0.
Proof.
  split; intros H; destruct (H 0%nat 1%nat ltac:(simpl; lia) eq_refl) as [Hs Hr];
    vm_compute in Hs, Hr; discriminate.
Qed.

Example delivered_twice :
  let s0 := {| store := Store.empty; outbox := [] |} in
  let '(s, rs) := push_repeatedly [record_down "gone"; calm] sample_video 100 s0 in
  rs = [None; None]
  /\ outbox s = [SentMarkdown 100; SentMarkdown 100]
  /\ map Status (push_records (store s)) = ["SUCCESS"].
Proof. vm_compute. repeat split. Qed.

Example history_query_fails :
  let s0 := {| store := Store.empty; outbox := [] |} in
  let '(s, rs) := push_repeatedly [calm; history_down "gone"] sample_video 100 s0 in
  rs = [None;
        Some "failed to check push history: failed to check push status: gone"]
  /\ outbox s = [SentMarkdown 100]
  /\ map Status (push_records (store s)) = ["SUCCESS"].
Proof. vm_compute. repeat split. Qed.

Example three_calls :
  let s0 := {| store := Store.empty; outbox := [] |} in
  let '(s, rs) := push_repeatedly [transport_down "timeout"; calm; calm] sample_video 100 s0 in
  rs = [Some "timeout"; None; None]
  /\ map Status (push_records (store s)) = ["FAILED"; "SUCCESS"]
  /\ outbox s = [SentMarkdown 100; SentMarkdown 100].
Proof. vm_compute. repeat split. Qed.

(** ** The sweep *)

(** [PushVideoToSubscribers] reports no error once the subscription query
    has answered: the error of each [PushVideoToChat] is logged and dropped. *)
Lemma PushVideoToSubscribers_swallows env video s :
  matching_fault env = None -> snd (PushVideoToSubscribers env video s) = None.
Proof.
  intros H. unfold PushVideoToSubscribers, GetMatchingSubscriptions, GetAllSubscriptions.
  now rewrite H.
Qed.

(** [PushVideoToChat] writes push records only: the videos table is as before. *)
Lemma PushVideoToChat_videos env video chatID s :
  videos (store (fst (PushVideoToChat env video chatID s))) = videos (store s).
Proof.
  unfold PushVideoToChat, HasPushed, RecordPush.
  destruct (hasPushed_fault env); [reflexivity|].
  destruct (0 <? _); [reflexivity|].
  destruct (limiter_err env); [reflexivity|].
  destruct (nonempty (PreviewURL video)); destruct (bool_decide _ || _)%bool;
    try destruct (nonempty (CoverURL video));
    destruct (recordPush_fault env); reflexivity.
Qed.

Lemma push_to_subs_videos video subs envs pushedChats s :
  videos (store (push_to_subs video subs envs pushedChats s)) = videos (store s).
Proof.
  revert envs pushedChats s.
  induction subs as [|sub subs IH]; intros envs pushedChats s; simpl; [reflexivity|].
  destruct (default false (pushedChats !! ChatID sub)); [apply IH|].
  destruct (next_env calm envs) as [env envs'].
  pose proof (PushVideoToChat_videos env video (ChatID sub) s) as H.
  destruct (PushVideoToChat env video (ChatID sub) s) as [s' [e|]];
    rewrite IH; exact H.
Qed.

Lemma sweep_videos vs envs s :
  Forall store_answers envs ->
  videos (store (sweep vs envs s))
  = fold_left (fun rows v => mark_rows (ID v) rows) vs (videos (store s)).
Proof.
  revert envs s. induction vs as [|v vs IH]; intros envs s Henvs; simpl; [reflexivity|].
  assert (Hnext : store_answers (fst (next_env calm_video envs))
                  /\ Forall store_answers (snd (next_env calm_video envs))).
  { destruct Henvs as [|e es He Hes]; simpl; [|now split].
    split; [now split | constructor]. }
  destruct (next_env calm_video envs) as [env envs']. simpl in Hnext.
  destruct Hnext as [[Hm Hk] Hrest].
  unfold PushVideoToSubscribers, GetMatchingSubscriptions, GetAllSubscriptions.
  rewrite Hm. unfold MarkAsPushed. rewrite Hk.
  rewrite IH by assumption. simpl. now rewrite push_to_subs_videos.
Qed.

Lemma marks_all vs (rows : list Video) :
  (forall r, In r rows -> Pushed r = true \/ In (ID r) (map ID vs)) ->
  forall r, In r (fold_left (fun rows v => mark_rows (ID v) rows) vs rows) ->
            Pushed r = true.
Proof.
  revert rows. induction vs as [|v vs IH]; intros rows H r Hr; simpl in *.
  - destruct (H r Hr) as [Hp|[]]. exact Hp.
  - apply (IH (mark_rows (ID v) rows)); [|exact Hr].
    intros r' Hr'. unfold mark_rows in Hr'. apply in_map_iff in Hr' as (r0 & <- & Hr0).
    destruct (ID r0 =? ID v) eqn:E; [now left|].
    destruct (H r0 Hr0) as [Hp|[Hid|Hin]]; [now left | | now right].
    apply Z.eqb_neq in E. congruence.
Qed.

Lemma filter_none {A} (P : A -> Prop) `{forall x, Decision (P x)} (l : list A) :
  (forall x, In x l -> ~ P x) -> filter P l = [].
Proof.
  induction l as [|x l IH]; intros Hl; [reflexivity|].
  rewrite filter_cons. destruct (decide (P x)) as [Hx|Hx].
  - exfalso. apply (Hl x); [now left | assumption].
  - apply IH. intros y Hy. apply Hl. now right.
Qed.

(** Whatever the transport answers for whichever chat, a sweep during which
    the store answers leaves no video unpushed: nothing is kept for a retry. *)
Lemma sweep_marks_every_video env s :
  unpushed_fault env = None -> Forall store_answers (video_envs env) ->
  GetUnpushedVideos None (store (fst (PushUnpushedVideos env s))) = Ok [].
Proof.
  intros Hu Henvs. unfold PushUnpushedVideos, GetUnpushedVideos. rewrite Hu. simpl.
  rewrite sweep_videos by assumption. f_equal.
  apply filter_none. intros r Hr Hf.
  assert (Hp : Pushed r = true); [|congruence].
  eapply marks_all; [|exact Hr].
  intros r0 Hr0. destruct (Pushed r0) eqn:E; [now left | right].
  apply in_map. apply list_elem_of_In, list_elem_of_filter.
  split; [exact E | now apply list_elem_of_In].
Qed.

(** C1, at the failing input: one undelivered video, one subscribed chat,
    every send fails.  The sweep records the FAILED attempt and marks the
    video as pushed all the same; the next sweep finds nothing to deliver. *)
Theorem sweep_marks_after_failed_send :
  let s1 := fst (PushUnpushedVideos sweep_transport_down one_video_one_chat) in
  map (fun r => (VideoID r, RecChatID r, Status r)) (push_records (store s1))
  = [(1, 100, PushStatusFailed)]
  /\ count_success 1 100 (store s1) = 0
  /\ pushed_flag "ABC-123" (store s1) = Some true
  /\ GetUnpushedVideos None (store s1) = Ok []
  /\ PushUnpushedVideos sweep_calm s1 = (s1, None).
Proof. vm_compute. repeat split. Qed.

End PushFacts.

(* ===================================================================== *)
(** * Harvest: the limit and the rendering fallback *)
(* ===================================================================== *)

Module HarvestFacts.
Import Model GoStrings HTTPCrawler Samples.

Ltac break_match :=
  repeat match goal with
         | |- context [match ?x with _ => _ end] => destruct x eqn:?
         end.

Ltac leb_lia :=
  repeat match goal with
         | H : (_ <=? _) = false |- _ => apply Z.leb_gt in H
         | H : (_ <=? _) = true |- _ => apply Z.leb_le in H
         | H : (_ <? _) = false |- _ => apply Z.ltb_ge in H
         | H : (_ <? _) = true |- _ => apply Z.ltb_lt in H
         | H : (_ =? _) = false |- _ => apply Z.eqb_neq in H
         | H : (_ =? _) = true |- _ => apply Z.eqb_eq in H
         end; lia.

Lemma len_app {A} (l1 l2 : list A) : len (l1 ++ l2) = len l1 + len l2.
Proof. unfold len. rewrite length_app. lia. Qed.

Lemma len_take {A} (l : list A) limit :
  0 <= limit -> len (take (Z.to_nat limit) l) <= limit.
Proof. unfold len. rewrite length_take. lia. Qed.

Lemma wrap64_small z : - 2 ^ 63 <= z < 2 ^ 63 -> wrap64 z = z.
Proof. intros H. unfold wrap64. rewrite Z.mod_small; lia. Qed.

Lemma maxPages_pos limit :
  1 <= limit < 2 ^ 63 - 11 -> exists n, Z.to_nat (maxPages limit) = S n.
Proof.
  intros H. unfold maxPages. rewrite wrap64_small by lia.
  assert (1 <= (limit + 11) ÷ 12) by (apply Z.quot_le_lower_bound; lia).
  exists (Z.to_nat ((limit + 11) ÷ 12 - 1)). lia.
Qed.

(** ** The limit *)

Lemma actor_loop_bound w base limit n page allVideos log :
  0 <= limit -> len allVideos <= limit ->
  len (found (actor_loop w base limit n page allVideos log)) <= limit.
Proof.
  intros Hl. revert page allVideos log.
  induction n as [|n IH]; intros page allVideos log Hall; simpl; [assumption|].
  break_match; simpl; try assumption.
  - now apply len_take.
  - apply IH. leb_lia.
Qed.

(** [CrawlByActor] keeps to its limit. *)
Lemma CrawlByActor_bound w actorName limit :
  0 <= limit -> len (found (CrawlByActor w actorName limit)) <= limit.
Proof. intros H. apply actor_loop_bound; [assumption | exact H]. Qed.

Lemma keyword_loop_bound w base limit n page allVideos log :
  0 <= limit -> 2 <= page -> len allVideos <= limit ->
  len (found (keyword_loop w base limit n page allVideos log)) <= limit.
Proof.
  intros Hl. revert page allVideos log.
  induction n as [|n IH]; intros page allVideos log Hp Hall; simpl; [assumption|].
  assert (Hp1 : (page =? 1) = false) by (apply Z.eqb_neq; lia).
  rewrite Hp1. simpl.
  break_match; simpl; try assumption.
  - now apply len_take.
  - apply IH; leb_lia.
Qed.

Lemma keyword_first_page_bound w base limit n html :
  0 <= limit ->
  fetchWithRetry w base = Ok html ->
  len (found (keyword_loop w base limit n 1 [] [])) <= limit.
Proof.
  intros Hl Hf. destruct n as [|n]; simpl; [exact Hl|].
  change (page_url base 1) with base. rewrite Hf.
  break_match; simpl; try exact Hl; try (now apply len_take);
    apply keyword_loop_bound; leb_lia.
Qed.

(** [CrawlByKeyword] keeps to its limit whenever the plain fetch of the
    first page succeeds. *)
Lemma CrawlByKeyword_bound_fetched w keyword limit html :
  0 <= limit ->
  fetchWithRetry w (BaseURL +:+ searchPath +:+ PathEscape w keyword) = Ok html ->
  len (found (CrawlByKeyword w keyword limit)) <= limit.
Proof. intros Hl Hf. eapply keyword_first_page_bound; eassumption. Qed.

(** C3, at the failing input: the plain fetch of the first search page
    fails, the browser renders two cards, the limit is one.  The records of
    the browser are appended without the cut to [limit] that the other path
    makes, and [CrawlByKeyword] returns two records. *)
Theorem CrawlByKeyword_exceeds_limit :
  let h := CrawlByKeyword world_browser_only "kw" 1 in
  map Code (found h) = ["AAA-1"; "BBB-2"]
  /\ failure h = None
  /\ 1 < len (found h)
  /\ requests h = [Fetched 1 "https://missav.ai/search/kw";
                   Rendered 1 "https://missav.ai/search/kw"].
Proof. vm_compute. repeat split. Qed.

Example CrawlByKeyword_cut_on_plain_path :
  map Code (found (CrawlByKeyword world_rendered "kw" 1)) = ["AAA-1"].
Proof. reflexivity. Qed.

(** ** The rendering fallback *)

Lemma rendered_fetched log page url : rendered (log ++ [Fetched page url]) = rendered log.
Proof. unfold rendered. rewrite filter_app. simpl. apply app_nil_r. Qed.

Lemma rendered_rendered log page url :
  rendered (log ++ [Rendered page url]) = rendered log ++ [Rendered page url].
Proof. unfold rendered. now rewrite filter_app. Qed.

(** From page 2 on, neither loop calls the browser. *)
Lemma new_videos_no_render w base n page allVideos log :
  2 <= page ->
  rendered (requests (new_videos_loop w base n page allVideos log)) = rendered log.
Proof.
  revert page allVideos log.
  induction n as [|n IH]; intros page allVideos log Hp; simpl; [reflexivity|].
  assert (Hp1 : (page =? 1) = false) by (apply Z.eqb_neq; lia).
  rewrite Hp1. simpl.
  break_match; simpl; try reflexivity; rewrite IH by lia; apply rendered_fetched.
Qed.

Lemma keyword_no_render w base limit n page allVideos log :
  2 <= page ->
  rendered (requests (keyword_loop w base limit n page allVideos log)) = rendered log.
Proof.
  revert page allVideos log.
  induction n as [|n IH]; intros page allVideos log Hp; simpl; [reflexivity|].
  assert (Hp1 : (page =? 1) = false) by (apply Z.eqb_neq; lia).
  rewrite Hp1. simpl.
  break_match; simpl; try reflexivity; try apply rendered_fetched;
    rewrite IH by lia; apply rendered_fetched.
Qed.

(** What a loop has gathered stays in front of what it returns. *)
Lemma new_videos_extends w base n page allVideos log :
  exists rest, found (new_videos_loop w base n page allVideos log) = allVideos ++ rest.
Proof.
  revert page allVideos log.
  induction n as [|n IH]; intros page allVideos log; simpl.
  - exists []. now rewrite app_nil_r.
  - break_match; simpl;
      try (exists []; now rewrite app_nil_r);
      try apply IH;
      match goal with
      | |- context [new_videos_loop w base n ?p (allVideos ++ ?vs) ?l] =>
          destruct (IH p (allVideos ++ vs) l) as [rest ->];
          exists (vs ++ rest); now rewrite app_assoc
      end.
Qed.

Lemma keyword_extends w base limit n page allVideos log :
  2 <= page -> len allVideos < limit ->
  exists rest,
    found (keyword_loop w base limit n page allVideos log)
    = take (Z.to_nat limit) (allVideos ++ rest).
Proof.
  revert page allVideos log.
  assert (Hstop : forall allVideos : list Video, len allVideos < limit ->
            exists rest, allVideos = take (Z.to_nat limit) (allVideos ++ rest)).
  { intros l Hl. exists []. rewrite app_nil_r, take_ge; [reflexivity|]. unfold len in Hl. lia. }
  induction n as [|n IH]; intros page allVideos log Hp Hall; simpl; [now apply Hstop|].
  assert (Hp1 : (page =? 1) = false) by (apply Z.eqb_neq; lia).
  rewrite Hp1. simpl.
  break_match; simpl; try (now apply Hstop).
  - eauto.
  - match goal with
    | |- context [keyword_loop w base limit n ?p (allVideos ++ ?vs) ?l] =>
        destruct (IH p (allVideos ++ vs) l) as [rest ->]; [lia | leb_lia |];
        exists (vs ++ rest); now rewrite app_assoc
    end.
Qed.

(** [CrawlByActor] has no rendering fallback at all. *)
Lemma actor_no_render w base limit n page allVideos log :
  rendered (requests (actor_loop w base limit n page allVideos log)) = rendered log.
Proof.
  revert page allVideos log.
  induction n as [|n IH]; intros page allVideos log; simpl; [reflexivity|].
  break_match; simpl; try reflexivity; try apply rendered_fetched.
  rewrite IH. apply rendered_fetched.
Qed.

(** Page 1 of [CrawlNewVideos] when the plain fetch finds no record. *)
Lemma new_videos_first_page w base n html :
  ctx_done w 1 = false ->
  fetchWithRetry w base = Ok html -> ParseVideoList w html = Ok [] ->
  let h := new_videos_loop w base (S n) 1 [] [] in
  rendered (requests h) = [Rendered 1 base]
  /\ forall bv, crawlWithBrowser w base = Ok bv -> bv <> [] ->
                exists rest, found h = bv ++ rest.
Proof.
  intros Hc Hf Hparse. simpl. change (page_url base 1) with base.
  rewrite Hc, Hf, Hparse. simpl. split.
  - now rewrite new_videos_no_render by lia.
  - intros bv Hb Hne. rewrite Hb.
    assert (Hlen : (0 <? len bv) = true).
    { apply Z.ltb_lt. destruct bv; [congruence | unfold len; simpl; lia]. }
    rewrite Hlen. apply new_videos_extends.
Qed.

(** Page 1 of [CrawlByKeyword] when the plain fetch finds no record. *)
Lemma keyword_first_page w base limit n html :
  1 <= limit -> ctx_done w 1 = false ->
  fetchWithRetry w base = Ok html -> ParseVideoList w html = Ok [] ->
  let h := keyword_loop w base limit (S n) 1 [] [] in
  rendered (requests h) = [Rendered 1 base]
  /\ forall bv, crawlWithBrowser w base = Ok bv -> bv <> [] ->
                exists rest, found h = take (Z.to_nat limit) (bv ++ rest).
Proof.
  intros Hl Hc Hf Hparse. simpl. change (page_url base 1) with base.
  rewrite Hc, Hf, Hparse. simpl. split.
  - break_match; simpl; try reflexivity; now rewrite keyword_no_render by lia.
  - intros bv Hb Hne. rewrite Hb.
    assert (Hlen : (0 <? len bv) = true).
    { apply Z.ltb_lt. destruct bv; [congruence | unfold len; simpl; lia]. }
    rewrite Hlen. assert (Hz : (len bv =? 0) = false) by leb_lia. rewrite Hz.
    destruct (limit <=? len bv) eqn:E; simpl.
    + exists []. now rewrite app_nil_r.
    + apply keyword_extends; leb_lia.
Qed.

(** An empty page from 2 on: [CrawlByKeyword] returns at once ... *)
Lemma keyword_empty_page w base limit n page allVideos log :
  2 <= page -> ctx_done w page = false -> empty_page w base page ->
  keyword_loop w base limit (S n) page allVideos log
  = {| found := allVideos; failure := None;
       requests := log ++ [Fetched page (page_url base page)] |}.
Proof.
  intros Hp Hc (html & Hf & Hparse). simpl. rewrite Hc, Hf, Hparse.
  assert (Hp1 : (page =? 1) = false) by (apply Z.eqb_neq; lia).
  now rewrite Hp1.
Qed.

(** ... while [CrawlNewVideos] goes on to the next page. *)
Lemma new_videos_empty_page w base n page allVideos log :
  2 <= page -> ctx_done w page = false -> empty_page w base page ->
  new_videos_loop w base (S n) page allVideos log
  = new_videos_loop w base n (page + 1) allVideos
      (log ++ [Fetched page (page_url base page)]).
Proof.
  intros Hp Hc (html & Hf & Hparse). simpl. rewrite Hc, Hf, Hparse.
  assert (Hp1 : (page =? 1) = false) by (apply Z.eqb_neq; lia).
  rewrite Hp1. simpl. now rewrite app_nil_r.
Qed.

Lemma before_page_stops w base q h :
  before_page w base q (requests h) -> stops_at_empty_page w base h.
Proof.
  intros [_ Hne] page html Hp Hin Hf Hparse. exfalso.
  apply (Hne page Hp Hin). now exists html.
Qed.

Lemma stops_last w base q log tail h :
  before_page w base q log ->
  requests h = log ++ Fetched q (page_url base q) :: tail ->
  (forall e, In e tail -> event_page e = q) ->
  stops_at_empty_page w base h.
Proof.
  intros [Hlt Hne] Hr Htail page html Hp Hin Hf Hparse Hnext.
  rewrite Hr in Hin, Hnext.
  assert (Hpq : page = q).
  { apply in_app_or in Hin as [Hin|[Hin|Hin]].
    - exfalso. apply (Hne _ Hp Hin). now exists html.
    - now injection Hin.
    - apply (Htail _ Hin). }
  subst page. apply in_app_or in Hnext as [H|[H|H]].
  - specialize (Hlt _ H). simpl in Hlt. lia.
  - injection H as H _. lia.
  - apply Htail in H. simpl in H. lia.
Qed.

Lemma before_page_next w base q log tail :
  before_page w base q log ->
  (2 <= q -> ~ empty_page w base q) ->
  (forall e, In e tail -> event_page e = q /\ is_rendered e = true) ->
  before_page w base (q + 1) ((log ++ [Fetched q (page_url base q)]) ++ tail).
Proof.
  intros [Hlt Hne] Hq Htail. split.
  - intros e He. apply in_app_or in He as [He|He].
    + apply in_app_or in He as [He|[<-|[]]]; [specialize (Hlt _ He); lia | simpl; lia].
    + destruct (Htail _ He). lia.
  - intros page Hp Hin. apply in_app_or in Hin as [Hin|Hin].
    + apply in_app_or in Hin as [Hin|[Hin|[]]]; [now apply Hne|].
      injection Hin as <- _. now apply Hq.
    + destruct (Htail _ Hin) as [_ Hr]. discriminate.
Qed.

Ltac not_empty :=
  let Hq := fresh in
  let html := fresh in
  let Hf := fresh in
  let Hparse := fresh in
  intros Hq (html & Hf & Hparse);
  repeat match goal with
         | H1 : fetchWithRetry ?w ?u = _, H2 : fetchWithRetry ?w ?u = _ |- _ =>
             rewrite H1 in H2; inversion H2; subst; clear H2
         | H1 : ParseVideoList ?w ?u = _, H2 : ParseVideoList ?w ?u = _ |- _ =>
             rewrite H1 in H2; inversion H2; subst; clear H2
         end;
  try discriminate; simpl in *; leb_lia.

Ltac stop_here :=
  first
    [ eapply stops_last with (tail := []);
      [eassumption | reflexivity | intros ? []]
    | eapply stops_last with (tail := [Rendered _ _]);
      [eassumption | simpl; rewrite <- app_assoc; reflexivity
      | intros ? [<-|[]]; reflexivity] ].

(** In the requests of [CrawlByKeyword], an empty page from 2 on is the
    last page fetched. *)
Lemma keyword_stops w base limit n q allVideos log :
  1 <= q -> before_page w base q log ->
  stops_at_empty_page w base (keyword_loop w base limit n q allVideos log).
Proof.
  revert q allVideos log.
  induction n as [|n IH]; intros q allVideos log Hq Hb; simpl;
    [now apply (before_page_stops w base q)|].
  destruct (ctx_done w q); [now apply (before_page_stops w base q)|].
  break_match; try stop_here; apply IH; try lia.
  all: first
    [ rewrite <- (app_nil_r (log ++ [Fetched q (page_url base q)]));
      apply before_page_next; [assumption | not_empty | intros ? []]
    | apply before_page_next;
      [assumption | not_empty | intros ? [<-|[]]; split; reflexivity] ].
Qed.

(** C8, as the code has it.  When the plain fetch of page 1 yields zero
    records, [CrawlNewVideos] and [CrawlByKeyword] call the rendering
    fallback exactly once, for the URL of page 1, and the records it yields
    become the result of page 1; no page from 2 on calls the fallback; in
    [CrawlByKeyword] an empty page from 2 on is the last page fetched; in
    [CrawlNewVideos] an empty page from 2 on adds nothing and the harvest
    goes on with the next page; [CrawlByActor] never calls the fallback. *)
Theorem fallback_first_page_only (w : World) :
  (forall pages html,
      1 <= pages -> ctx_done w 1 = false ->
      fetchWithRetry w (BaseURL +:+ newVideosPath) = Ok html ->
      ParseVideoList w html = Ok [] ->
      rendered (requests (CrawlNewVideos w pages))
      = [Rendered 1 (BaseURL +:+ newVideosPath)]
      /\ forall bv,
          crawlWithBrowser w (BaseURL +:+ newVideosPath) = Ok bv -> bv <> [] ->
          exists rest, found (CrawlNewVideos w pages) = bv ++ rest)
  /\ (forall keyword limit html,
        1 <= limit < 2 ^ 63 - 11 -> ctx_done w 1 = false ->
        fetchWithRetry w (BaseURL +:+ searchPath +:+ PathEscape w keyword) = Ok html ->
        ParseVideoList w html = Ok [] ->
        rendered (requests (CrawlByKeyword w keyword limit))
        = [Rendered 1 (BaseURL +:+ searchPath +:+ PathEscape w keyword)]
        /\ forall bv,
            crawlWithBrowser w (BaseURL +:+ searchPath +:+ PathEscape w keyword) = Ok bv ->
            bv <> [] ->
            exists rest,
              found (CrawlByKeyword w keyword limit)
              = take (Z.to_nat limit) (bv ++ rest))
  /\ (forall base n page allVideos log,
        2 <= page ->
        rendered (requests (new_videos_loop w base n page allVideos log)) = rendered log)
  /\ (forall base limit n page allVideos log,
        2 <= page ->
        rendered (requests (keyword_loop w base limit n page allVideos log))
        = rendered log)
  /\ (forall keyword limit,
        stops_at_empty_page w (BaseURL +:+ searchPath +:+ PathEscape w keyword)
          (CrawlByKeyword w keyword limit))
  /\ (forall base n page allVideos log,
        2 <= page -> ctx_done w page = false -> empty_page w base page ->
        new_videos_loop w base (S n) page allVideos log
        = new_videos_loop w base n (page + 1) allVideos
            (log ++ [Fetched page (page_url base page)]))
  /\ (forall actorName limit, rendered (requests (CrawlByActor w actorName limit)) = []).
Proof.
  split; [|split; [|split; [|split; [|split; [|split]]]]].
  - intros pages html Hp Hc Hf Hparse. unfold CrawlNewVideos.
    destruct (Z.to_nat pages) as [|n] eqn:E; [lia|].
    now apply (new_videos_first_page w _ n html).
  - intros keyword limit html Hl Hc Hf Hparse. unfold CrawlByKeyword.
    destruct (maxPages_pos limit Hl) as [n ->].
    apply (keyword_first_page w _ limit n html); try assumption. lia.
  - intros. now apply new_videos_no_render.
  - intros. now apply keyword_no_render.
  - intros keyword limit. apply keyword_stops; [lia|]. split.
    + intros e [].
    + intros page _ [].
  - intros. now apply new_videos_empty_page.
  - intros. apply actor_no_render.
Qed.

Lemma fallback_first_page_only_witness :
  rendered (requests (CrawlNewVideos world_rendered 2))
  = [Rendered 1 (BaseURL +:+ newVideosPath)]
  /\ rendered (requests (CrawlByKeyword world_rendered "kw" 20))
     = [Rendered 1 (BaseURL +:+ searchPath +:+ "kw")]
  /\ new_videos_loop world_rendered (BaseURL +:+ newVideosPath) 2 2 [] []
     = new_videos_loop world_rendered (BaseURL +:+ newVideosPath) 1 3 []
         [Fetched 2 (page_url (BaseURL +:+ newVideosPath) 2)].
Proof.
  destruct (fallback_first_page_only world_rendered) as (Hnew & Hkw & _ & _ & _ & Hgo & _).
  split; [|split].
  - apply (Hnew 2 "shell"); [lia | reflexivity | reflexivity | reflexivity].
  - apply (Hkw "kw" 20 "shell"); [lia | reflexivity | reflexivity | reflexivity].
  - apply (Hgo (BaseURL +:+ newVideosPath) 1%nat 2 [] []); [lia | reflexivity|].
    exists "shell". split; reflexivity.
Defined.

(** C8 as stated fails for [CrawlNewVideos]: with three pages asked for
    and page 2 empty, page 3 is fetched all the same, and its record is
    returned. *)
Lemma CrawlNewVideos_goes_past_empty_page :
  ~ stops_at_empty_page world_gap (BaseURL +:+ newVideosPath)
      (CrawlNewVideos world_gap 3).
Proof.
  intros H.
  apply (H 2 "https://missav.ai/new?page=2"); try reflexivity; try lia.
  - vm_compute. tauto.
  - vm_compute. tauto.
Qed.

Example CrawlNewVideos_gap :
  let h := CrawlNewVideos world_gap 3 in
  map Code (found h) = ["AAA-1"; "CCC-3"]
  /\ requests h = [Fetched 1 "https://missav.ai/new";
                   Fetched 2 "https://missav.ai/new?page=2";
                   Fetched 3 "https://missav.ai/new?page=3"].
Proof. vm_compute. split; reflexivity. Qed.

Example CrawlByKeyword_rendered :
  let h := CrawlByKeyword world_rendered "kw" 20 in
  map Code (found h) = ["AAA-1"; "BBB-2"]
  /\ requests h = [Fetched 1 "https://missav.ai/search/kw";
                   Rendered 1 "https://missav.ai/search/kw";
                   Fetched 2 "https://missav.ai/search/kw?page=2"].
Proof. vm_compute. split; reflexivity. Qed.

End HarvestFacts.

(* ===================================================================== *)
(** * Scheduler: mutual exclusion of harvest cycles *)
(* ===================================================================== *)

Module SchedulerFacts.
Import Scheduler.
Local Open Scope nat_scope.

(** Moving one trigger changes a count by what that trigger contributes. *)
Lemma count_move p (ths : list (Trigger * Pc)) i t pc t' pc' :
  ths !! i = Some (t, pc) ->
  count p (<[i := (t', pc')]> ths) + weight p pc = count p ths + weight p pc'.
Proof.
  revert i. induction ths as [|[t0 pc0] ths IH]; intros [|i] H; simpl in *;
    try discriminate.
  - injection H as -> ->. unfold weight. lia.
  - specialize (IH i H). lia.
Qed.

Lemma count_le p (ths : list (Trigger * Pc)) : count p ths <= length ths.
Proof. induction ths as [|[t pc] ths IH]; simpl; [lia|]. destruct (p pc); lia. Qed.

(** The classes of program points, as sums over the points. *)
Lemma count_holds_lock ths :
  count holds_lock ths
  = count (is_pc AtStoreTrue) ths + count (is_pc AtRunOnce) ths
    + count (is_pc InRunOnce) ths + count (is_pc AtStoreFalse) ths
    + count (is_pc AtUnlock) ths.
Proof. induction ths as [|[t [| | | | | |[]]] ths IH]; simpl; lia. Qed.

Lemma count_started_cycle ths :
  count started_cycle ths
  = count (is_pc InRunOnce) ths + count (is_pc AtStoreFalse) ths
    + count (is_pc AtUnlock) ths + count (is_pc (Returned true)) ths.
Proof. induction ths as [|[t [| | | | | |[]]] ths IH]; simpl; lia. Qed.

Lemma count_in_cycle ths : count in_cycle ths = count (is_pc InRunOnce) ths.
Proof. induction ths as [|[t [| | | | | |[]]] ths IH]; simpl; lia. Qed.

Lemma count_accepted ths : count accepted ths = count (is_pc (Returned true)) ths.
Proof. induction ths as [|[t [| | | | | |[]]] ths IH]; simpl; lia. Qed.

Lemma count_skipped ths : count skipped ths = count (is_pc (Returned false)) ths.
Proof. induction ths as [|[t [| | | | | |[]]] ths IH]; simpl; lia. Qed.

Lemma count_has_returned ths :
  count has_returned ths
  = count (is_pc (Returned true)) ths + count (is_pc (Returned false)) ths.
Proof. induction ths as [|[t [| | | | | |[]]] ths IH]; simpl; lia. Qed.

Lemma count_total ths :
  length ths
  = count (is_pc AtTryLock) ths + count holds_lock ths + count has_returned ths.
Proof. induction ths as [|[t [| | | | | |[]]] ths IH]; simpl; lia. Qed.

Ltac by_points :=
  rewrite ?count_holds_lock, ?count_started_cycle, ?count_in_cycle,
    ?count_accepted, ?count_skipped, ?count_has_returned in *.

Lemma init_invariant triggers : invariant (init triggers).
Proof.
  assert (H : forall p, p AtTryLock = false ->
              count p (map (fun t => (t, AtTryLock)) triggers) = 0).
  { intros p Hp. induction triggers as [|t ts IH]; simpl; [reflexivity|].
    now rewrite Hp, IH. }
  split; simpl; rewrite ?H by reflexivity; try reflexivity; lia.
Qed.

Ltac moved Hm pc' :=
  pose proof (Hm (is_pc AtTryLock) pc');
  pose proof (Hm (is_pc AtStoreTrue) pc');
  pose proof (Hm (is_pc AtRunOnce) pc');
  pose proof (Hm (is_pc InRunOnce) pc');
  pose proof (Hm (is_pc AtStoreFalse) pc');
  pose proof (Hm (is_pc AtUnlock) pc');
  pose proof (Hm (is_pc (Returned true)) pc');
  pose proof (Hm (is_pc (Returned false)) pc');
  clear Hm; unfold weight, move in *; simpl in *.

Lemma step_invariant i s : invariant s -> invariant (step i s).
Proof.
  intros [Hlock Hact Hcyc Hmax Hskip]. unfold step.
  destruct (threads s !! i) as [[t pc]|] eqn:E; [|now split].
  pose proof (fun p pc' => count_move p (threads s) i t pc t pc' E) as Hm.
  by_points.
  destruct pc; try (now split; by_points).
  - destruct (mu s) eqn:Emu.
    + moved Hm (Returned false). split; simpl; unfold move; by_points; rewrite ?Emu; lia.
    + moved Hm AtStoreTrue. split; simpl; unfold move; by_points; lia.
  - moved Hm AtRunOnce. split; simpl; unfold move; by_points; lia.
  - moved Hm InRunOnce. destruct (mu s); split; simpl; unfold move; by_points; lia.
  - moved Hm AtStoreFalse. destruct (mu s); split; simpl; unfold move; by_points; lia.
  - moved Hm AtUnlock. split; simpl; unfold move; by_points; lia.
  - moved Hm (Returned true). destruct (mu s); split; simpl; unfold move; by_points; lia.
Qed.

Lemma run_invariant schedule s : invariant s -> invariant (run schedule s).
Proof.
  revert s. induction schedule as [|i schedule IH]; intros s H; simpl; [assumption|].
  now apply IH, step_invariant.
Qed.

Lemma step_length i s : length (threads (step i s)) = length (threads s).
Proof.
  unfold step. destruct (threads s !! i) as [[t pc]|]; [|reflexivity].
  destruct pc; try destruct (mu s); simpl; unfold move;
    rewrite ?length_insert; reflexivity.
Qed.

Lemma run_length schedule s : length (threads (run schedule s)) = length (threads s).
Proof.
  revert s. induction schedule as [|i schedule IH]; intros s; simpl; [reflexivity|].
  now rewrite IH, step_length.
Qed.

(** C5, as the code has it.  Whatever the triggers (timer firings and
    [TryRun] calls) and however their actions interleave: at most one
    trigger holds the lock and at most one cycle runs at any instant; a
    trigger that finds the lock held returns in that very step and changes
    nothing else; once all triggers have returned, the cycles executed are
    as many as the triggers that were accepted, and at least one was. *)
Theorem single_flight (triggers : list Trigger) (schedule : list nat) :
  let s := run schedule (init triggers) in
  count holds_lock (threads s) <= 1
  /\ active s <= 1
  /\ max_active s <= 1
  /\ (forall i t,
        threads s !! i = Some (t, AtTryLock) -> mu s = true ->
        step i s = {| mu := mu s; running := running s; cycles := cycles s;
                      active := active s; max_active := max_active s;
                      threads := <[i := (t, Returned false)]> (threads s) |})
  /\ (all_returned s -> cycles s = count accepted (threads s))
  /\ (all_returned s -> triggers <> [] -> 1 <= count accepted (threads s)).
Proof.
  intros s.
  pose proof (run_invariant schedule _ (init_invariant triggers)) as Hinv.
  fold s in Hinv. destruct Hinv as [Hlock Hact Hcyc Hmax Hskip].
  pose proof (count_total (threads s)) as Htot.
  pose proof (count_holds_lock (threads s)) as Hh.
  pose proof (count_started_cycle (threads s)) as Hs.
  pose proof (count_in_cycle (threads s)) as Hi.
  pose proof (count_accepted (threads s)) as Ha.
  pose proof (count_skipped (threads s)) as Hk.
  pose proof (count_has_returned (threads s)) as Hr.
  assert (Hlen : length (threads s) = length triggers).
  { unfold s. rewrite run_length. simpl. apply length_map. }
  assert (Hheld : count holds_lock (threads s) <= 1) by (rewrite Hlock; destruct (mu s); lia).
  split; [exact Hheld|]. split; [lia|]. split; [exact Hmax|]. split; [|split].
  - intros i t Hti Hmu. unfold step. now rewrite Hti, Hmu.
  - unfold all_returned. intros Hall. lia.
  - unfold all_returned. intros Hall Hne.
    assert (0 < length triggers) by (destruct triggers; [congruence | simpl; lia]).
    lia.
Qed.

Lemma single_flight_witness :
  let s := run [0; 1; 2; 0; 0; 0; 0; 0] (init [Timer; Manual; Manual]) in
  all_returned s /\ cycles s = count accepted (threads s)
  /\ 1 <= count accepted (threads s)
  /\ threads s = [(Timer, Returned true); (Manual, Returned false);
                  (Manual, Returned false)].
Proof.
  intros s.
  assert (Hall : all_returned s) by reflexivity.
  destruct (single_flight [Timer; Manual; Manual] [0; 1; 2; 0; 0; 0; 0; 0])
    as (_ & _ & _ & _ & Hcyc & Hone).
  split; [exact Hall|]. split; [exact (Hcyc Hall)|].
  split; [apply (Hone Hall); discriminate | reflexivity].
Defined.

(** C5 as stated fails: of two [TryRun] calls issued together, the second
    may reach its [TryLock] only after the first has unlocked; then both are
    accepted and two cycles are executed, one after the other. *)
Lemma both_triggers_accepted :
  ~ exactly_one_accepted
      (run [0; 0; 0; 0; 0; 0; 1; 1; 1; 1; 1; 1] (init [Manual; Manual])).
Proof.
  intros H.
  assert (Hall : all_returned
                   (run [0; 0; 0; 0; 0; 0; 1; 1; 1; 1; 1; 1] (init [Manual; Manual])))
    by (vm_compute; reflexivity).
  assert (Htwo : count accepted
                   (threads (run [0; 0; 0; 0; 0; 0; 1; 1; 1; 1; 1; 1]
                               (init [Manual; Manual]))) = 2)
    by (vm_compute; reflexivity).
  specialize (H Hall). rewrite Htwo in H. discriminate.
Qed.

Example two_cycles_in_turn :
  let s := run [0; 0; 0; 0; 0; 0; 1; 1; 1; 1; 1; 1] (init [Manual; Manual]) in
  threads s = [(Manual, Returned true); (Manual, Returned true)]
  /\ cycles s = 2 /\ max_active s = 1 /\ mu s = false /\ running s = false.
Proof. repeat split. Qed.

End SchedulerFacts.

(* ===================================================================== *)
(** * Codes: validity, and the way back from a detail URL *)
(* ===================================================================== *)

Module CrawlerHelpersFacts.
Import GoStrings GoStringsFacts Crawler CrawlerFacts CrawlerHelpers.

Example IsValidCode_samples :
  IsValidCode "ABC-123" = true /\ IsValidCode "ABCD-12345" = true
  /\ IsValidCode "abc-123" = false /\ IsValidCode "AbC-123" = false
  /\ IsValidCode "ABC123" = false /\ IsValidCode "" = false
  /\ IsValidCode "ABC-" = false /\ IsValidCode "-123" = false
  /\ IsValidCode "ABC-123 " = false.
Proof. repeat split. Qed.

Example extractCodeFromURL_samples :
  extractCodeFromURL "https://missav.ai/abc-123" = "ABC-123"
  /\ extractCodeFromURL "https://missav.ai/abc-123?page=1" = "ABC-123"
  /\ extractCodeFromURL "https://missav.ai/abc-123#section" = "ABC-123"
  /\ extractCodeFromURL "https://missav.ai/abc-123/" = "ABC-123"
  /\ extractCodeFromURL "" = ""
  /\ extractCodeFromURL "https://missav.ai/" = "MISSAV.AI".
Proof. repeat split. Qed.

(** ** Bytes *)

Lemma letter_upper c : is_letter c = true -> is_upper (upper_byte c) = true.
Proof. by_bytes c. Qed.

Lemma upper_letter c : is_upper c = true -> is_letter c = true.
Proof. by_bytes c. Qed.

Lemma upper_fixed c : is_upper c = true -> upper_byte c = c.
Proof. by_bytes c. Qed.

Lemma digit_fixed c : is_digit c = true -> upper_byte c = c.
Proof. by_bytes c. Qed.

Lemma upper_lower c : is_upper c = true -> upper_byte (lower_byte c) = c.
Proof. by_bytes c. Qed.

Lemma upper_lower_letter c : is_upper c = true -> is_letter (lower_byte c) = true.
Proof. by_bytes c. Qed.

Lemma digit_lower c : is_digit c = true -> lower_byte c = c.
Proof. by_bytes c. Qed.

Lemma digit_no_letter c : is_digit c = true -> is_letter c = false.
Proof. by_bytes c. Qed.

Lemma letter_plain c :
  is_letter c = true ->
  other_than "/" c = true /\ other_than "?" c = true /\ other_than "#" c = true.
Proof. by_bytes c; repeat split. Qed.

Lemma digit_plain c :
  is_digit c = true ->
  other_than "/" c = true /\ other_than "?" c = true /\ other_than "#" c = true.
Proof. by_bytes c; repeat split. Qed.

Lemma all_bytes_impl (p q : ascii -> bool) s :
  (forall c, p c = true -> q c = true) -> all_bytes p s = true -> all_bytes q s = true.
Proof.
  intros Hpq. induction s as [|c s IH]; simpl; [easy|].
  rewrite !andb_true_iff. intros [H1 H2]. split; auto.
Qed.

Lemma all_bytes_append p a b :
  all_bytes p (a +:+ b) = (all_bytes p a && all_bytes p b)%bool.
Proof. induction a as [|c a IH]; simpl; [easy|]. now rewrite IH, andb_assoc. Qed.

Lemma all_bytes_map p f s :
  all_bytes p (map_bytes f s) = all_bytes (fun c => p (f c)) s.
Proof. induction s as [|c s IH]; simpl; [easy|]. now rewrite IH. Qed.

Lemma map_bytes_fixed f p s :
  (forall c, p c = true -> f c = c) -> all_bytes p s = true -> map_bytes f s = s.
Proof.
  intros Hf. induction s as [|c s IH]; simpl; [easy|].
  rewrite andb_true_iff. intros [H1 H2]. now rewrite Hf, IH.
Qed.

Lemma map_bytes_compose_fixed f g p s :
  (forall c, p c = true -> f (g c) = c) -> all_bytes p s = true ->
  map_bytes f (map_bytes g s) = s.
Proof.
  intros Hf. induction s as [|c s IH]; simpl; [easy|].
  rewrite andb_true_iff. intros [H1 H2]. now rewrite Hf, IH.
Qed.

(** ** The shape [IsValidCode] accepts *)

(** Upper-case letters, a dash, digits, and nothing else. *)
Lemma IsValidCode_shape code :
  IsValidCode code = true <->
  exists letters digits,
    code = letters +:+ String "-"%char digits
    /\ letters <> "" /\ digits <> ""
    /\ all_bytes is_upper letters = true
    /\ all_bytes is_digit digits = true.
Proof.
  unfold IsValidCode. split.
  - destruct (String.eqb code ""); [discriminate|].
    destruct (span is_upper code) as [letters rest] eqn:E1.
    destruct letters as [|l L]; [discriminate|].
    destruct rest as [|d rest']; [discriminate|].
    destruct (Ascii.eqb_spec d "-"); [subst d|discriminate].
    destruct (span is_digit rest') as [digits tail] eqn:E2.
    destruct digits as [|g G]; [discriminate|].
    destruct tail; [|discriminate]. intros _.
    exists (String l L), (String g G).
    pose proof (span_eq _ _ _ _ E1) as H1. pose proof (span_eq _ _ _ _ E2) as H2.
    rewrite append_nil_r in H2. subst rest'.
    repeat split; try easy.
    + eapply span_all; eauto.
    + eapply span_all; eauto.
  - intros (letters & digits & -> & Hl & Hd & Hu & Hg).
    destruct letters as [|l L]; [easy|]. destruct digits as [|g G]; [easy|].
    assert (E0 : String.eqb (String l L +:+ String "-" (String g G)) "" = false) by easy.
    rewrite E0.
    rewrite (span_append is_upper (String l L) (String "-" (String g G))); [|easy|easy].
    simpl Ascii.eqb. cbv iota.
    replace (String g G) with (String g G +:+ "") at 1 by apply append_nil_r.
    rewrite (span_append is_digit (String g G) ""); easy.
Qed.

(** A code that has the shape of the pattern, once upper-cased, is valid. *)
Lemma code_shape_valid m : code_shape m -> IsValidCode (ToUpper m) = true.
Proof.
  intros (letters & digits & -> & Hl & Hd & Hal & Had).
  apply IsValidCode_shape. exists (ToUpper letters), digits.
  unfold ToUpper in *. rewrite map_bytes_append. simpl.
  repeat split.
  - f_equal. f_equal. eapply map_bytes_fixed; [apply digit_fixed|easy].
  - destruct letters; easy.
  - easy.
  - rewrite all_bytes_map. eapply all_bytes_impl; [|exact Hal]. apply letter_upper.
  - easy.
Qed.

Lemma valid_code_shape code : IsValidCode code = true -> code_shape code.
Proof.
  rewrite IsValidCode_shape. intros (letters & digits & -> & Hl & Hd & Hu & Hg).
  exists letters, digits. repeat split; try easy.
  eapply all_bytes_impl; [|exact Hu]. apply upper_letter.
Qed.

Lemma valid_upper code : IsValidCode code = true -> ToUpper code = code.
Proof.
  rewrite IsValidCode_shape. intros (letters & digits & -> & Hl & Hd & Hu & Hg).
  unfold ToUpper. rewrite map_bytes_append. simpl. f_equal.
  - eapply map_bytes_fixed; [apply upper_fixed|easy].
  - f_equal. eapply map_bytes_fixed; [apply digit_fixed|easy].
Qed.

Lemma valid_upper_lower code : IsValidCode code = true -> ToUpper (ToLower code) = code.
Proof.
  rewrite IsValidCode_shape. intros (letters & digits & -> & Hl & Hd & Hu & Hg).
  unfold ToUpper, ToLower. rewrite !map_bytes_append. simpl. f_equal.
  - eapply map_bytes_compose_fixed; [apply upper_lower|easy].
  - f_equal. eapply map_bytes_compose_fixed; [|exact Hg].
    intros c Hc. now rewrite (digit_lower c Hc), digit_fixed.
Qed.

(** A text of the shape of the pattern has ASCII bytes only. *)
Lemma letter_ascii c : is_letter c = true -> is_ascii c = true.
Proof. by_bytes c. Qed.

Lemma digit_ascii c : is_digit c = true -> is_ascii c = true.
Proof. by_bytes c. Qed.

Lemma shape_ascii m : code_shape m -> ascii_text m = true.
Proof.
  intros (letters & digits & -> & _ & _ & Hal & Had).
  unfold ascii_text. rewrite all_bytes_append. cbn [all_bytes].
  rewrite (all_bytes_impl _ _ _ letter_ascii Hal), (all_bytes_impl _ _ _ digit_ascii Had).
  reflexivity.
Qed.

(** The pattern matches the whole of a text of its shape. *)
Lemma ascii_pattern_at_whole m : code_shape m -> ascii_pattern_at m = Some m.
Proof.
  intros (letters & digits & -> & Hl & Hd & Hal & Had).
  destruct letters as [|l L]; [easy|]. destruct digits as [|g G]; [easy|].
  unfold ascii_pattern_at.
  rewrite (span_append is_letter (String l L) (String "-" (String g G))); [|easy|easy].
  simpl Ascii.eqb. cbv iota.
  replace (String g G) with (String g G +:+ "") at 1 by apply append_nil_r.
  rewrite (span_append is_digit (String g G) ""); easy.
Qed.

Lemma codePattern_find_whole m : code_shape m -> codePattern_find m = Some m.
Proof.
  intros H. rewrite (codePattern_find_ascii m (shape_ascii m H)).
  pose proof (ascii_pattern_at_whole m H) as E. destruct m as [|c m].
  - destruct H as (l & d & Hm & Hl & _). destruct l; [easy|discriminate].
  - now rewrite ascii_pattern_find_cons, E.
Qed.

Lemma ToLower_shape code : IsValidCode code = true -> code_shape (ToLower code).
Proof.
  rewrite IsValidCode_shape. intros (letters & digits & -> & Hl & Hd & Hu & Hg).
  exists (ToLower letters), digits. unfold ToLower. rewrite map_bytes_append. simpl.
  repeat split.
  - f_equal. f_equal. eapply map_bytes_fixed; [apply digit_lower|easy].
  - destruct letters; easy.
  - easy.
  - rewrite all_bytes_map. eapply all_bytes_impl; [|exact Hu]. apply upper_lower_letter.
  - easy.
Qed.

(** X1: from a text of ASCII bytes, whatever [ExtractCode] returns is
    empty or a valid code. *)
Theorem ExtractCode_valid (text : string) :
  ascii_text text = true ->
  ExtractCode text = "" \/ IsValidCode (ExtractCode text) = true.
Proof.
  intros Ha. unfold ExtractCode. destruct (String.eqb text ""); [now left|].
  rewrite (codePattern_find_ascii text Ha).
  destruct (ascii_pattern_find text) as [m|] eqn:E; [right|now left].
  apply ascii_pattern_find_some in E. destruct E as (pre & post & _ & Hm & _).
  rewrite NormalizeCode_eq. now apply code_shape_valid.
Qed.

Lemma ExtractCode_valid_witness :
  ascii_text "new: abc-123 and de-4" = true
  /\ IsValidCode (ExtractCode "new: abc-123 and de-4") = true.
Proof.
  split; [reflexivity|].
  destruct (ExtractCode_valid "new: abc-123 and de-4" eq_refl) as [H|H];
    [discriminate H | exact H].
Defined.

(** A valid code is a fixed point of [NormalizeCode] and of
    [ExtractCode]. *)
Lemma IsValidCode_fixed (code : string) :
  IsValidCode code = true ->
  NormalizeCode code = code /\ ExtractCode code = code.
Proof.
  intros H. pose proof (valid_upper code H) as Hup.
  split; [now rewrite NormalizeCode_eq|].
  unfold ExtractCode.
  destruct (String.eqb_spec code ""); [subst; discriminate|].
  rewrite (codePattern_find_whole code (valid_code_shape code H)).
  now rewrite NormalizeCode_eq.
Qed.

Lemma IsValidCode_fixed_witness :
  IsValidCode "SSIS-001" = true
  /\ NormalizeCode "SSIS-001" = "SSIS-001" /\ ExtractCode "SSIS-001" = "SSIS-001".
Proof. split; [reflexivity|]. apply (IsValidCode_fixed "SSIS-001"). reflexivity. Defined.

(** ** Cutting, trimming and splitting a URL *)

Lemma eqb_sym (a b : ascii) : Ascii.eqb a b = Ascii.eqb b a.
Proof.
  destruct (Ascii.eqb_spec a b) as [->|H]; [now rewrite Ascii.eqb_refl|].
  symmetry. apply Ascii.eqb_neq. congruence.
Qed.

(** [strings.Index] for a one-byte separator finds where the longest prefix
    without that byte ends. *)
Lemma Index_char c s :
  (Index s (String c "") = -1 /\ fst (span (other_than c) s) = s)
  \/ (0 <= Index s (String c "")
      /\ take_bytes (Z.to_nat (Index s (String c ""))) s = fst (span (other_than c) s)).
Proof.
  induction s as [|b s IH].
  - left. easy.
  - cbn [Index HasPrefix span]. unfold other_than at 1 3. rewrite (eqb_sym b c).
    destruct (Ascii.eqb c b); cbn [andb negb].
    + right. easy.
    + destruct (span (other_than c) s) as [a r] eqn:E. cbn [fst] in *.
      destruct IH as [[Hi Ha]|[Hi Ha]].
      * left. rewrite Hi. cbn. now rewrite Ha.
      * right. destruct (Z.ltb_spec (Index s (String c "")) 0); [lia|].
        split; [lia|].
        replace (Z.to_nat (Index s (String c "") + 1))
          with (S (Z.to_nat (Index s (String c "")))) by lia.
        cbn. now rewrite Ha.
Qed.

Lemma cut_at_span c s : cut_at s (String c "") = fst (span (other_than c) s).
Proof.
  unfold cut_at. destruct (Index_char c s) as [[Hi Ha]|[Hi Ha]].
  - now rewrite Hi, Ha.
  - destruct (Z.eqb_spec (Index s (String c "")) (-1)); [lia|easy].
Qed.

Lemma span_app_all p a b :
  all_bytes p a = true ->
  span p (a +:+ b) = (a +:+ fst (span p b), snd (span p b)).
Proof.
  induction a as [|c a IH]; simpl.
  - intros _. now destruct (span p b).
  - rewrite andb_true_iff. intros [Hc Ha]. rewrite Hc, (IH Ha). easy.
Qed.

Lemma cut_free c a : free_of c a = true -> cut_at a (String c "") = a.
Proof.
  intros H. rewrite cut_at_span.
  rewrite <- (append_nil_r a) at 1. rewrite (span_app_all _ _ _ H). simpl.
  apply append_nil_r.
Qed.

Lemma cut_cons c a b :
  free_of c a = true -> cut_at (a +:+ String c b) (String c "") = a.
Proof.
  intros H. rewrite cut_at_span, (span_app_all _ _ _ H). simpl.
  unfold other_than at 1. rewrite Ascii.eqb_refl. simpl. apply append_nil_r.
Qed.

Lemma cut_pass c a b :
  free_of c a = true ->
  cut_at (a +:+ b) (String c "") = a +:+ cut_at b (String c "").
Proof. intros H. now rewrite !cut_at_span, (span_app_all _ _ _ H). Qed.

Lemma free_of_append c a b :
  free_of c (a +:+ b) = (free_of c a && free_of c b)%bool.
Proof. apply all_bytes_append. Qed.

Lemma drop_bytes_app a b : drop_bytes (String.length a) (a +:+ b) = b.
Proof. induction a as [|c a IH]; simpl; [now destruct b|easy]. Qed.

Lemma take_bytes_app a b : take_bytes (String.length a) (a +:+ b) = a.
Proof. induction a as [|c a IH]; simpl; [now destruct b|now rewrite IH]. Qed.

Lemma trim_slash x : TrimSuffix (x +:+ "/") "/" = x.
Proof.
  unfold TrimSuffix, HasSuffix. rewrite length_append. simpl String.length.
  replace (String.length x + 1 - 1)%nat with (String.length x) by lia.
  rewrite drop_bytes_app, take_bytes_app.
  replace (Nat.leb 1 (String.length x + 1)) with true; [easy|].
  symmetry. apply Nat.leb_le. lia.
Qed.

Lemma trim_none w d :
  d <> "/"%char -> TrimSuffix (w +:+ String d "") "/" = w +:+ String d "".
Proof.
  intros Hd. unfold TrimSuffix, HasSuffix. rewrite length_append. simpl String.length.
  replace (String.length w + 1 - 1)%nat with (String.length w) by lia.
  rewrite drop_bytes_app.
  replace (String.eqb (String d "") "/") with false; [now rewrite andb_false_r|].
  symmetry. apply String.eqb_neq. congruence.
Qed.

Lemma snoc_free c seg :
  seg <> "" -> free_of c seg = true ->
  exists y d, seg = y +:+ String d "" /\ d <> c.
Proof.
  induction seg as [|b seg IH]; [easy|]. intros _. unfold free_of. simpl.
  rewrite andb_true_iff. intros [Hb Hs]. destruct seg as [|b' seg'].
  - exists "", b. split; [easy|]. unfold other_than in Hb.
    intros ->. now rewrite Ascii.eqb_refl in Hb.
  - destruct IH as (y & d & Hy & Hd); [easy|exact Hs|].
    exists (String b y), d. simpl. now rewrite <- Hy.
Qed.

Lemma split_free seg : free_of "/" seg = true -> split_from "/" 0 seg = [seg].
Proof.
  induction seg as [|b seg IH]; [easy|]. unfold free_of. cbn [all_bytes].
  rewrite andb_true_iff. intros [Hb Hs]. cbn [split_from HasPrefix].
  unfold other_than in Hb. rewrite (eqb_sym "/" b).
  destruct (Ascii.eqb b "/"); [discriminate|]. cbn [andb].
  now rewrite (IH Hs).
Qed.

(** The last part of a split is what follows the last separator. *)
Lemma split_last a seg :
  free_of "/" seg = true ->
  exists p ps, split_from "/" 0 (a +:+ String "/" seg) = p :: (ps ++ [seg]).
Proof.
  intros Hs. induction a as [|b a (p & ps & IH)].
  - exists "", []. cbn. now rewrite (split_free seg Hs).
  - cbn [String.append split_from HasPrefix]. destruct (Ascii.eqb "/" b); cbn [andb].
    + cbn. exists "", (p :: ps). now rewrite IH.
    + rewrite IH. now exists (String b p), ps.
Qed.

Lemma ignorable_cases tail :
  ignorable tail = true ->
  tail = "" \/ tail = "/"
  \/ (exists q, tail = String "?" q) \/ (exists f, tail = String "#" f)
  \/ (exists q, tail = String "/" (String "?" q))
  \/ (exists f, tail = String "/" (String "#" f)).
Proof.
  unfold ignorable. rewrite !orb_true_iff, !String.eqb_eq, !HasPrefix_spec.
  intros [[[[[H|H]|[r H]]|[r H]]|[r H]]|[r H]]; subst; eauto 10.
Qed.

(** Once the query and the fragment are cut and the trailing slash is
    trimmed, what is left is the URL up to its last segment. *)
Lemma url_cut x tail :
  free_of "?" x = true -> free_of "#" x = true -> TrimSuffix x "/" = x ->
  ignorable tail = true ->
  TrimSuffix (cut_at (cut_at (x +:+ tail) "?") "#") "/" = x.
Proof.
  intros Hxq Hxf Hplain Ht.
  assert (Hxsq : free_of "?" (x +:+ "/") = true) by (now rewrite free_of_append, Hxq).
  assert (Hxsf : free_of "#" (x +:+ "/") = true) by (now rewrite free_of_append, Hxf).
  destruct (ignorable_cases tail Ht)
    as [->|[->|[[q ->]|[[f ->]|[[q ->]|[f ->]]]]]].
  - rewrite append_nil_r, (cut_free _ _ Hxq), (cut_free _ _ Hxf). exact Hplain.
  - rewrite (cut_free _ _ Hxsq), (cut_free _ _ Hxsf). apply trim_slash.
  - rewrite (cut_cons _ _ _ Hxq), (cut_free _ _ Hxf). exact Hplain.
  - rewrite (cut_pass _ _ _ Hxq). rewrite (cut_at_span "?" (String "#" f)). cbn [span].
    unfold other_than at 1. cbn [Ascii.eqb Bool.eqb andb negb].
    destruct (span (other_than "?") f) as [f1 f2]. cbn [fst].
    rewrite (cut_cons _ _ _ Hxf). exact Hplain.
  - change (x +:+ String "/" (String "?" q)) with (x +:+ ("/" +:+ String "?" q)).
    rewrite <- append_assoc, (cut_cons _ _ _ Hxsq), (cut_free _ _ Hxsf).
    apply trim_slash.
  - change (x +:+ String "/" (String "#" f)) with (x +:+ ("/" +:+ String "#" f)).
    rewrite <- append_assoc, (cut_pass _ _ _ Hxsq).
    rewrite (cut_at_span "?" (String "#" f)). cbn [span].
    unfold other_than at 1. cbn [Ascii.eqb Bool.eqb andb negb].
    destruct (span (other_than "?") f) as [f1 f2]. cbn [fst].
    rewrite (cut_cons _ _ _ Hxsf). apply trim_slash.
Qed.

Lemma segment_plain base seg :
  seg <> "" -> free_of "/" seg = true ->
  TrimSuffix (base +:+ String "/" seg) "/" = base +:+ String "/" seg.
Proof.
  intros Hne Hs. destruct (snoc_free "/" seg Hne Hs) as (y & d & -> & Hd).
  change (String "/" (y +:+ String d "")) with (String "/" y +:+ String d "").
  rewrite <- append_assoc. now apply trim_none.
Qed.

Lemma segment_free c base seg :
  c <> "/"%char -> free_of c base = true -> free_of c seg = true ->
  free_of c (base +:+ String "/" seg) = true.
Proof.
  intros Hc Hb Hs. rewrite free_of_append, Hb. unfold free_of in *. cbn [all_bytes andb].
  rewrite Hs. unfold other_than. rewrite (eqb_sym "/" c).
  now destruct (Ascii.eqb_spec c "/").
Qed.

(** The last part of the split, normalised. *)
Lemma segment_last base seg :
  seg <> "" -> free_of "/" seg = true ->
  List.last (Split (base +:+ String "/" seg) "/") "" = seg
  /\ 0 < Z.of_nat (length (Split (base +:+ String "/" seg) "/")).
Proof.
  intros Hne Hs. unfold Split. destruct (split_last base seg Hs) as (p & ps & ->).
  split; [now rewrite app_comm_cons, last_last|]. cbn [length]. lia.
Qed.

(** X2: the identifier [extractCodeFromURL] returns is the last path segment
    in upper case, whatever query, fragment or trailing slash follows it. *)
Theorem extractCodeFromURL_last_segment (base seg tail : string) :
  free_of "?" base = true -> free_of "#" base = true ->
  seg <> "" ->
  free_of "/" seg = true -> free_of "?" seg = true -> free_of "#" seg = true ->
  ignorable tail = true ->
  extractCodeFromURL (base +:+ "/" +:+ seg +:+ tail) = ToUpper seg.
Proof.
  intros Hbq Hbf Hne Hs Hq Hf Ht. cbn [String.append].
  replace (base +:+ String "/" (seg +:+ tail))
    with ((base +:+ String "/" seg) +:+ tail) by (now rewrite append_assoc).
  unfold extractCodeFromURL.
  replace (String.eqb ((base +:+ String "/" seg) +:+ tail) "") with false
    by (now destruct base).
  rewrite url_cut; try easy; try (now apply segment_free); [|now apply segment_plain].
  destruct (segment_last base seg Hne Hs) as [-> Hlen].
  destruct (Z.ltb_spec 0 (Z.of_nat (length (Split (base +:+ String "/" seg) "/"))));
    [|lia].
  destruct (String.eqb_spec seg ""); [easy|]. apply NormalizeCode_eq.
Qed.

Lemma extractCodeFromURL_last_segment_witness :
  extractCodeFromURL ("https://missav.ai/dm18/cn" +:+ "/" +:+ "ssis-001" +:+ "/?page=2#top")
  = "SSIS-001".
Proof.
  apply (extractCodeFromURL_last_segment "https://missav.ai/dm18/cn" "ssis-001" "/?page=2#top");
    solve [reflexivity | discriminate].
Defined.

(** ** From a code to its detail URL and back *)

(** No offset inside the site's address is the start of a match, so the
    search for a code in a detail URL begins at its path. *)
Lemma codePattern_find_site s :
  codePattern_find (HTTPCrawler.BaseURL +:+ "/" +:+ s) = codePattern_find s.
Proof. reflexivity. Qed.

Lemma valid_nonempty code : IsValidCode code = true -> code <> "".
Proof. now intros H ->. Qed.

Lemma valid_lower_plain code :
  IsValidCode code = true ->
  ToLower code <> ""
  /\ free_of "/" (ToLower code) = true
  /\ free_of "?" (ToLower code) = true
  /\ free_of "#" (ToLower code) = true.
Proof.
  intros H. pose proof (ToLower_shape code H) as (l & d & -> & Hl & Hd & Hal & Had).
  split; [now destruct l|].
  unfold free_of. rewrite !all_bytes_append. cbn [all_bytes].
  repeat split; rewrite !andb_true_iff; (split; [|split; [reflexivity|]]);
    (eapply all_bytes_impl; [|eassumption]); intros c Hc;
    (apply letter_plain in Hc || apply digit_plain in Hc); tauto.
Qed.

Lemma ExtractCode_code_url code :
  IsValidCode code = true -> ExtractCode (code_url code) = code.
Proof.
  intros H. unfold ExtractCode, code_url.
  replace (String.eqb (HTTPCrawler.BaseURL +:+ "/" +:+ ToLower code) "") with false
    by reflexivity.
  rewrite codePattern_find_site, (codePattern_find_whole _ (ToLower_shape code H)).
  rewrite NormalizeCode_eq. now apply valid_upper_lower.
Qed.

(** X3: the detail URL that [CrawlByCode] builds for a valid code leads back
    to that code, by every route the parser takes from a URL to a code. *)
Theorem code_url_round_trip (code title : string) :
  IsValidCode code = true ->
  ExtractCode (code_url code) = code
  /\ extractCodeFromURL (code_url code) = code
  /\ link_code (code_url code) = code
  /\ (ExtractCode title = "" ->
      detail_code title (code_url code) = code
      /\ card_code title (code_url code) = code).
Proof.
  intros H. pose proof (ExtractCode_code_url code H) as E.
  pose proof (valid_nonempty code H) as Hne.
  assert (Hc : String.eqb code "" = false) by (now apply String.eqb_neq).
  destruct (valid_lower_plain code H) as (Hl & Hs & Hq & Hf).
  split; [exact E|]. split; [|split].
  - unfold code_url. cbn [String.append].
    rewrite <- (append_nil_r (HTTPCrawler.BaseURL +:+ String "/" (ToLower code))).
    unfold extractCodeFromURL.
    replace (String.eqb ((HTTPCrawler.BaseURL +:+ String "/" (ToLower code)) +:+ "") "")
      with false by reflexivity.
    rewrite url_cut; try easy; try (now apply segment_free); [|now apply segment_plain].
    destruct (segment_last HTTPCrawler.BaseURL (ToLower code) Hl Hs) as [-> Hlen].
    destruct (Z.ltb_spec 0
      (Z.of_nat (length (Split (HTTPCrawler.BaseURL +:+ String "/" (ToLower code)) "/"))));
      [|lia].
    destruct (String.eqb_spec (ToLower code) ""); [easy|]. cbn [negb].
    rewrite NormalizeCode_eq. now apply valid_upper_lower.
  - unfold link_code. now rewrite E, Hc.
  - intros Ht. unfold detail_code, card_code. rewrite Ht, E. cbn [String.eqb andb].
    split; [reflexivity|].
    replace (String.eqb (code_url code) "") with false by reflexivity.
    cbn [negb]. now rewrite Hc.
Qed.

Lemma code_url_round_trip_witness :
  ExtractCode (code_url "SSIS-001") = "SSIS-001"
  /\ extractCodeFromURL (code_url "SSIS-001") = "SSIS-001"
  /\ link_code (code_url "SSIS-001") = "SSIS-001"
  /\ (ExtractCode "no code in this title" = "" ->
      detail_code "no code in this title" (code_url "SSIS-001") = "SSIS-001"
      /\ card_code "no code in this title" (code_url "SSIS-001") = "SSIS-001").
Proof. apply (code_url_round_trip "SSIS-001" "no code in this title"). reflexivity. Defined.

(** ** Links *)

(** X4: [normalizeURL] returns the empty text only for the empty text, an
    absolute URL otherwise, and leaves its own results as they are. *)
Theorem normalizeURL_absolute (url : string) :
  (normalizeURL url = "" <-> url = "")
  /\ (url <> "" ->
      (HasPrefix (normalizeURL url) "http://"
       || HasPrefix (normalizeURL url) "https://")%bool = true)
  /\ normalizeURL (normalizeURL url) = normalizeURL url.
Proof.
  assert (Habs : url <> "" ->
    (HasPrefix (normalizeURL url) "http://"
     || HasPrefix (normalizeURL url) "https://")%bool = true).
  { intros Hne. unfold normalizeURL.
    destruct (String.eqb_spec url ""); [easy|].
    destruct (HasPrefix url "http://" || HasPrefix url "https://")%bool eqn:E; [exact E|].
    destruct (HasPrefix url "/"); reflexivity. }
  assert (Hempty : normalizeURL url = "" <-> url = "").
  { split; [|now intros ->]. intros H0. destruct (String.eqb_spec url ""); [easy|].
    specialize (Habs n). now rewrite H0 in Habs. }
  split; [exact Hempty|]. split; [exact Habs|].
  destruct (String.eqb_spec url "") as [->|Hne]; [reflexivity|].
  specialize (Habs Hne). unfold normalizeURL at 1.
  destruct (String.eqb_spec (normalizeURL url) "") as [E|_]; [now apply Hempty in E|].
  now rewrite Habs.
Qed.

(** Every code the parser assigns is in normal form: [NormalizeCode]
    leaves it as it is. *)
Lemma parser_codes_normalised (title url : string) :
  NormalizeCode (ExtractCode title) = ExtractCode title
  /\ NormalizeCode (extractCodeFromURL url) = extractCodeFromURL url
  /\ NormalizeCode (detail_code title url) = detail_code title url
  /\ NormalizeCode (card_code title url) = card_code title url
  /\ NormalizeCode (link_code url) = link_code url.
Proof.
  assert (HE : forall t, NormalizeCode (ExtractCode t) = ExtractCode t).
  { intros t. unfold ExtractCode. destruct (String.eqb t ""); [reflexivity|].
    destruct (codePattern_find t); [|reflexivity].
    now rewrite !NormalizeCode_eq, ToUpper_idem. }
  assert (HU : forall u, NormalizeCode (extractCodeFromURL u) = extractCodeFromURL u).
  { intros u. unfold extractCodeFromURL. destruct (String.eqb u ""); [reflexivity|].
    destruct (0 <? _); [|reflexivity].
    destruct (negb _); [|reflexivity].
    now rewrite !NormalizeCode_eq, ToUpper_idem. }
  split; [apply HE|]. split; [apply HU|]. split; [|split].
  - unfold detail_code. now destruct (String.eqb (ExtractCode title) "").
  - unfold card_code.
    destruct (String.eqb (ExtractCode title) "" && negb (String.eqb url ""))%bool.
    + now destruct (String.eqb (ExtractCode url) "" && negb (String.eqb url ""))%bool.
    + now destruct (String.eqb (ExtractCode title) "" && negb (String.eqb url ""))%bool.
  - unfold link_code. now destruct (String.eqb (ExtractCode url) "").
Qed.

(** ** Durations *)

Example ExtractDuration_samples :
  ExtractDuration ("120" +:+ fen) = 120
  /\ ExtractDuration ("90 " +:+ fen) = 90
  /\ ExtractDuration ("60" +:+ fen +:+ "xyz") = 60
  /\ ExtractDuration "45" = 45
  /\ ExtractDuration "" = 0
  /\ ExtractDuration "no duration" = 0
  /\ ExtractDuration ("ep 2, 120" +:+ fen) = 120
  /\ ExtractDuration ("99999999999999999999" +:+ fen) = 0.
Proof. repeat split. Qed.

Lemma digit_value_table c :
  is_digit c = true -> ((0 <=? digit_value c) && (digit_value c <=? 9))%bool = true.
Proof. by_bytes c. Qed.

Lemma digit_value_range c : is_digit c = true -> 0 <= digit_value c <= 9.
Proof. intros H. apply digit_value_table in H. lia. Qed.

Lemma digit_no_space c : is_digit c = true -> is_re_space c = false.
Proof. by_bytes c. Qed.

Lemma decimal_nonneg digits : forall acc,
  0 <= acc -> all_bytes is_digit digits = true -> 0 <= decimal acc digits.
Proof.
  induction digits as [|c ds IH]; intros acc Hacc; simpl; [easy|].
  rewrite andb_true_iff. intros [Hc Hds]. apply IH; [|easy].
  pose proof (digit_value_range c Hc). lia.
Qed.

Lemma Atoi_range digits n :
  all_bytes is_digit digits = true -> Atoi digits = Some n -> 0 <= n < 2 ^ 63.
Proof.
  intros Hd. unfold Atoi. pose proof (decimal_nonneg digits 0 ltac:(lia) Hd).
  destruct (Z.ltb_spec (decimal 0 digits) (2 ^ 63)); [|discriminate].
  intros [= <-]. lia.
Qed.

Lemma durationPattern_at_digits s m :
  durationPattern_at s = Some m -> all_bytes is_digit m = true.
Proof.
  unfold durationPattern_at. destruct (span is_digit s) as [ds rest] eqn:E.
  destruct ds as [|d ds]; [discriminate|].
  destruct (span is_re_space rest) as [ws rest'].
  destruct (HasPrefix rest' fen); [|discriminate].
  intros [= <-]. eapply span_all; eauto.
Qed.

Lemma durationPattern_find_digits text m :
  durationPattern_find text = Some m -> all_bytes is_digit m = true.
Proof.
  induction text as [|c text IH]; cbn [durationPattern_find].
  - destruct (durationPattern_at "") eqn:E; [|discriminate].
    intros [= <-]. eapply durationPattern_at_digits; eauto.
  - destruct (durationPattern_at (String c text)) eqn:E; [|exact IH].
    intros [= <-]. eapply durationPattern_at_digits; eauto.
Qed.

Lemma numPattern_find_digits text : all_bytes is_digit (numPattern_find text) = true.
Proof.
  induction text as [|c text IH]; [reflexivity|]. cbn [numPattern_find].
  destruct (span is_digit (String c text)) as [ds rest] eqn:E.
  destruct ds as [|d ds]; [exact IH|]. eapply span_all; eauto.
Qed.

(** A duration is never negative and always fits Go's [int]. *)
Lemma ExtractDuration_range (text : string) :
  0 <= ExtractDuration text < 2 ^ 63.
Proof.
  unfold ExtractDuration. destruct (String.eqb text ""); [lia|].
  assert (Hnum : 0 <= (if negb (String.eqb (numPattern_find text) "")
                       then match Atoi (numPattern_find text) with
                            | Some duration => duration
                            | None => 0
                            end
                       else 0) < 2 ^ 63).
  { destruct (negb _); [|lia].
    destruct (Atoi (numPattern_find text)) as [n|] eqn:E; [|lia].
    eapply Atoi_range; [apply numPattern_find_digits|exact E]. }
  destruct (durationPattern_find text) as [m|] eqn:E; [|exact Hnum].
  destruct (Atoi m) as [n|] eqn:En; [|exact Hnum].
  eapply Atoi_range; [|exact En]. eapply durationPattern_find_digits; eauto.
Qed.

Lemma durationPattern_find_skip pre s :
  all_bytes (fun c => negb (is_digit c)) pre = true ->
  durationPattern_find (pre +:+ s) = durationPattern_find s.
Proof.
  induction pre as [|c pre IH]; [easy|]. cbn [all_bytes]. rewrite andb_true_iff.
  intros [Hc Hpre]. cbn [String.append durationPattern_find].
  unfold durationPattern_at at 1. cbn [span].
  destruct (is_digit c); [discriminate|]. now apply IH.
Qed.

Lemma numPattern_find_skip pre s :
  all_bytes (fun c => negb (is_digit c)) pre = true ->
  numPattern_find (pre +:+ s) = numPattern_find s.
Proof.
  induction pre as [|c pre IH]; [easy|]. cbn [all_bytes]. rewrite andb_true_iff.
  intros [Hc Hpre]. cbn [String.append numPattern_find span].
  destruct (is_digit c); [discriminate|]. now apply IH.
Qed.

Lemma durationPattern_find_here d ds ws rest :
  all_bytes is_digit (String d ds) = true -> all_bytes is_re_space ws = true ->
  durationPattern_find (String d ds +:+ ws +:+ fen +:+ rest) = Some (String d ds).
Proof.
  intros Hd Hw.
  assert (Hat : durationPattern_at (String d ds +:+ ws +:+ fen +:+ rest)
                = Some (String d ds)).
  { unfold durationPattern_at.
    rewrite (span_append is_digit (String d ds) (ws +:+ fen +:+ rest) Hd).
    - rewrite (span_append is_re_space ws (fen +:+ rest) Hw); [reflexivity|].
      reflexivity.
    - destruct ws as [|w ws]; [reflexivity|]. cbn [String.append stops].
      cbn [all_bytes] in Hw. apply andb_true_iff in Hw as [Hw _].
      destruct (is_digit w) eqn:E; [|reflexivity].
      apply digit_no_space in E. congruence. }
  cbn [String.append] in *. cbn [durationPattern_find]. now rewrite Hat.
Qed.

(** X5: a number of minutes followed by the minute sign is the duration,
    whatever text without digits precedes it and whatever follows. *)
Theorem ExtractDuration_minutes (pre digits ws rest : string) :
  all_bytes (fun c => negb (is_digit c)) pre = true ->
  digits <> "" -> all_bytes is_digit digits = true ->
  all_bytes is_re_space ws = true ->
  decimal 0 digits < 2 ^ 63 ->
  ExtractDuration (pre +:+ digits +:+ ws +:+ fen +:+ rest) = decimal 0 digits.
Proof.
  intros Hpre Hne Hd Hw Hfit. destruct digits as [|d ds]; [easy|].
  unfold ExtractDuration.
  replace (String.eqb (pre +:+ String d ds +:+ ws +:+ fen +:+ rest) "") with false
    by (now destruct pre).
  rewrite (durationPattern_find_skip pre _ Hpre).
  rewrite (durationPattern_find_here d ds ws rest Hd Hw).
  unfold Atoi. now destruct (Z.ltb_spec (decimal 0 (String d ds)) (2 ^ 63)); [|lia].
Qed.

Lemma ExtractDuration_minutes_witness :
  ExtractDuration ("HD " +:+ "118" +:+ "  " +:+ fen +:+ " left") = 118.
Proof.
  apply (ExtractDuration_minutes "HD " "118" "  " " left");
    solve [reflexivity | discriminate].
Defined.

End CrawlerHelpersFacts.

(* ===================================================================== *)
(** * Retries *)
(* ===================================================================== *)

Module RetryFacts.
Import GoStrings Retry.

Lemma requests_made_snoc log a :
  requests_made (log ++ [a]) = requests_made log + (if is_request a then 1 else 0).
Proof.
  unfold requests_made. rewrite filter_app, length_app.
  destruct a; simpl; lia.
Qed.

Lemma sleeps_made_snoc log a :
  sleeps_made (log ++ [a]) = sleeps_made log + (if is_sleep a then 1 else 0).
Proof.
  unfold sleeps_made. rewrite filter_app, length_app.
  destruct a; simpl; lia.
Qed.

Ltac count_actions :=
  rewrite ?requests_made_snoc, ?sleeps_made_snoc; cbn [is_request is_sleep].

(** [d] failed attempts, then a successful one. *)
Lemma retry_loop_first_success env url html k (d : nat) : forall m attempt lastErr log,
  undisturbed env -> k <= MaxRetries env -> attempt + Z.of_nat d = k ->
  (forall j, attempt <= j < k -> exists e, fetch env j url = Err e) ->
  fetch env k url = Ok html ->
  exists log',
    retry_loop env url (S d + m) attempt lastErr log = (Ok html, log')
    /\ requests_made log' = requests_made log + Z.of_nat d + 1
    /\ sleeps_made log' = sleeps_made log + Z.of_nat d.
Proof.
  induction d as [|d IH]; intros m attempt lastErr log Hu Hk Hat Hfail Hok.
  - assert (attempt = k) by lia. subst attempt. cbn [plus retry_loop].
    destruct (Hu k) as [-> _]. rewrite Hok. eexists. split; [reflexivity|].
    count_actions. lia.
  - cbn [plus retry_loop]. destruct (Hu attempt) as [-> ->].
    destruct (Hfail attempt ltac:(lia)) as [e ->].
    destruct (Z.ltb_spec attempt (MaxRetries env)); [|lia].
    destruct (IH m (attempt + 1) (Some e)
                (((log ++ [Waited attempt]) ++ [Requested attempt url]) ++ [Slept attempt])
                Hu Hk ltac:(lia)) as (log' & E & Hr & Hs); [|exact Hok|].
    { intros j Hj. apply Hfail. lia. }
    exists log'. split; [exact E|]. revert Hr Hs. count_actions. lia.
Qed.

(** X6: [fetchWithRetry] returns the page of the first request that
    succeeds, after one request per attempt and one sleep per failure. *)
Theorem fetchWithRetry_first_success (env : RetryEnv) (url html : string) (k : Z) :
  undisturbed env -> 0 <= k <= MaxRetries env ->
  (forall j, 0 <= j < k -> exists e, fetch env j url = Err e) ->
  fetch env k url = Ok html ->
  fst (fetchWithRetry env url) = Ok html
  /\ requests_made (snd (fetchWithRetry env url)) = k + 1
  /\ sleeps_made (snd (fetchWithRetry env url)) = k.
Proof.
  intros Hu Hk Hfail Hok. unfold fetchWithRetry.
  replace (Z.to_nat (MaxRetries env + 1))
    with (S (Z.to_nat k) + Z.to_nat (MaxRetries env - k))%nat by lia.
  destruct (retry_loop_first_success env url html k (Z.to_nat k)
              (Z.to_nat (MaxRetries env - k)) 0 None [] Hu ltac:(lia) ltac:(lia))
    as (log' & -> & Hr & Hs); [exact Hfail|exact Hok|].
  cbn [fst snd]. rewrite Hr, Hs. unfold requests_made, sleeps_made.
  rewrite !filter_nil. cbn [length]. repeat split; lia.
Qed.

Lemma fetchWithRetry_first_success_witness :
  fst (fetchWithRetry (fails_first 3 2) "https://missav.ai/new") = Ok "page"
  /\ requests_made (snd (fetchWithRetry (fails_first 3 2) "https://missav.ai/new")) = 2 + 1
  /\ sleeps_made (snd (fetchWithRetry (fails_first 3 2) "https://missav.ai/new")) = 2.
Proof.
  apply (fetchWithRetry_first_success (fails_first 3 2) "https://missav.ai/new" "page" 2).
  - intros attempt. split; reflexivity.
  - simpl. lia.
  - intros j Hj. exists (pretty j). simpl.
    destruct (Z.ltb_spec j 2); [reflexivity|lia].
  - reflexivity.
Defined.

(** Every attempt fails. *)
Lemma retry_loop_all_fail env url (n : nat) : forall attempt lastErr log,
  undisturbed env -> attempt + Z.of_nat n = MaxRetries env + 1 ->
  (forall j, attempt <= j <= MaxRetries env -> exists e, fetch env j url = Err e) ->
  exists log' last,
    retry_loop env url n attempt lastErr log = (Err (exceeded last), log')
    /\ (n = O -> last = lastErr)
    /\ (n <> O -> exists e, fetch env (MaxRetries env) url = Err e /\ last = Some e)
    /\ requests_made log' = requests_made log + Z.of_nat n
    /\ sleeps_made log' = sleeps_made log + Z.max 0 (Z.of_nat n - 1).
Proof.
  induction n as [|n IH]; intros attempt lastErr log Hu Hat Hfail.
  - exists log, lastErr. cbn. repeat split; try easy; lia.
  - cbn [retry_loop]. destruct (Hu attempt) as [-> ->].
    destruct (Hfail attempt ltac:(lia)) as [e He]. rewrite He.
    destruct (Z.ltb_spec attempt (MaxRetries env)).
    + destruct (IH (attempt + 1) (Some e)
                  (((log ++ [Waited attempt]) ++ [Requested attempt url]) ++ [Slept attempt])
                  Hu ltac:(lia)) as (log' & last & E & H0 & HS & Hr & Hs).
      { intros j Hj. apply Hfail. lia. }
      exists log', last. split; [exact E|]. split; [easy|]. split.
      * intros _. apply HS. lia.
      * revert Hr Hs. count_actions. lia.
    + assert (n = O) by lia. subst n.
      assert (attempt = MaxRetries env) by lia. subst attempt.
      cbn [retry_loop]. eexists _, (Some e). split; [reflexivity|].
      split; [easy|]. split; [intros _; now exists e|].
      count_actions. lia.
Qed.

(** X7: when every request fails, [fetchWithRetry] gives up after
    [MaxRetries + 1] requests with the error of the last one, and does not
    sleep after the last failure. *)
Theorem fetchWithRetry_gives_up (env : RetryEnv) (url : string) :
  undisturbed env -> 0 <= MaxRetries env ->
  (forall j, 0 <= j <= MaxRetries env -> exists e, fetch env j url = Err e) ->
  exists e,
    fetch env (MaxRetries env) url = Err e
    /\ fst (fetchWithRetry env url) = Err ("max retries exceeded: " +:+ e)
    /\ requests_made (snd (fetchWithRetry env url)) = MaxRetries env + 1
    /\ sleeps_made (snd (fetchWithRetry env url)) = MaxRetries env.
Proof.
  intros Hu Hpos Hfail. unfold fetchWithRetry.
  destruct (retry_loop_all_fail env url (Z.to_nat (MaxRetries env + 1)) 0 None []
              Hu ltac:(lia) Hfail) as (log' & last & -> & _ & HS & Hr & Hs).
  destruct HS as (e & He & ->); [lia|].
  exists e. split; [exact He|]. split; [reflexivity|]. cbn [snd].
  rewrite Hr, Hs. unfold requests_made, sleeps_made. rewrite !filter_nil.
  cbn [length]. split; lia.
Qed.

Lemma fetchWithRetry_gives_up_witness :
  exists e,
    fetch (fails_first 3 9) 3 "https://missav.ai/new" = Err e
    /\ fst (fetchWithRetry (fails_first 3 9) "https://missav.ai/new")
       = Err ("max retries exceeded: " +:+ e)
    /\ requests_made (snd (fetchWithRetry (fails_first 3 9) "https://missav.ai/new")) = 3 + 1
    /\ sleeps_made (snd (fetchWithRetry (fails_first 3 9) "https://missav.ai/new")) = 3.
Proof.
  apply (fetchWithRetry_gives_up (fails_first 3 9) "https://missav.ai/new").
  - intros attempt. split; reflexivity.
  - simpl. lia.
  - intros j Hj. exists (pretty j). simpl in *.
    destruct (Z.ltb_spec j 9); [reflexivity|lia].
Defined.

(** Whatever the environment does. *)
Lemma retry_loop_bounded env url (n : nat) : forall attempt lastErr log,
  attempt + Z.of_nat n = MaxRetries env + 1 ->
  let out := retry_loop env url n attempt lastErr log in
  requests_made (snd out) <= requests_made log + Z.of_nat n
  /\ sleeps_made (snd out) <= sleeps_made log + Z.max 0 (Z.of_nat n - 1)
  /\ forall html, fst out = Ok html ->
       exists k, attempt <= k <= MaxRetries env /\ fetch env k url = Ok html.
Proof.
  induction n as [|n IH]; intros attempt lastErr log Hat; cbn zeta.
  - cbn. repeat split; try lia. discriminate.
  - cbn [retry_loop]. destruct (wait_err env attempt).
    { cbn [fst snd]. count_actions. repeat split; try lia. discriminate. }
    destruct (fetch env attempt url) as [html|e] eqn:Hf.
    { cbn [fst snd]. count_actions. repeat split; try lia.
      intros ? [= <-]. exists attempt. split; [lia|exact Hf]. }
    destruct (Z.ltb_spec attempt (MaxRetries env)).
    + destruct (backoff_done env attempt).
      { cbn [fst snd]. count_actions. repeat split; try lia. discriminate. }
      specialize (IH (attempt + 1) (Some e)
                    (((log ++ [Waited attempt]) ++ [Requested attempt url]) ++ [Slept attempt])
                    ltac:(lia)).
      cbn zeta in IH. destruct IH as (Hr & Hs & Hok).
      revert Hr Hs. count_actions. intros Hr Hs. repeat split; try lia.
      intros html Hh. destruct (Hok html Hh) as (k & Hk & Hfk). exists k. split; [lia|easy].
    + specialize (IH (attempt + 1) (Some e)
                    ((log ++ [Waited attempt]) ++ [Requested attempt url]) ltac:(lia)).
      cbn zeta in IH. destruct IH as (Hr & Hs & Hok).
      revert Hr Hs. count_actions. intros Hr Hs. repeat split; try lia.
      intros html Hh. destruct (Hok html Hh) as (k & Hk & Hfk). exists k. split; [lia|easy].
Qed.

(** X8: in every environment [fetchWithRetry] makes at most
    [MaxRetries + 1] requests and sleeps at most [MaxRetries] times, a page
    it returns is the page one of its requests returned, and with a negative
    [MaxRetries] it asks for nothing at all. *)
Theorem fetchWithRetry_bounded (env : RetryEnv) (url : string) :
  requests_made (snd (fetchWithRetry env url)) <= Z.max 0 (MaxRetries env + 1)
  /\ sleeps_made (snd (fetchWithRetry env url)) <= Z.max 0 (MaxRetries env)
  /\ (forall html, fst (fetchWithRetry env url) = Ok html ->
        exists k, 0 <= k <= MaxRetries env /\ fetch env k url = Ok html)
  /\ (MaxRetries env < 0 ->
        fetchWithRetry env url = (Err "max retries exceeded: %!w(<nil>)", [])).
Proof.
  unfold fetchWithRetry. destruct (Z.ltb_spec (MaxRetries env) 0) as [Hneg|Hpos].
  - replace (Z.to_nat (MaxRetries env + 1)) with O by lia. cbn [retry_loop fst snd].
    unfold requests_made, sleeps_made. rewrite !filter_nil. cbn [length exceeded].
    repeat split; try lia; try easy.
  - pose proof (retry_loop_bounded env url (Z.to_nat (MaxRetries env + 1)) 0 None []
                  ltac:(lia)) as H. cbn zeta in H. destruct H as (Hr & Hs & Hok).
    change (requests_made []) with 0 in Hr. change (sleeps_made []) with 0 in Hs.
    split; [lia|]. split; [lia|]. split; [exact Hok|]. intros; lia.
Qed.

End RetryFacts.

(* ===================================================================== *)
(** * The shape of a harvest *)
(* ===================================================================== *)

Module PagesFacts.
Import Model GoStrings HTTPCrawler Samples Pages.
Import GoStringsFacts HarvestFacts.

Lemma plain_fetched log page url :
  plain (log ++ [Fetched page url]) = plain log ++ [Fetched page url].
Proof. unfold plain. now rewrite filter_app. Qed.

Lemma plain_rendered log page url : plain (log ++ [Rendered page url]) = plain log.
Proof. unfold plain. rewrite filter_app. simpl. apply app_nil_r. Qed.

(** While the context is not done, the loop of [CrawlNewVideos] fetches
    page after page, whatever the pages hold. *)
Lemma new_videos_plain w base n : forall page allVideos log,
  never_done w ->
  failure (new_videos_loop w base n page allVideos log) = None
  /\ plain (requests (new_videos_loop w base n page allVideos log))
     = plain log ++ page_fetches base n page.
Proof.
  induction n as [|n IH]; intros page allVideos log Hnd; cbn [new_videos_loop page_fetches].
  - cbn. now rewrite app_nil_r.
  - rewrite (Hnd page).
    break_match;
      match goal with
      | |- context [new_videos_loop w base n (page + 1) ?a ?l] =>
          destruct (IH (page + 1) a l Hnd) as [-> ->]
      end;
      (split; [reflexivity|]);
      rewrite ?plain_rendered, plain_fetched, <- app_assoc; reflexivity.
Qed.

(** X9: unless the context is done, [CrawlNewVideos] calls [fetchWithRetry]
    for each of the pages 1 to [pages], once and in order, whatever the
    pages hold and whichever fetches fail, and reports no error. *)
Theorem CrawlNewVideos_asks_every_page (w : World) (pages : Z) :
  never_done w ->
  failure (CrawlNewVideos w pages) = None
  /\ plain (requests (CrawlNewVideos w pages))
     = page_fetches (BaseURL +:+ newVideosPath) (Z.to_nat pages) 1.
Proof.
  intros Hnd. unfold CrawlNewVideos.
  destruct (new_videos_plain w (BaseURL +:+ newVideosPath) (Z.to_nat pages) 1 [] [] Hnd)
    as [-> ->].
  split; reflexivity.
Qed.

Lemma CrawlNewVideos_asks_every_page_witness :
  failure (CrawlNewVideos world_browser_only 3) = None
  /\ plain (requests (CrawlNewVideos world_browser_only 3))
     = page_fetches (BaseURL +:+ newVideosPath) (Z.to_nat 3) 1.
Proof. apply (CrawlNewVideos_asks_every_page world_browser_only 3). intros page. reflexivity. Defined.

(** A loop whose context is done when page [page + a] is due stops there. *)
Lemma new_videos_cut w base (a : nat) : forall b page allVideos log,
  (forall p, page <= p < page + Z.of_nat a -> ctx_done w p = false) ->
  ctx_done w (page + Z.of_nat a) = true ->
  new_videos_loop w base (a + S b) page allVideos log
  = cut_short (new_videos_loop w base a page allVideos log).
Proof.
  induction a as [|a IH]; intros b page allVideos log Hgo Hstop.
  - cbn [plus new_videos_loop]. replace (page + Z.of_nat 0) with page in Hstop by lia.
    now rewrite Hstop.
  - cbn [plus new_videos_loop]. rewrite (Hgo page) by lia.
    assert (Hgo' : forall p, page + 1 <= p < page + 1 + Z.of_nat a -> ctx_done w p = false).
    { intros p Hp. apply Hgo. lia. }
    assert (Hstop' : ctx_done w (page + 1 + Z.of_nat a) = true).
    { replace (page + 1 + Z.of_nat a) with (page + Z.of_nat (S a)) by lia. exact Hstop. }
    break_match; now apply IH.
Qed.

(** X10: when the context is done as page [k] is due, [CrawlNewVideos]
    returns the context's error together with exactly what a harvest of
    [k - 1] pages finds, and asks for nothing more. *)
Theorem CrawlNewVideos_cancelled (w : World) (pages k : Z) :
  1 <= k <= pages ->
  (forall p, 1 <= p < k -> ctx_done w p = false) ->
  ctx_done w k = true ->
  CrawlNewVideos w pages = cut_short (CrawlNewVideos w (k - 1)).
Proof.
  intros Hk Hgo Hstop. unfold CrawlNewVideos.
  replace (Z.to_nat pages) with (Z.to_nat (k - 1) + S (Z.to_nat (pages - k)))%nat by lia.
  apply new_videos_cut.
  - intros p Hp. apply Hgo. lia.
  - replace (1 + Z.of_nat (Z.to_nat (k - 1))) with k by lia. exact Hstop.
Qed.

Lemma CrawlNewVideos_cancelled_witness :
  CrawlNewVideos (world_done_at 3) 5 = cut_short (CrawlNewVideos (world_done_at 3) (3 - 1)).
Proof.
  apply (CrawlNewVideos_cancelled (world_done_at 3) 5 3).
  - lia.
  - intros p Hp. simpl. apply Z.eqb_neq. lia.
  - reflexivity.
Defined.

Lemma maxPages_none limit :
  - 2 ^ 63 <= limit < 2 ^ 63 -> limit <= 0 \/ 2 ^ 63 - 11 <= limit ->
  Z.to_nat (maxPages limit) = O.
Proof.
  intros Hint Hl. unfold maxPages.
  assert (Hw : wrap64 (limit + 11) < 12).
  { unfold wrap64. destruct Hl as [Hl|Hl].
    - rewrite Z.mod_small by lia. lia.
    - replace (limit + 11 + 2 ^ 63) with ((limit + 11 - 2 ^ 63) + 1 * 2 ^ 64) by lia.
      rewrite Z.mod_add by lia. rewrite Z.mod_small by lia. lia. }
  destruct (Z.le_gt_cases 0 (wrap64 (limit + 11))) as [Hpos|Hneg].
  - rewrite Z.quot_small by lia. reflexivity.
  - assert (Z.quot (wrap64 (limit + 11)) 12 <= 0); [|lia].
    rewrite <- (Z.opp_involutive (wrap64 (limit + 11))), Z.quot_opp_l by lia.
    pose proof (Z.quot_pos (- wrap64 (limit + 11)) 12 ltac:(lia) ltac:(lia)). lia.
Qed.

(** X11: asked for no page or no record, a harvest never enters its loop:
    it fetches and renders no listing page, finds nothing and reports no
    error; so does one asked for a limit within 11 of the largest [int],
    for which [limit + 11] wraps around. *)
Theorem harvest_of_nothing (w : World) (name : string) (limit : Z) :
  - 2 ^ 63 <= limit < 2 ^ 63 ->
  limit <= 0 \/ 2 ^ 63 - 11 <= limit ->
  CrawlByActor w name limit = nothing
  /\ CrawlByKeyword w name limit = nothing
  /\ (limit <= 0 -> CrawlNewVideos w limit = nothing).
Proof.
  intros Hint Hl. unfold CrawlByActor, CrawlByKeyword, CrawlNewVideos.
  rewrite (maxPages_none limit Hint Hl). repeat split.
  intros H0. now replace (Z.to_nat limit) with O by lia.
Qed.

Lemma harvest_of_nothing_witness :
  CrawlByActor world_gap "x" (2 ^ 63 - 5) = nothing
  /\ CrawlByKeyword world_gap "x" (2 ^ 63 - 5) = nothing
  /\ (2 ^ 63 - 5 <= 0 -> CrawlNewVideos world_gap (2 ^ 63 - 5) = nothing).
Proof. apply (harvest_of_nothing world_gap "x" (2 ^ 63 - 5)); lia. Defined.

Lemma actor_loop_requests w base limit n : forall page allVideos log,
  len (requests (actor_loop w base limit n page allVideos log)) <= len log + Z.of_nat n.
Proof.
  induction n as [|n IH]; intros page allVideos log; cbn [actor_loop].
  - cbn. lia.
  - break_match; cbn [requests]; rewrite ?len_app;
      try (unfold len; cbn [length]; lia).
    match goal with
    | |- context [actor_loop w base limit n (page + 1) ?a ?l] =>
        specialize (IH (page + 1) a l)
    end.
    rewrite len_app in IH. unfold len in *. cbn [length] in IH. lia.
Qed.

(** X12: [CrawlByActor] returns at most [limit] records, never calls the
    browser, and calls [fetchWithRetry] at most [maxPages] times. *)
Theorem CrawlByActor_within_limit (w : World) (actorName : string) (limit : Z) :
  0 <= limit ->
  len (found (CrawlByActor w actorName limit)) <= limit
  /\ rendered (requests (CrawlByActor w actorName limit)) = []
  /\ len (requests (CrawlByActor w actorName limit)) <= Z.max 0 (maxPages limit).
Proof.
  intros Hl. unfold CrawlByActor. split; [|split].
  - apply actor_loop_bound; [exact Hl|exact Hl].
  - now rewrite actor_no_render.
  - pose proof (actor_loop_requests w (BaseURL +:+ actressesPath +:+ PathEscape w actorName)
                  limit (Z.to_nat (maxPages limit)) 1 [] []) as H.
    change (len (@nil Event)) with 0 in H. lia.
Qed.

Lemma CrawlByActor_within_limit_witness :
  len (found (CrawlByActor (world_done_at 99) "x" 2)) <= 2
  /\ rendered (requests (CrawlByActor (world_done_at 99) "x" 2)) = []
  /\ len (requests (CrawlByActor (world_done_at 99) "x" 2)) <= Z.max 0 (maxPages 2).
Proof. apply (CrawlByActor_within_limit (world_done_at 99) "x" 2). lia. Defined.

Example CrawlByActor_cut :
  let h := CrawlByActor (world_done_at 99) "x" 14 in
  len (found h) = 6
  /\ requests h = [Fetched 1 "https://missav.ai/actresses/x";
                   Fetched 2 "https://missav.ai/actresses/x?page=2"]
  /\ len (found (CrawlByActor (world_done_at 99) "x" 2)) = 2.
Proof. vm_compute. repeat split; reflexivity. Qed.

End PagesFacts.

Module DetailFacts.
Import Model GoStrings GoStringsFacts Crawler CrawlerHelpers CrawlerHelpersFacts Detail.

Lemma lower_upper c : lower_byte (upper_byte c) = lower_byte c.
Proof. by_bytes c. Qed.

Lemma ToLower_ToUpper s : ToLower (ToUpper s) = ToLower s.
Proof.
  unfold ToLower, ToUpper. induction s as [|c s IH]; simpl; [easy|].
  now rewrite lower_upper, IH.
Qed.

Lemma ToLower_idem s : ToLower (ToLower s) = ToLower s.
Proof. unfold ToLower. apply map_bytes_idem. apply lower_byte_idem. Qed.

Lemma CrawlByCode_case w code :
  CrawlByCode w (ToUpper code) = CrawlByCode w code
  /\ CrawlByCode w (ToLower code) = CrawlByCode w code.
Proof. unfold CrawlByCode. now rewrite ToLower_ToUpper, ToLower_idem. Qed.

(** What [ParseVideoDetail] returns for the detail URL of a valid code. *)
Lemma ParseVideoDetail_code w html code v :
  IsValidCode code = true ->
  ParseVideoDetail w html (code_url code) = Ok v ->
  DetailURL v = code_url code
  /\ (ExtractCode (Title v) = "" -> Code v = code)
  /\ (ExtractCode (Title v) <> "" -> Code v = ExtractCode (Title v))
  /\ 0 <= Duration v < 2 ^ 63.
Proof.
  intros Hvalid. unfold ParseVideoDetail. destruct (document_err w html); [discriminate|].
  intros [= <-]. cbn [DetailURL Title Code Duration]. unfold detail_code.
  split; [reflexivity|]. split; [|split].
  - intros ->. cbn [String.eqb]. now apply ExtractCode_code_url.
  - intros Hne. apply String.eqb_neq in Hne. now rewrite Hne.
  - destruct (duration_text w html); [apply ExtractDuration_range|lia].
Qed.

(** X13: the video [CrawlByCode] returns for a valid code, whether the page
    was fetched or rendered, carries the detail URL of that code and a
    duration that fits an [int]; it carries the code asked for when the
    title of the page names none, and the code of the title otherwise; and
    the case of the letters of the code asked for makes no difference. *)
Theorem CrawlByCode_code (w : DetailWorld) (code : string) (v : Video) :
  IsValidCode code = true ->
  fst (CrawlByCode w code) = Ok v ->
  DetailURL v = code_url code
  /\ (ExtractCode (Title v) = "" -> Code v = code)
  /\ (ExtractCode (Title v) <> "" -> Code v = ExtractCode (Title v))
  /\ 0 <= Duration v < 2 ^ 63
  /\ CrawlByCode w (ToLower code) = CrawlByCode w code
  /\ CrawlByCode w (ToUpper code) = CrawlByCode w code.
Proof.
  intros Hvalid Hv. destruct (CrawlByCode_case w code) as [Hup Hlow].
  assert (Hparse : exists html, ParseVideoDetail w html (code_url code) = Ok v).
  { revert Hv. unfold CrawlByCode. fold (code_url code).
    unfold CrawlVideoDetail, crawlDetailWithBrowser.
    destruct (fetchWithRetry w (code_url code)) as [html|e]; cbn [fst]; [eauto|].
    destruct (getBrowser w); cbn [fst]; [discriminate|].
    destruct (FetchRenderedHTML w (code_url code)) as [html|e']; cbn [fst];
      [eauto|discriminate]. }
  destruct Hparse as [html Hparse].
  destruct (ParseVideoDetail_code w html code v Hvalid Hparse) as (H1 & H2 & H3 & H4).
  repeat split; try assumption; lia.
Qed.

Lemma CrawlByCode_code_witness :
  exists v,
    fst (CrawlByCode world_rendered_detail "SSIS-001") = Ok v
    /\ DetailURL v = code_url "SSIS-001"
    /\ (ExtractCode (Title v) = "" -> Code v = "SSIS-001")
    /\ Duration v = 118.
Proof.
  eexists. split; [reflexivity|].
  destruct (CrawlByCode_code world_rendered_detail "SSIS-001" _ eq_refl eq_refl)
    as (H1 & H2 & _).
  split; [exact H1|]. split; [exact H2|reflexivity].
Defined.

End DetailFacts.

(* ===================================================================== *)
(** * The store: subscriptions, counts and flags *)
(* ===================================================================== *)

Module StoreMoreFacts.
Import Model GoStrings Store StoreMore StoreFacts.

Lemma find_map_same {A} (p : A -> bool) (f : A -> A) (l : list A) :
  (forall x, p (f x) = p x) -> find p (map f l) = f <$> find p l.
Proof.
  intros Hp. induction l as [|x l IH]; [reflexivity|]. cbn [map find].
  rewrite Hp. now destruct (p x).
Qed.

Lemma find_none_app {A} (p : A -> bool) (l : list A) x :
  find p l = None -> p x = true -> find p (l ++ [x]) = Some x.
Proof.
  induction l as [|y l IH]; cbn [app find]; [now intros _ ->|].
  destruct (p y); [discriminate|exact IH].
Qed.

Lemma find_none_filter {A} (p : A -> bool) (l : list A) :
  find p l = None -> filter (fun x => p x = false) l = l.
Proof.
  induction l as [|y l IH]; [reflexivity|]. cbn [find]. rewrite filter_cons.
  destruct (p y) eqn:E; [discriminate|]. intros H.
  destruct (decide (false = false)); [|easy]. now rewrite IH.
Qed.

Lemma find_some_in {A} (p : A -> bool) (l : list A) x :
  find p l = Some x -> In x l /\ p x = true.
Proof. apply find_some. Qed.

Lemma enable_idem i (l : list Subscription) :
  map (fun s => if SubID s =? i then set_Enabled true s else s)
    (map (fun s => if SubID s =? i then set_Enabled true s else s) l)
  = map (fun s => if SubID s =? i then set_Enabled true s else s) l.
Proof.
  rewrite map_map. apply map_ext. intros s.
  destruct (SubID s =? i) eqn:E; cbn [SubID set_Enabled]; [|now rewrite E].
  now rewrite E.
Qed.

Lemma enable_other i (l : list Subscription) :
  ~ In i (map SubID l) ->
  map (fun s => if SubID s =? i then set_Enabled true s else s) l = l.
Proof.
  induction l as [|s l IH]; [reflexivity|]. cbn [map In]. intros H.
  destruct (Z.eqb_spec (SubID s) i); [tauto|]. rewrite IH; tauto.
Qed.

Lemma unique_id_row (l : list Subscription) a b :
  NoDup (map SubID l) -> In a l -> In b l -> SubID a = SubID b -> a = b.
Proof.
  induction l as [|s l IH]; [easy|]. cbn [map]. rewrite NoDup_cons.
  intros [Hs Hl] [->|Ha] [->|Hb] E; try easy.
  - exfalso. apply Hs. rewrite E. apply list_elem_of_In, in_map, Hb.
  - exfalso. apply Hs. rewrite <- E. apply list_elem_of_In, in_map, Ha.
  - now apply IH.
Qed.

Section CollationFacts.
Variable text_eq : string -> string -> bool.
Hypothesis text_eq_refl : forall s, text_eq s s = true.

Lemma same_enabled chatID subType keyword b s :
  same_subscription text_eq chatID subType keyword (set_Enabled b s)
  = same_subscription text_eq chatID subType keyword s.
Proof. reflexivity. Qed.

Lemma same_new fresh sub :
  same_subscription text_eq (ChatID sub) (SubType sub) (Keyword sub)
    {| SubID := fresh; ChatID := ChatID sub; ChatType := ChatType sub;
       SubType := SubType sub; Keyword := Keyword sub; Enabled := true |} = true.
Proof.
  unfold same_subscription. cbn [ChatID SubType Keyword].
  now rewrite Z.eqb_refl, !text_eq_refl.
Qed.

(** X14: subscribing twice is subscribing once: the second
    [CreateSubscription] succeeds and leaves the store as the first one left
    it, with an enabled row for the subscription. *)
Theorem CreateSubscription_idempotent (fresh fresh' : Z) (sub : Subscription)
    (db : MySQLStore) :
  ~ In fresh (map SubID (subscriptions db)) ->
  let db1 := fst (CreateSubscription text_eq None None fresh sub db) in
  CreateSubscription text_eq None None fresh' sub db1 = (db1, None)
  /\ exists s,
       In s (subscriptions db1) /\ Enabled s = true
       /\ same_subscription text_eq (ChatID sub) (SubType sub) (Keyword sub) s = true.
Proof.
  intros Hfresh. cbn zeta.
  set (same := same_subscription text_eq (ChatID sub) (SubType sub) (Keyword sub)).
  destruct (find same (subscriptions db)) as [existing|] eqn:E.
  - assert (Hdb1 : fst (CreateSubscription text_eq None None fresh sub db)
                   = with_subscriptions
                       (map (fun s => if SubID s =? SubID existing
                                      then set_Enabled true s else s)
                            (subscriptions db)) db).
    { unfold CreateSubscription. fold same. now rewrite E. }
    rewrite Hdb1. destruct (find_some_in _ _ _ E) as [Hin Hsame]. split.
    + unfold CreateSubscription. cbn [subscriptions with_subscriptions]. fold same.
      rewrite find_map_same, E.
      2:{ intros x. destruct (SubID x =? SubID existing); [apply same_enabled|easy]. }
      cbn [fmap option_fmap option_map].
      replace (SubID (if SubID existing =? SubID existing
                      then set_Enabled true existing else existing))
        with (SubID existing) by (now destruct (SubID existing =? SubID existing)).
      unfold with_subscriptions. cbn [videos subscriptions push_records next_id].
      now rewrite enable_idem.
    + exists (set_Enabled true existing). cbn [subscriptions with_subscriptions].
      split; [|split; [reflexivity|exact Hsame]].
      apply in_map_iff. exists existing. now rewrite Z.eqb_refl.
  - assert (Hdb1 : fst (CreateSubscription text_eq None None fresh sub db)
                   = with_subscriptions
                       (subscriptions db ++
                        [{| SubID := fresh; ChatID := ChatID sub; ChatType := ChatType sub;
                            SubType := SubType sub; Keyword := Keyword sub;
                            Enabled := true |}]) db).
    { unfold CreateSubscription. fold same. now rewrite E. }
    rewrite Hdb1. split.
    + unfold CreateSubscription. cbn [subscriptions with_subscriptions]. fold same.
      rewrite (find_none_app _ _ _ E (same_new fresh sub)). cbn [SubID].
      unfold with_subscriptions. cbn [videos subscriptions push_records next_id].
      rewrite map_app, (enable_other fresh _ Hfresh). cbn [map SubID].
      now rewrite Z.eqb_refl.
    + eexists. cbn [subscriptions with_subscriptions].
      split; [apply in_or_app; right; now left|].
      split; [reflexivity|apply same_new].
Qed.

(** X15: unsubscribing after subscribing leaves the table as unsubscribing
    alone would: without the rows of that subscription, and with every other
    row as it was.  If the subscription was new, the table is back to where
    it started. *)
Theorem subscribe_then_unsubscribe (fresh : Z) (sub : Subscription) (db : MySQLStore) :
  unique_ids db ->
  let db1 := fst (CreateSubscription text_eq None None fresh sub db) in
  let db2 :=
    fst (DeleteSubscription text_eq None (ChatID sub) (SubType sub) (Keyword sub) db1) in
  db2 = fst (DeleteSubscription text_eq None (ChatID sub) (SubType sub) (Keyword sub) db)
  /\ (forall s, In s (subscriptions db2) ->
        same_subscription text_eq (ChatID sub) (SubType sub) (Keyword sub) s = false)
  /\ (find (same_subscription text_eq (ChatID sub) (SubType sub) (Keyword sub))
        (subscriptions db) = None -> subscriptions db2 = subscriptions db).
Proof.
  intros Hids. cbn zeta.
  set (same := same_subscription text_eq (ChatID sub) (SubType sub) (Keyword sub)).
  assert (Hfirst :
    fst (DeleteSubscription text_eq None (ChatID sub) (SubType sub) (Keyword sub)
           (fst (CreateSubscription text_eq None None fresh sub db)))
    = fst (DeleteSubscription text_eq None (ChatID sub) (SubType sub) (Keyword sub) db)).
  { unfold CreateSubscription, DeleteSubscription. fold same.
    destruct (find same (subscriptions db)) as [existing|] eqn:E;
      cbn [fst subscriptions with_subscriptions]; unfold with_subscriptions;
      cbn [videos subscriptions push_records next_id]; f_equal.
    - destruct (find_some_in _ _ _ E) as [Hin Hsame].
      unfold unique_ids in Hids. revert Hids Hin.
      generalize (subscriptions db) as l. intros l Hids Hin.
      assert (Hrows : forall s, In s l -> SubID s = SubID existing -> same s = true).
      { intros s Hs Hid. now rewrite (unique_id_row l s existing Hids Hs Hin Hid). }
      clear Hids Hin E. induction l as [|s l IH]; [reflexivity|].
      cbn [map]. rewrite !filter_cons.
      destruct (Z.eqb_spec (SubID s) (SubID existing)) as [Hid|Hid].
      + change (same (set_Enabled true s)) with (same s).
        rewrite (Hrows s (or_introl eq_refl) Hid).
        destruct (decide (true = false)); [easy|].
        apply IH. intros s' Hs'. apply Hrows. now right.
      + destruct (decide (same s = false)).
        * f_equal. apply IH. intros s' Hs'. apply Hrows. now right.
        * apply IH. intros s' Hs'. apply Hrows. now right.
    - rewrite filter_app, filter_cons, filter_nil.
      pose proof (same_new fresh sub) as Hn. fold same in Hn. rewrite Hn.
      destruct (decide (true = false)); [easy|]. apply app_nil_r. }
  split; [exact Hfirst|]. rewrite Hfirst. split.
  - unfold DeleteSubscription. cbn [fst subscriptions with_subscriptions]. fold same.
    intros s Hs. apply list_elem_of_In, list_elem_of_filter in Hs. tauto.
  - unfold DeleteSubscription. cbn [fst subscriptions with_subscriptions]. fold same.
    apply find_none_filter.
Qed.

End CollationFacts.

Lemma CreateSubscription_idempotent_witness :
  let sub := {| SubID := 0; ChatID := 100; ChatType := "private";
                SubType := SubTypeTag; Keyword := "hd"; Enabled := true |} in
  let db1 := fst (CreateSubscription String.eqb None None 4 sub two_chats) in
  CreateSubscription String.eqb None None 5 sub db1 = (db1, None)
  /\ exists s,
       In s (subscriptions db1) /\ Enabled s = true
       /\ same_subscription String.eqb 100 SubTypeTag "hd" s = true.
Proof.
  apply (CreateSubscription_idempotent String.eqb String.eqb_refl 4 5
           {| SubID := 0; ChatID := 100; ChatType := "private";
              SubType := SubTypeTag; Keyword := "hd"; Enabled := true |} two_chats).
  simpl. intros [H|[H|[H|[]]]]; discriminate.
Defined.

Lemma subscribe_then_unsubscribe_witness :
  let sub := {| SubID := 0; ChatID := 100; ChatType := "private";
                SubType := SubTypeTag; Keyword := "hd"; Enabled := true |} in
  let db1 := fst (CreateSubscription String.eqb None None 4 sub two_chats) in
  let db2 := fst (DeleteSubscription String.eqb None 100 SubTypeTag "hd" db1) in
  db2 = fst (DeleteSubscription String.eqb None 100 SubTypeTag "hd" two_chats)
  /\ (forall s, In s (subscriptions db2) ->
        same_subscription String.eqb 100 SubTypeTag "hd" s = false)
  /\ (find (same_subscription String.eqb 100 SubTypeTag "hd") (subscriptions two_chats)
      = None -> subscriptions db2 = subscriptions two_chats).
Proof.
  apply (subscribe_then_unsubscribe String.eqb String.eqb_refl 4
           {| SubID := 0; ChatID := 100; ChatType := "private";
              SubType := SubTypeTag; Keyword := "hd"; Enabled := true |} two_chats).
  unfold unique_ids. apply (bool_decide_unpack _). vm_compute. exact I.
Defined.

(** ** One chat among others *)

Lemma filter_both {A} (P Q : A -> Prop) `{forall x, Decision (P x)}
    `{forall x, Decision (Q x)} (l : list A) :
  filter P (filter Q l) = filter (fun x => P x /\ Q x) l.
Proof.
  induction l as [|x l IH]; [reflexivity|]. rewrite !filter_cons.
  destruct (decide (Q x)) as [q|q].
  - rewrite filter_cons, IH.
    destruct (decide (P x)), (decide (P x /\ Q x)); tauto || reflexivity.
  - rewrite IH. destruct (decide (P x /\ Q x)); tauto || reflexivity.
Qed.

Lemma filter_same {A} (P Q : A -> Prop) `{forall x, Decision (P x)}
    `{forall x, Decision (Q x)} (l : list A) :
  (forall x, In x l -> (P x <-> Q x)) -> filter P l = filter Q l.
Proof.
  induction l as [|x l IH]; [reflexivity|]. intros Hpq. rewrite !filter_cons.
  pose proof (Hpq x (or_introl eq_refl)).
  rewrite IH by (intros y Hy; apply Hpq; now right).
  destruct (decide (P x)), (decide (Q x)); tauto || reflexivity.
Qed.

(** X16: [DeleteAllSubscriptions] empties the list of the chat it is given
    and leaves the list of every other chat as it was. *)
Theorem DeleteAllSubscriptions_only_that_chat (chatID : Z) (db : MySQLStore) :
  let db' := fst (DeleteAllSubscriptions None chatID db) in
  GetSubscriptions None chatID db' = Ok []
  /\ (forall other, other <> chatID ->
        GetSubscriptions None other db' = GetSubscriptions None other db)
  /\ videos db' = videos db /\ push_records db' = push_records db.
Proof.
  cbn zeta. unfold DeleteAllSubscriptions, GetSubscriptions.
  cbn [fst subscriptions with_subscriptions videos push_records].
  split; [|split; [|split; reflexivity]].
  - f_equal. rewrite filter_both. apply PushFacts.filter_none.
    intros s _ [[H1 _] H2]. congruence.
  - intros other Hother. f_equal. rewrite filter_both. apply filter_same.
    intros s _. unfold in_chat. split; [tauto|]. intros [H1 H2].
    split; [easy|]. apply Z.eqb_neq. apply Z.eqb_eq in H1. lia.
Qed.

(** ** Matching *)

(** [GetMatchingSubscriptions] returns, in the order of the table, the
    enabled subscriptions that the delivery engine's [MatchesSubscription]
    accepts: the two matchers agree. *)
Lemma GetMatchingSubscriptions_exact (video : Video) (db : MySQLStore) :
  GetMatchingSubscriptions None video db
  = Ok (filter (fun s => Push.MatchesSubscription (Some video) (Some s) = true
                         /\ Enabled s = true) (subscriptions db)).
Proof.
  unfold GetMatchingSubscriptions, GetAllSubscriptions. f_equal.
  rewrite filter_both. apply filter_same. intros s _.
  now rewrite MatchFacts.MatchesSubscription_store.
Qed.

(** ** Videos *)

Lemma rows_find code (l : list Video) :
  0 < Z.of_nat (length (filter (fun v => has_code code v = true) l))
  <-> exists v, find (has_code code) l = Some v.
Proof.
  induction l as [|x l IH]; cbn [find].
  - rewrite filter_nil. cbn. split; [lia|]. now intros [v Hv].
  - rewrite filter_cons. destruct (has_code code x) eqn:E.
    + destruct (decide (true = true)); [|easy]. cbn [length]. split; [eauto|lia].
    + destruct (decide (false = true)); [easy|]. exact IH.
Qed.

(** X17: [ExistsByCode] answers true exactly when [GetVideoByCode] finds a
    video, the video found carries the code asked for, and a saved video
    exists from then on. *)
Theorem ExistsByCode_agrees (code : string) (video : Video) (db : MySQLStore) :
  (ExistsByCode None code db = Ok true
   <-> exists v, GetVideoByCode None code db = Ok (Some v) /\ Code v = code)
  /\ (ExistsByCode None code db = Ok false <-> GetVideoByCode None code db = Ok None)
  /\ ExistsByCode None (Code video) (fst (SaveVideo None video db)) = Ok true.
Proof.
  unfold ExistsByCode, GetVideoByCode, rows_with_code.
  pose proof (rows_find code (videos db)) as Hrows.
  split; [|split].
  - split.
    + intros [= H]. apply Z.ltb_lt, Hrows in H. destruct H as [v Hv].
      exists v. split; [now rewrite Hv|].
      apply find_some in Hv. now apply has_code_iff.
    + intros (v & [= Hv] & _). f_equal. apply Z.ltb_lt, Hrows. eauto.
  - split.
    + intros [= H]. apply Z.ltb_ge in H.
      destruct (find (has_code code) (videos db)) as [v|] eqn:E; [|reflexivity].
      assert (0 < Z.of_nat (length (filter (fun v => has_code code v = true) (videos db))))
        by (apply Hrows; eauto). lia.
    + intros [= H]. f_equal. apply Z.ltb_ge.
      destruct (Z.lt_ge_cases 0
        (Z.of_nat (length (filter (fun v => has_code code v = true) (videos db)))))
        as [Hlt|Hge]; [|lia].
      apply Hrows in Hlt. destruct Hlt as [v Hv]. congruence.
  - unfold SaveVideo. cbn [fst]. f_equal. apply Z.ltb_lt.
    apply rows_find.
    pose proof (insert_present (set_Pushed false video) db) as Hin.
    rewrite set_Pushed_Code in Hin. apply existsb_has_code in Hin.
    apply existsb_exists in Hin. destruct Hin as (v & Hv & Hc).
    destruct (find (has_code (Code video))
                (videos (fst (insert_or_ignore (set_Pushed false video) db)))) eqn:E;
      [eauto|].
    exfalso. apply (find_none _ _ E) in Hv. congruence.
Qed.

(** X18: [SaveVideos] never reports negative numbers; when it succeeds,
    saved and duplicates add up to the videos handed over and the table
    grows by exactly the saved ones; when the database fails, nothing is
    stored and both numbers are zero. *)
Theorem SaveVideos_counts (fault : option error) (vs : list Video) (db : MySQLStore) :
  let '(db', (saved, duplicates, err)) := SaveVideos fault vs db in
  0 <= saved /\ 0 <= duplicates
  /\ (err = None ->
      saved + duplicates = Z.of_nat (length vs)
      /\ CountVideos None db'
         = Ok (Z.of_nat (length (videos db)) + saved))
  /\ (err <> None -> db' = db /\ saved = 0 /\ duplicates = 0).
Proof.
  unfold SaveVideos. destruct (Z.eqb_spec (Z.of_nat (length vs)) 0) as [H0|H0].
  - unfold CountVideos. repeat split; try lia; try easy. f_equal. lia.
  - destruct fault as [e|].
    + repeat split; try lia; easy.
    + pose proof (insert_batch_count (map (set_Pushed false) vs) db) as H.
      destruct (insert_batch (map (set_Pushed false) vs) db) as [db' rows].
      rewrite length_map in *. destruct H as [Hrows Hlen].
      unfold CountVideos. split; [lia|]. split; [lia|]. split; [|easy].
      intros _. split; [lia|]. f_equal. lia.
Qed.

Lemma mark_unpushed i (l : list Video) :
  filter (fun v => Pushed v = false)
    (map (fun v => if ID v =? i then set_Pushed true v else v) l)
  = filter (fun v => Pushed v = false /\ ID v <> i) l.
Proof.
  induction l as [|v l IH]; [reflexivity|]. cbn [map]. rewrite !filter_cons, IH.
  destruct (Z.eqb_spec (ID v) i) as [Hi|Hi].
  - cbn [Pushed set_Pushed].
    destruct (decide (true = false)); [easy|].
    destruct (decide (Pushed v = false /\ ID v <> i)); [tauto|reflexivity].
  - destruct (decide (Pushed v = false)), (decide (Pushed v = false /\ ID v <> i));
      tauto || reflexivity.
Qed.

Lemma mark_idem i (l : list Video) :
  map (fun v => if ID v =? i then set_Pushed true v else v)
    (map (fun v => if ID v =? i then set_Pushed true v else v) l)
  = map (fun v => if ID v =? i then set_Pushed true v else v) l.
Proof.
  rewrite map_map. apply map_ext. intros v.
  destruct (ID v =? i) eqn:E; cbn [ID set_Pushed]; now rewrite E.
Qed.

(** X19: [MarkAsPushed] takes the videos with the given id, and no other,
    out of the unpushed ones; it keeps the codes and the number of rows, and
    marking twice is marking once. *)
Theorem MarkAsPushed_unpushed (videoID : Z) (db : MySQLStore) :
  let db' := fst (MarkAsPushed None videoID db) in
  GetUnpushedVideos None db'
  = Ok (filter (fun v => Pushed v = false /\ ID v <> videoID) (videos db))
  /\ map Code (videos db') = map Code (videos db)
  /\ CountVideos None db' = CountVideos None db
  /\ MarkAsPushed None videoID db' = (db', None).
Proof.
  cbn zeta. unfold MarkAsPushed, GetUnpushedVideos, CountVideos.
  cbn [fst videos with_videos]. split; [|split; [|split]].
  - f_equal. apply mark_unpushed.
  - apply mark_codes.
  - now rewrite length_map.
  - unfold with_videos. cbn [videos subscriptions push_records next_id].
    now rewrite mark_idem.
Qed.

(** ** The delivery history *)

(** X20: after [RecordPush] a pair counts as delivered if it did before or
    if the record is a success for that very pair; a record of a failure
    changes the answer of [HasPushed] for no pair. *)
Theorem RecordPush_HasPushed (now videoID chatID : Z) (record : PushRecord)
    (db : MySQLStore) :
  let db' := fst (RecordPush None now record db) in
  HasPushed None videoID chatID db'
  = Ok ((0 <? count_success videoID chatID db) || is_success videoID chatID record)%bool
  /\ (Status record = PushStatusFailed ->
      HasPushed None videoID chatID db' = HasPushed None videoID chatID db)
  /\ videos db' = videos db /\ subscriptions db' = subscriptions db.
Proof.
  cbn zeta. unfold RecordPush, HasPushed, count_success.
  cbn [fst push_records videos subscriptions].
  rewrite filter_app, length_app, filter_cons, filter_nil.
  match goal with
  | |- context [decide (is_success ?v ?c ?r = true)] =>
      change (is_success v c r) with (is_success videoID chatID record)
  end.
  split; [|split; [|split; reflexivity]].
  - f_equal. destruct (is_success videoID chatID record).
    + destruct (decide (true = true)); [|easy]. cbn [length].
      rewrite orb_true_r. apply Z.ltb_lt. lia.
    + destruct (decide (false = true)); [easy|]. cbn [length].
      rewrite orb_false_r. f_equal. lia.
  - intros Hf. f_equal. unfold is_success. rewrite Hf.
    replace (String.eqb PushStatusFailed PushStatusSuccess) with false by reflexivity.
    rewrite andb_false_r. destruct (decide (false = true)); [easy|]. cbn [length].
    f_equal. lia.
Qed.

End StoreMoreFacts.

(* ===================================================================== *)
(** * Deliveries: the history, the backlog and the subscribers *)
(* ===================================================================== *)

Module PushMoreFacts.
Import Model GoStrings Store Push PushMore StoreFacts PushFacts.

(** ** One call *)

Lemma PushVideoToChat_others env video chatID s v c :
  (v, c) <> (ID video, chatID) ->
  count_success v c (store (fst (PushVideoToChat env video chatID s)))
  = count_success v c (store s).
Proof.
  intros Hne.
  destruct (PushVideoToChat_history env video chatID s) as [H|(r & H & Hv & Hc & _)];
    unfold count_success at 1; rewrite H; [reflexivity|].
  rewrite count_success_snoc. unfold is_success. rewrite Hv, Hc.
  destruct (Z.eqb_spec (ID video) v), (Z.eqb_spec chatID c); cbn [andb]; try lia.
  subst. now destruct Hne.
Qed.

Lemma PushVideoToChat_one_success env video chatID s :
  one_success_per_pair (store s) ->
  one_success_per_pair (store (fst (PushVideoToChat env video chatID s))).
Proof.
  intros Hs v c.
  destruct (decide ((v, c) = (ID video, chatID))) as [[= -> ->]|Hne].
  - apply PushVideoToChat_keeps_bound, Hs.
  - rewrite PushVideoToChat_others by exact Hne. apply Hs.
Qed.

Lemma push_to_subs_one_success video subs : forall envs pushedChats s,
  one_success_per_pair (store s) ->
  one_success_per_pair (store (push_to_subs video subs envs pushedChats s)).
Proof.
  induction subs as [|sub subs IH]; intros envs pushedChats s Hs; cbn [push_to_subs];
    [exact Hs|].
  destruct (default false (pushedChats !! ChatID sub)); [now apply IH|].
  destruct (next_env calm envs) as [env envs'].
  pose proof (PushVideoToChat_one_success env video (ChatID sub) s Hs) as H.
  destruct (PushVideoToChat env video (ChatID sub) s) as [s' [e|]]; now apply IH.
Qed.

Lemma sweep_one_success vs : forall envs s,
  one_success_per_pair (store s) -> one_success_per_pair (store (sweep vs envs s)).
Proof.
  induction vs as [|video vs IH]; intros envs s Hs; cbn [sweep]; [exact Hs|].
  destruct (next_env calm_video envs) as [env envs'].
  unfold PushVideoToSubscribers.
  destruct (GetMatchingSubscriptions _ video (store s)) as [subs|e]; [|now apply IH].
  pose proof (push_to_subs_one_success video subs (chat_envs (subs_env env)) ∅ s Hs) as H.
  unfold MarkAsPushed. destruct (mark_fault env); apply IH; exact H.
Qed.

Lemma PushUnpushedVideos_keeps_bound env s :
  one_success_per_pair (store s) ->
  one_success_per_pair (store (fst (PushUnpushedVideos env s))).
Proof.
  intros Hs. unfold PushUnpushedVideos.
  destruct (GetUnpushedVideos (unpushed_fault env) (store s)) as [vs|e]; cbn [fst];
    [now apply sweep_one_success|exact Hs].
Qed.

Lemma sweep_codes vs : forall envs s,
  map Code (videos (store (sweep vs envs s))) = map Code (videos (store s)).
Proof.
  induction vs as [|video vs IH]; intros envs s; cbn [sweep]; [reflexivity|].
  destruct (next_env calm_video envs) as [e envs'].
  unfold PushVideoToSubscribers.
  destruct (GetMatchingSubscriptions _ video (store s)) as [subs|err]; [|apply IH].
  unfold MarkAsPushed. destruct (mark_fault e); rewrite IH; cbn [store videos with_videos];
    rewrite ?mark_codes; now rewrite push_to_subs_videos.
Qed.

Lemma PushUnpushedVideos_codes env s :
  map Code (videos (store (fst (PushUnpushedVideos env s)))) = map Code (videos (store s)).
Proof.
  unfold PushUnpushedVideos.
  destruct (GetUnpushedVideos (unpushed_fault env) (store s)); cbn [fst]; [|reflexivity].
  apply sweep_codes.
Qed.

Lemma push_to_subs_subscriptions video subs : forall envs pushedChats s,
  subscriptions (store (push_to_subs video subs envs pushedChats s))
  = subscriptions (store s).
Proof.
  induction subs as [|sub subs IH]; intros envs pushedChats s; cbn [push_to_subs];
    [reflexivity|].
  destruct (default false (pushedChats !! ChatID sub)); [apply IH|].
  destruct (next_env calm envs) as [env envs'].
  assert (H : subscriptions (store (fst (PushVideoToChat env video (ChatID sub) s)))
              = subscriptions (store s)).
  { unfold PushVideoToChat, HasPushed. destruct (hasPushed_fault env); [reflexivity|].
    destruct (0 <? _)%Z; [reflexivity|]. destruct (limiter_err env); [reflexivity|].
    push_cases env video; unfold RecordPush; destruct (recordPush_fault env);
      reflexivity. }
  destruct (PushVideoToChat env video (ChatID sub) s) as [s' [e|]]; rewrite IH; exact H.
Qed.

Lemma sweep_subscriptions vs : forall envs s,
  subscriptions (store (sweep vs envs s)) = subscriptions (store s).
Proof.
  induction vs as [|video vs IH]; intros envs s; cbn [sweep]; [reflexivity|].
  destruct (next_env calm_video envs) as [e envs'].
  unfold PushVideoToSubscribers.
  destruct (GetMatchingSubscriptions _ video (store s)) as [subs|err]; [|apply IH].
  unfold MarkAsPushed. destruct (mark_fault e); rewrite IH;
    cbn [store subscriptions with_videos]; apply push_to_subs_subscriptions.
Qed.

(** X21: a whole sweep, whatever fails during it, keeps the history at one
    success per video and chat at most, adds or removes no video, and leaves
    the subscriptions as they are. *)
Theorem PushUnpushedVideos_one_success (env : SweepEnv) (s : Service) :
  one_success_per_pair (store s) ->
  one_success_per_pair (store (fst (PushUnpushedVideos env s)))
  /\ map Code (videos (store (fst (PushUnpushedVideos env s))))
     = map Code (videos (store s))
  /\ subscriptions (store (fst (PushUnpushedVideos env s))) = subscriptions (store s).
Proof.
  intros Hs. split; [now apply PushUnpushedVideos_keeps_bound|].
  split; [apply PushUnpushedVideos_codes|].
  unfold PushUnpushedVideos.
  destruct (GetUnpushedVideos (unpushed_fault env) (store s)) as [vs|e]; cbn [fst];
    [apply sweep_subscriptions|reflexivity].
Qed.

Lemma PushUnpushedVideos_one_success_witness :
  one_success_per_pair
    (store (fst (PushUnpushedVideos Samples.sweep_transport_down Samples.one_video_one_chat)))
  /\ map Code (videos (store (fst (PushUnpushedVideos Samples.sweep_transport_down
                                     Samples.one_video_one_chat))))
     = map Code (videos (store Samples.one_video_one_chat))
  /\ subscriptions (store (fst (PushUnpushedVideos Samples.sweep_transport_down
                                  Samples.one_video_one_chat)))
     = subscriptions (store Samples.one_video_one_chat).
Proof.
  apply (PushUnpushedVideos_one_success Samples.sweep_transport_down
           Samples.one_video_one_chat).
  intros v c. unfold count_success. simpl. lia.
Defined.

(** ** The backlog *)

(** X22: when the store answers, one sweep clears the backlog, whatever
    happens to the sends: no video is left unpushed, and a second sweep
    finds nothing to do and changes nothing. *)
Theorem PushUnpushedVideos_clears_backlog (env : SweepEnv) (s : Service) :
  unpushed_fault env = None -> Forall store_answers (video_envs env) ->
  let s' := fst (PushUnpushedVideos env s) in
  snd (PushUnpushedVideos env s) = None
  /\ GetUnpushedVideos None (store s') = Ok []
  /\ forall env', unpushed_fault env' = None -> PushUnpushedVideos env' s' = (s', None).
Proof.
  intros Hf Hans. cbn zeta.
  pose proof (sweep_marks_every_video env s Hf Hans) as Hnone.
  split; [|split; [exact Hnone|]].
  - unfold PushUnpushedVideos. now rewrite Hf.
  - intros env' Hf'. unfold PushUnpushedVideos at 1. now rewrite Hf', Hnone.
Qed.

Lemma PushUnpushedVideos_clears_backlog_witness :
  let s' := fst (PushUnpushedVideos Samples.sweep_transport_down Samples.one_video_one_chat) in
  snd (PushUnpushedVideos Samples.sweep_transport_down Samples.one_video_one_chat) = None
  /\ GetUnpushedVideos None (store s') = Ok []
  /\ forall env', unpushed_fault env' = None -> PushUnpushedVideos env' s' = (s', None).
Proof.
  apply (PushUnpushedVideos_clears_backlog Samples.sweep_transport_down
           Samples.one_video_one_chat).
  - reflexivity.
  - repeat constructor.
Defined.

(** ** One call, from the outside *)

(** X23: one [PushVideoToChat] makes at most two transport calls, all to the
    chat it was given, and none at all once the pair is on record as
    delivered; it adds at most one record; and when it returns no error and
    the record could be written, the pair is on record as delivered. *)
Theorem PushVideoToChat_outcome (env : ChatEnv) (video : Video) (chatID : Z)
    (s : Service) :
  let s' := fst (PushVideoToChat env video chatID s) in
  (exists sent,
     outbox s' = outbox s ++ sent /\ (length sent <= 2)%nat
     /\ (forall m, In m sent -> sent_to m = chatID)
     /\ (0 < count_success (ID video) chatID (store s) -> sent = []))
  /\ (length (push_records (store s')) <= S (length (push_records (store s))))%nat
  /\ (snd (PushVideoToChat env video chatID s) = None ->
      recordPush_fault env = None ->
      HasPushed None (ID video) chatID (store s') = Ok true).
Proof.
  cbn zeta. unfold PushVideoToChat, HasPushed.
  destruct (hasPushed_fault env).
  { cbn [fst snd]. split; [exists []; rewrite app_nil_r; repeat split; easy || (cbn; lia)|].
    split; [lia|discriminate]. }
  destruct (Z.ltb_spec 0 (count_success (ID video) chatID (store s))) as [Hdone|Hnew].
  { cbn [fst snd]. split; [exists []; rewrite app_nil_r; repeat split; easy || (cbn; lia)|].
    split; [lia|]. intros _ _. f_equal. now apply Z.ltb_lt. }
  destruct (limiter_err env).
  { cbn [fst snd]. split; [exists []; rewrite app_nil_r; repeat split; easy || (cbn; lia)|].
    split; [lia|discriminate]. }
  push_cases env video; unfold RecordPush; destruct (recordPush_fault env);
    cbn [fst snd store outbox push_records];
    (split;
     [ rewrite <- ?app_assoc; eexists; split; [reflexivity|];
       split; [cbn [length app]; lia|];
       split; [cbn; intros m Hm; intuition (subst; reflexivity)|intros ?; exfalso; lia]
     | split; [rewrite ?length_app; cbn [length]; lia|];
       try discriminate; intros _ _; f_equal; apply Z.ltb_lt;
       unfold count_success; cbn [push_records]; rewrite count_success_snoc;
       unfold is_success; cbn [VideoID RecChatID Status];
       rewrite !Z.eqb_refl; cbn; pose proof (count_success_nonneg (ID video) chatID (store s));
       lia ]).
Qed.

(** ** All subscribers, when nothing fails *)

Lemma calm_push video chatID s :
  let s' := fst (PushVideoToChat calm video chatID s) in
  snd (PushVideoToChat calm video chatID s) = None
  /\ 0 < count_success (ID video) chatID (store s')
  /\ exists sent,
       outbox s' = outbox s ++ sent
       /\ (forall m, In m sent ->
             sent_to m = chatID /\ sent = [m]
             /\ count_success (ID video) chatID (store s) = 0).
Proof.
  cbn zeta. unfold PushVideoToChat, HasPushed, calm.
  cbn [hasPushed_fault limiter_err sendVideo_err sendPhoto_err sendMarkdown_err
       recordPush_fault now].
  pose proof (count_success_nonneg (ID video) chatID (store s)) as Hnn.
  destruct (Z.ltb_spec 0 (count_success (ID video) chatID (store s))) as [Hdone|Hnew].
  { cbn [fst snd]. split; [reflexivity|]. split; [exact Hdone|].
    exists []. now rewrite app_nil_r. }
  destruct (nonempty (PreviewURL video)); decide_sends; cbn [negb orb];
    [|destruct (nonempty (CoverURL video))];
    unfold RecordPush; cbn [fst snd store outbox push_records];
    (split; [reflexivity|]; split;
     [ unfold count_success; cbn [push_records]; rewrite count_success_snoc;
       unfold is_success; cbn [VideoID RecChatID Status]; rewrite !Z.eqb_refl; cbn; lia
     | eexists; split; [reflexivity|];
       intros m [<-|[]]; cbn [sent_to]; repeat split; lia ]).
Qed.

Lemma pushed_lookup (pushedChats : gmap Z bool) c :
  default false (pushedChats !! c) = true <-> pushedChats !! c = Some true.
Proof. destruct (pushedChats !! c) as [[]|]; cbn; split; congruence. Qed.

(** The loop of [PushVideoToSubscribers] when nothing fails. *)
Lemma calm_loop video subs : forall (pushedChats : gmap Z bool) s,
  (forall c, pushedChats !! c = Some true -> 0 < count_success (ID video) c (store s)) ->
  let s' := push_to_subs video subs [] pushedChats s in
  (forall sub, In sub subs -> 0 < count_success (ID video) (ChatID sub) (store s'))
  /\ (forall c, count_success (ID video) c (store s)
                <= count_success (ID video) c (store s'))
  /\ exists sent,
       outbox s' = outbox s ++ sent /\ NoDup (map sent_to sent)
       /\ forall m, In m sent -> count_success (ID video) (sent_to m) (store s) = 0.
Proof.
  induction subs as [|sub subs IH]; intros pushedChats s Hinv; cbn zeta;
    cbn [push_to_subs next_env].
  - split; [easy|]. split; [intros; lia|].
    exists []. rewrite app_nil_r. repeat split; [constructor|easy].
  - destruct (default false (pushedChats !! ChatID sub)) eqn:Hp.
    + destruct (IH pushedChats s Hinv) as (Hall & Hmono & Hsent).
      split; [|split; [exact Hmono|exact Hsent]].
      intros x [<-|Hx]; [|now apply Hall].
      apply pushed_lookup, Hinv in Hp. specialize (Hmono (ChatID sub)). lia.
    + destruct (calm_push video (ChatID sub) s) as (Hr & Hc & sent1 & Hout1 & Hsent1).
      pose proof (PushVideoToChat_monotone calm video (ChatID sub) s) as Hm1.
      destruct (PushVideoToChat calm video (ChatID sub) s) as [s1 r]. cbn [fst snd] in *.
      subst r.
      destruct (IH (<[ChatID sub := true]> pushedChats) s1) as (Hall & Hmono & sent & Hout & Hnd & H0).
      { intros c. destruct (decide (c = ChatID sub)) as [->|Hne].
        - intros _. exact Hc.
        - rewrite lookup_insert_ne by congruence. intros Hc'.
          specialize (Hinv c Hc'). specialize (Hm1 (ID video) c). lia. }
      split; [|split].
      * intros x [<-|Hx]; [|now apply Hall]. specialize (Hmono (ChatID sub)). lia.
      * intros c. specialize (Hmono c). specialize (Hm1 (ID video) c). lia.
      * exists (sent1 ++ sent). rewrite Hout, Hout1, app_assoc. split; [reflexivity|].
        assert (Hzero : forall m, In m sent ->
                  count_success (ID video) (sent_to m) (store s) = 0).
        { intros m Hm. specialize (H0 m Hm). specialize (Hm1 (ID video) (sent_to m)).
          pose proof (count_success_nonneg (ID video) (sent_to m) (store s)). lia. }
        destruct sent1 as [|m1 rest].
        { cbn [app]. split; [exact Hnd|exact Hzero]. }
        destruct (Hsent1 m1 (or_introl eq_refl)) as (Hto & [= ->] & Hz).
        cbn [app map]. split.
        -- apply NoDup_cons. split; [|exact Hnd].
           intros Hin. apply list_elem_of_In, in_map_iff in Hin.
           destruct Hin as (m & Hm & Hin). specialize (H0 m Hin).
           rewrite Hm, Hto in H0. lia.
        -- intros m [<-|Hm]; [now rewrite Hto|now apply Hzero].
Qed.

(** X24: when nothing fails, [PushVideoToSubscribers] leaves every enabled
    subscription that matches the video on record as delivered, and sends
    the video to no chat twice, however many of its subscriptions match. *)
Theorem PushVideoToSubscribers_reaches_all (video : Video) (s : Service) :
  let s' := fst (PushVideoToSubscribers calm_subs video s) in
  (forall sub,
      In sub (subscriptions (store s)) -> Enabled sub = true ->
      MatchesSubscription (Some video) (Some sub) = true ->
      HasPushed None (ID video) (ChatID sub) (store s') = Ok true)
  /\ exists sent, outbox s' = outbox s ++ sent /\ NoDup (map sent_to sent).
Proof.
  cbn zeta. unfold PushVideoToSubscribers, calm_subs, GetMatchingSubscriptions,
    GetAllSubscriptions. cbn [matching_fault chat_envs fst].
  set (subs := filter (fun s0 => matchesSubscription video s0 = true)
                 (filter (fun s0 => Enabled s0 = true) (subscriptions (store s)))).
  destruct (calm_loop video subs ∅ s) as (Hall & _ & sent & Hout & Hnd & _).
  { intros c Hc. now rewrite lookup_empty in Hc. }
  split; [|now exists sent].
  intros sub Hin Hen Hmatch. unfold HasPushed. f_equal. apply Z.ltb_lt, Hall.
  unfold subs. apply list_elem_of_In, list_elem_of_filter. split.
  - now rewrite <- MatchFacts.MatchesSubscription_store.
  - apply list_elem_of_filter. split; [exact Hen|now apply list_elem_of_In].
Qed.

Example three_subs_two_messages :
  let s' := fst (PushVideoToSubscribers calm_subs Samples.sample_video three_subs) in
  outbox s' = [SentMarkdown 100; SentMarkdown 200]
  /\ map (fun r => (VideoID r, RecChatID r, Status r)) (push_records (store s'))
     = [(1, 100, PushStatusSuccess); (1, 200, PushStatusSuccess)].
Proof. vm_compute. split; reflexivity. Qed.

End PushMoreFacts.

(* ===================================================================== *)
(** * The scheduler: the running flag, progress, and one cycle *)
(* ===================================================================== *)

Module SchedulerMoreFacts.
Import Scheduler SchedulerMore SchedulerFacts.
Local Open Scope nat_scope.

Lemma count_flagged ths :
  count flagged ths
  = count (is_pc AtRunOnce) ths + count (is_pc InRunOnce) ths
    + count (is_pc AtStoreFalse) ths.
Proof. induction ths as [|[t [| | | | | |[]]] ths IH]; simpl; lia. Qed.

Lemma init_flag triggers : flag_tracks (init triggers).
Proof.
  unfold flag_tracks. simpl.
  assert (H : count flagged (map (fun t => (t, AtTryLock)) triggers) = 0).
  { induction triggers as [|t ts IH]; simpl; [reflexivity|exact IH]. }
  rewrite H. split; [discriminate|lia].
Qed.

Ltac flag_kept Hflag :=
  simpl; unfold move; rewrite count_flagged;
  etransitivity; [exact Hflag|]; lia.

Lemma step_flag i s : invariant s -> flag_tracks s -> flag_tracks (step i s).
Proof.
  intros [Hlock Hact Hcyc Hmax Hskip] Hflag. unfold flag_tracks in *. unfold step.
  destruct (threads s !! i) as [[t pc]|] eqn:E; [|exact Hflag].
  pose proof (fun p pc' => count_move p (threads s) i t pc t pc' E) as Hm.
  destruct pc; try exact Hflag; rewrite count_flagged in Hflag;
    rewrite count_holds_lock in Hlock.
  - destruct (mu s) eqn:Emu.
    + moved Hm (Returned false). flag_kept Hflag.
    + moved Hm AtStoreTrue. flag_kept Hflag.
  - moved Hm AtRunOnce. simpl. unfold move. rewrite count_flagged.
    split; intros; [lia|reflexivity].
  - moved Hm InRunOnce. flag_kept Hflag.
  - moved Hm AtStoreFalse. flag_kept Hflag.
  - moved Hm AtUnlock. simpl. unfold move. rewrite count_flagged.
    destruct (mu s); split; intros; try discriminate; lia.
  - moved Hm (Returned true). flag_kept Hflag.
Qed.

Lemma run_flag schedule : forall s,
  invariant s -> flag_tracks s -> flag_tracks (run schedule s).
Proof.
  induction schedule as [|i schedule IH]; intros s Hinv Hflag; simpl; [assumption|].
  apply IH; [now apply step_invariant|now apply step_flag].
Qed.

(** X25: whatever the triggers and however they interleave, [IsRunning]
    answers true exactly while some trigger is between its two stores of the
    flag; it is true throughout a cycle and only while the lock is held; and
    once every trigger has returned the scheduler is idle again: lock free,
    flag down, no cycle in progress. *)
Theorem IsRunning_during_cycle (triggers : list Trigger) (schedule : list nat) :
  let s := run schedule (init triggers) in
  (IsRunning s = true <-> 0 < count flagged (threads s))
  /\ (0 < active s -> IsRunning s = true)
  /\ (IsRunning s = true -> mu s = true)
  /\ (all_returned s -> mu s = false /\ IsRunning s = false /\ active s = 0).
Proof.
  intros s. unfold IsRunning.
  pose proof (run_invariant schedule _ (init_invariant triggers)) as Hinv.
  pose proof (run_flag schedule _ (init_invariant triggers) (init_flag triggers)) as Hflag.
  fold s in Hinv, Hflag. destruct Hinv as [Hlock Hact Hcyc Hmax Hskip].
  unfold flag_tracks in Hflag.
  pose proof (count_total (threads s)) as Htot.
  pose proof (count_holds_lock (threads s)) as Hh.
  pose proof (count_flagged (threads s)) as Hf.
  pose proof (count_in_cycle (threads s)) as Hi.
  split; [exact Hflag|]. split; [|split].
  - intros Ha. apply Hflag. lia.
  - intros Hr. apply Hflag in Hr. destruct (mu s); [reflexivity|lia].
  - unfold all_returned. intros Hall.
    assert (Hnone : count holds_lock (threads s) = 0) by lia.
    split; [destruct (mu s); [lia|reflexivity]|]. split; [|lia].
    destruct (running s) eqn:Er; [|reflexivity].
    assert (0 < count flagged (threads s)) by now apply Hflag. lia.
Qed.

(** ** Progress *)

Lemma actions_of_cons i j schedule :
  actions_of i (j :: schedule)
  = (if decide (j = i) then 1 else 0) + actions_of i schedule.
Proof. unfold actions_of. rewrite filter_cons. now destruct (decide (j = i)). Qed.

Lemma step_other i j s :
  i <> j -> threads (step j s) !! i = threads s !! i.
Proof.
  intros Hne. unfold step. destruct (threads s !! j) as [[t pc]|]; [|reflexivity].
  destruct pc; try destruct (mu s); cbn [threads]; unfold move;
    try reflexivity; now apply list_lookup_insert_ne.
Qed.

Lemma step_own i s t pc :
  threads s !! i = Some (t, pc) ->
  exists pc', threads (step i s) !! i = Some (t, pc')
              /\ remaining pc' <= remaining pc - 1.
Proof.
  intros E. unfold step. rewrite E.
  assert (Hi : i < length (threads s)) by (eapply lookup_lt_Some; eauto).
  destruct pc as [| | | | | |a]; try destruct (mu s); cbn [threads]; unfold move;
    try (eexists; split; [now apply list_lookup_insert_eq|]; cbn; lia).
  all: exists (Returned a); split; [exact E|]; cbn; lia.
Qed.

(** Each action of a trigger brings it one program point closer to its
    return, and the actions of the others do not touch it. *)
Lemma run_remaining schedule : forall s i t pc,
  threads s !! i = Some (t, pc) ->
  exists pc', threads (run schedule s) !! i = Some (t, pc')
              /\ remaining pc' <= remaining pc - actions_of i schedule.
Proof.
  induction schedule as [|j schedule IH]; intros s i t pc E.
  - exists pc. split; [exact E|]. cbn. lia.
  - cbn [run fold_left]. fold (run schedule (step j s)). rewrite actions_of_cons.
    destruct (decide (j = i)) as [->|Hne].
    + destruct (step_own i s t pc E) as (pc1 & E1 & H1).
      destruct (IH (step i s) i t pc1 E1) as (pc' & E' & H').
      exists pc'. split; [exact E'|]. lia.
    + rewrite <- (step_other i j s) in E by congruence.
      destruct (IH (step j s) i t pc E) as (pc' & E' & H').
      exists pc'. split; [exact E'|]. lia.
Qed.

(** X26: no trigger ever waits for another: a trigger that has acted six
    times has returned, however the actions of the others are interleaved
    with its own. *)
Theorem trigger_returns (triggers : list Trigger) (schedule : list nat)
    (i : nat) (t : Trigger) :
  triggers !! i = Some t ->
  6 <= actions_of i schedule ->
  exists a, threads (run schedule (init triggers)) !! i = Some (t, Returned a).
Proof.
  intros Ht Hacts.
  assert (E : threads (init triggers) !! i = Some (t, AtTryLock)).
  { cbn [init threads]. now rewrite list_lookup_fmap, Ht. }
  destruct (run_remaining schedule _ i t AtTryLock E) as (pc' & E' & H').
  destruct pc' as [| | | | | |a]; cbn in H'; try lia. now exists a.
Qed.

Lemma trigger_returns_witness :
  exists a,
    threads (run [1; 0; 1; 1; 0; 1; 1; 1] (init [Timer; Manual])) !! 1
    = Some (Manual, Returned a).
Proof.
  apply (trigger_returns [Timer; Manual] [1; 0; 1; 1; 0; 1; 1; 1] 1 Manual).
  - reflexivity.
  - vm_compute. lia.
Defined.

End SchedulerMoreFacts.

Module CycleFacts.
Import Model GoStrings Store Push PushMore Cycle StoreFacts PushFacts PushMoreFacts.

(** X27: one cycle.  A harvest cut short by the context is thrown away:
    [RunOnce] returns the context's error and neither saves nor sends.
    Otherwise it returns no error, whatever fails while saving or sending;
    if the batch insert goes through, the code of every harvested video is
    in the store afterwards; and if the store answers throughout the sweep,
    no video is left unpushed. *)
Theorem RunOnce_cycle (env : CycleEnv) (pages : Z) (s : Service) :
  let h := HTTPCrawler.CrawlNewVideos (world env) pages in
  let s' := fst (RunOnce env pages s) in
  (forall err, HTTPCrawler.failure h = Some err -> RunOnce env pages s = (s, Some err))
  /\ (HTTPCrawler.failure h = None ->
      snd (RunOnce env pages s) = None
      /\ (save_fault env = None ->
          forall v, In v (HTTPCrawler.found h) -> In (Code v) (map Code (videos (store s'))))
      /\ (unpushed_fault (sweep_env env) = None ->
          Forall store_answers (video_envs (sweep_env env)) ->
          GetUnpushedVideos None (store s') = Ok []))
  /\ (one_success_per_pair (store s) -> one_success_per_pair (store s')).
Proof.
  cbn zeta. unfold RunOnce.
  destruct (HTTPCrawler.failure (HTTPCrawler.CrawlNewVideos (world env) pages)) as [e|];
    cbn [fst snd].
  { split; [now intros err [= ->]|]. split; [discriminate|easy]. }
  split; [discriminate|]. split.
  - intros _. split; [reflexivity|]. split.
    + intros Hsave v Hv. rewrite PushUnpushedVideos_codes. cbn [store]. rewrite Hsave.
      destruct (Z.ltb_spec 0
        (HTTPCrawler.len (HTTPCrawler.found (HTTPCrawler.CrawlNewVideos (world env) pages))))
        as [Hpos|Hzero].
      * now apply SaveVideos_present.
      * unfold HTTPCrawler.len in Hzero.
        destruct (HTTPCrawler.found (HTTPCrawler.CrawlNewVideos (world env) pages));
          [easy|cbn in Hzero; lia].
    + intros Hf Hans. now apply sweep_marks_every_video.
  - intros Hone. apply PushUnpushedVideos_keeps_bound. cbn [store].
    destruct (0 <? _); [|exact Hone].
    unfold SaveVideos. destruct (_ =? 0)%Z; [exact Hone|].
    destruct (save_fault env); [exact Hone|].
    destruct (insert_batch _ (store s)) as [db' rows] eqn:E. cbn [fst].
    intros v c. unfold count_success.
    replace (push_records db') with (push_records (store s)); [apply Hone|].
    clear Hone. revert db' rows E. generalize (store s) as db.
    induction (map (set_Pushed false) _) as [|x l IH]; intros db db' rows E; cbn in E.
    + now injection E as <- _.
    + unfold insert_or_ignore in E. destruct (existsb _ (videos db)).
      * destruct (insert_batch l db) as [db2 n] eqn:E2. injection E as <- _.
        eapply IH. exact E2.
      * destruct (insert_batch l _) as [db2 n] eqn:E2. injection E as <- _.
        erewrite <- (IH _ _ _ E2). reflexivity.
Qed.

Example RunOnce_sample :
  let s' := fst (RunOnce (calm_cycle Samples.world_gap) 3 Samples.one_video_one_chat) in
  map (fun v => (Code v, Pushed v)) (videos (store s'))
  = [("CCC-3", true); ("AAA-1", true); ("ABC-123", true)]
  /\ map (fun r => (VideoID r, RecChatID r, Status r)) (push_records (store s'))
     = [(3, 100, PushStatusSuccess); (2, 100, PushStatusSuccess);
        (1, 100, PushStatusSuccess)]
  /\ RunOnce (calm_cycle (Pages.world_done_at 2)) 3 Samples.one_video_one_chat
     = (Samples.one_video_one_chat, Some HTTPCrawler.canceled).
Proof. vm_compute. repeat split; reflexivity. Qed.

End CycleFacts.

(* ===================================================================== *)
(** * The subscription commands *)
(* ===================================================================== *)

Module BotMoreFacts.
Import Model GoStrings Store StoreMore Bot BotMore GoStringsFacts StoreMoreFacts.

(** ** [strings.TrimSpace] *)

Lemma trim_right_cons c s :
  trim_right (String c s)
  = match trim_right s with
    | EmptyString => if is_space c then EmptyString else String c EmptyString
    | r => String c r
    end.
Proof. reflexivity. Qed.

Lemma trim_right_idem s : trim_right (trim_right s) = trim_right s.
Proof.
  induction s as [|c s IH]; [reflexivity|]. rewrite (trim_right_cons c s).
  destruct (trim_right s) as [|d r] eqn:E.
  - destruct (is_space c) eqn:Ec; [reflexivity|]. cbn [trim_right]. now rewrite Ec.
  - rewrite (trim_right_cons c (String d r)). now rewrite IH.
Qed.

Lemma trim_left_stops s : stops is_space (trim_left s).
Proof.
  induction s as [|c s IH]; [exact I|]. cbn [trim_left].
  destruct (is_space c) eqn:E; [exact IH|exact E].
Qed.

Lemma trim_right_stops s : stops is_space s -> stops is_space (trim_right s).
Proof.
  destruct s as [|c s]; [easy|]. rewrite trim_right_cons. cbn [stops]. intros Hc.
  destruct (trim_right s); [now rewrite Hc|exact Hc].
Qed.

Lemma trim_left_fixed s : stops is_space s -> trim_left s = s.
Proof. destruct s as [|c s]; [easy|]. cbn. now intros ->. Qed.

Lemma TrimSpace_idem s : TrimSpace (TrimSpace s) = TrimSpace s.
Proof.
  unfold TrimSpace.
  rewrite (trim_left_fixed (trim_right (trim_left s)))
    by apply trim_right_stops, trim_left_stops.
  apply trim_right_idem.
Qed.

Lemma DetermineSubscriptionType_trimmed args :
  DetermineSubscriptionType (TrimSpace args) = DetermineSubscriptionType args.
Proof. unfold DetermineSubscriptionType. now rewrite TrimSpace_idem. Qed.

(** ** Subscribing and unsubscribing *)

Lemma enable_filter (P : Subscription -> bool) i (l : list Subscription) :
  (forall s, P (set_Enabled true s) = P s) ->
  (forall s, In s l -> SubID s = i -> P s = true) ->
  filter (fun s => P s = false)
    (map (fun s => if SubID s =? i then set_Enabled true s else s) l)
  = filter (fun s => P s = false) l.
Proof.
  intros Hen. induction l as [|s l IH]; intros Hrows; [reflexivity|].
  cbn [map]. rewrite !filter_cons.
  rewrite IH by (intros s' Hs'; apply Hrows; now right).
  destruct (Z.eqb_spec (SubID s) i) as [Hid|Hid]; [|reflexivity].
  rewrite Hen, (Hrows s (or_introl eq_refl) Hid).
  now destruct (decide (true = false)).
Qed.

Section CollationFacts.
Variable text_eq : string -> string -> bool.
Hypothesis text_eq_refl : forall s, text_eq s s = true.

Lemma CreateSubscription_succeeds fresh sub db :
  snd (CreateSubscription text_eq None None fresh sub db) = None.
Proof. unfold CreateSubscription. now destruct (find _ _). Qed.

(** What [CreateSubscription] changes lies within any class of rows that
    holds the subscription itself. *)
Lemma create_filter (P : Subscription -> bool) fresh sub db :
  unique_ids db ->
  (forall s, P (set_Enabled true s) = P s) ->
  (forall s, same_subscription text_eq (ChatID sub) (SubType sub) (Keyword sub) s = true ->
             P s = true) ->
  filter (fun s => P s = false)
    (subscriptions (fst (CreateSubscription text_eq None None fresh sub db)))
  = filter (fun s => P s = false) (subscriptions db).
Proof.
  intros Hids Hen Hsame. unfold CreateSubscription.
  destruct (find _ (subscriptions db)) as [existing|] eqn:E;
    cbn [fst subscriptions with_subscriptions].
  - destruct (find_some_in _ _ _ E) as [Hin Hex].
    apply enable_filter; [exact Hen|]. intros s Hs Hid.
    rewrite (unique_id_row _ s existing Hids Hs Hin Hid). now apply Hsame.
  - rewrite filter_app, filter_cons, filter_nil.
    rewrite (Hsame _ (same_new text_eq text_eq_refl fresh sub)).
    destruct (decide (true = false)); [easy|]. apply app_nil_r.
Qed.

(** X28: unsubscribing with the argument one subscribed with leaves no row
    of that subscription and every other row as it was; with an empty
    argument, which subscribes to everything, unsubscribing removes every
    subscription of the chat, also those made with other arguments. *)
Theorem unsubscribe_undoes_subscribe (fresh chatID : Z) (chatType args : string)
    (db : MySQLStore) :
  unique_ids db ->
  let db1 := fst (handleSubscribe text_eq None None fresh chatID chatType args db) in
  let db2 := fst (handleUnsubscribe text_eq None chatID args db1) in
  subscriptions db2
  = if String.eqb (TrimSpace args) ""
    then filter (fun s => in_chat chatID s = false) (subscriptions db)
    else filter (fun s => same_subscription text_eq chatID
                            (fst (DetermineSubscriptionType args))
                            (snd (DetermineSubscriptionType args)) s = false)
           (subscriptions db).
Proof.
  intros Hids. cbn zeta. unfold handleSubscribe, handleUnsubscribe.
  rewrite DetermineSubscriptionType_trimmed.
  destruct (DetermineSubscriptionType args) as [subType keyword]. cbn [fst snd].
  set (sub := {| SubID := 0; ChatID := chatID; ChatType := chatType;
                 SubType := subType; Keyword := keyword; Enabled := true |}).
  pose proof (CreateSubscription_succeeds fresh sub db) as Hok.
  destruct (CreateSubscription text_eq None None fresh sub db) as [db1 r] eqn:E.
  cbn [snd] in Hok. subst r. cbn [fst].
  assert (Hdb1 : db1 = fst (CreateSubscription text_eq None None fresh sub db))
    by now rewrite E.
  destruct (String.eqb (TrimSpace args) "").
  - unfold DeleteAllSubscriptions. cbn [fst subscriptions with_subscriptions].
    rewrite Hdb1.
    apply (create_filter (in_chat chatID) fresh sub db Hids); [reflexivity|].
    intros s Hs. unfold same_subscription in Hs. cbn [ChatID sub] in Hs.
    unfold in_chat. now destruct (ChatID s =? chatID).
  - unfold DeleteSubscription. cbn [fst subscriptions with_subscriptions].
    rewrite Hdb1.
    apply (create_filter (same_subscription text_eq chatID subType keyword)
             fresh sub db Hids); [reflexivity|].
    intros s Hs. exact Hs.
Qed.

End CollationFacts.

Lemma unsubscribe_undoes_subscribe_witness :
  let db1 := fst (handleSubscribe String.eqb None None 4 100 "private" " #hd " two_chats) in
  let db2 := fst (handleUnsubscribe String.eqb None 100 " #hd " db1) in
  subscriptions db2
  = if String.eqb (TrimSpace " #hd ") ""
    then filter (fun s => in_chat 100 s = false) (subscriptions two_chats)
    else filter (fun s => same_subscription String.eqb 100
                            (fst (DetermineSubscriptionType " #hd "))
                            (snd (DetermineSubscriptionType " #hd ")) s = false)
           (subscriptions two_chats).
Proof.
  apply (unsubscribe_undoes_subscribe String.eqb String.eqb_refl 4 100 "private" " #hd "
           two_chats).
  unfold unique_ids. apply (bool_decide_unpack _). vm_compute. exact I.
Defined.

Example subscribe_all_then_unsubscribe :
  let db1 := fst (handleSubscribe String.eqb None None 4 100 "private" "" two_chats) in
  map SubID (subscriptions db1) = [1; 2; 3; 4]
  /\ map SubID (subscriptions (fst (handleUnsubscribe String.eqb None 100 "  " db1))) = [2]
  /\ snd (handleUnsubscribe String.eqb None 100 "  " db1) = [UnsubscribedAll].
Proof. vm_compute. repeat split; reflexivity. Qed.

(** ** Groups *)

Lemma listed_nonempty text_eq lookup write fresh chatID chatType db :
  lookup = None -> write = None ->
  exists s rest,
    GetSubscriptions None chatID
      (fst (CreateSubscription text_eq lookup write fresh
              {| SubID := 0; ChatID := chatID; ChatType := chatType;
                 SubType := SubTypeAll; Keyword := ""; Enabled := true |} db))
    = Ok (s :: rest).
Proof.
  intros -> ->. unfold CreateSubscription, GetSubscriptions. cbn [ChatID SubType Keyword].
  destruct (find _ (subscriptions db)) as [existing|] eqn:E;
    cbn [fst subscriptions with_subscriptions].
  - destruct (find_some_in _ _ _ E) as [Hin Hsame].
    assert (Hchat : in_chat chatID existing = true).
    { unfold same_subscription in Hsame. unfold in_chat.
      now destruct (ChatID existing =? chatID). }
    set (f := fun s => if SubID s =? SubID existing then set_Enabled true s else s).
    assert (Hl : In (set_Enabled true existing) (map f (subscriptions db))).
    { apply in_map_iff. exists existing. unfold f. now rewrite Z.eqb_refl. }
    assert (Hf : In (set_Enabled true existing)
                   (filter (fun s => in_chat chatID s = true /\ Enabled s = true)
                      (map f (subscriptions db)))).
    { apply list_elem_of_In, list_elem_of_filter. split; [now split|].
      now apply list_elem_of_In. }
    destruct (filter _ (map f (subscriptions db))) as [|s rest]; [easy|eauto].
  - rewrite filter_app, filter_cons, filter_nil.
    destruct (decide _) as [_|Hno].
    + destruct (filter _ (subscriptions db)); cbn [app]; eauto.
    + exfalso. apply Hno. unfold in_chat. cbn [ChatID Enabled]. now rewrite Z.eqb_refl.
Qed.

(** X29: a group is subscribed to everything by its first message and by
    no later one: when the store answers, a chat that has a subscription is
    left alone, a chat that has none has one afterwards, and a second
    message changes nothing; a chat that is not a group is never touched. *)
Theorem autoSubscribeGroup_once (text_eq : string -> string -> bool)
    (fresh fresh' chatID : Z) (chatType : string) (db : MySQLStore) :
  let db1 := autoSubscribeGroup text_eq None None None fresh chatID chatType db in
  (GetSubscriptions None chatID db <> Ok [] -> db1 = db)
  /\ GetSubscriptions None chatID db1 <> Ok []
  /\ autoSubscribeGroup text_eq None None None fresh' chatID chatType db1 = db1
  /\ (chatType <> "group" -> chatType <> "supergroup" ->
      handleMessage text_eq None None None fresh chatID chatType db = db).
Proof.
  cbn zeta.
  assert (Hskip : forall f d,
    GetSubscriptions None chatID d <> Ok [] ->
    autoSubscribeGroup text_eq None None None f chatID chatType d = d).
  { intros f d Hne. unfold autoSubscribeGroup. unfold GetSubscriptions in *.
    destruct (filter _ (subscriptions d)) as [|x l]; [easy|reflexivity]. }
  assert (Hlisted :
    GetSubscriptions None chatID
      (autoSubscribeGroup text_eq None None None fresh chatID chatType db) <> Ok []).
  { unfold autoSubscribeGroup.
    destruct (GetSubscriptions None chatID db) as [subs|e] eqn:E; [|discriminate].
    destruct subs as [|x l].
    - change (0 <? Z.of_nat (length (@nil Subscription))) with false. cbv iota.
      destruct (listed_nonempty text_eq None None fresh chatID chatType db
                  eq_refl eq_refl) as (s & rest & ->). discriminate.
    - replace (0 <? Z.of_nat (length (x :: l))) with true
        by (symmetry; apply Z.ltb_lt; cbn [length]; lia).
      rewrite E. discriminate. }
  split; [apply Hskip|]. split; [exact Hlisted|]. split; [now apply Hskip|].
  intros Hg Hs. unfold handleMessage.
  apply String.eqb_neq in Hg, Hs. now rewrite Hg, Hs.
Qed.

End BotMoreFacts.

(* ===================================================================== *)
(** * Escaping *)
(* ===================================================================== *)

Module FormatterFacts.
Import GoStrings GoStringsFacts Formatter.

(** Replacing a single byte, byte by byte. *)
Lemma ReplaceAll_byte c new x s :
  ReplaceAll (String x s) (String c "") new
  = (if Ascii.eqb c x then new else String x "") +:+ ReplaceAll s (String c "") new.
Proof.
  unfold ReplaceAll. cbn [replace_from HasPrefix String.length Nat.sub].
  destruct (Ascii.eqb c x); reflexivity.
Qed.

Lemma ReplaceAll_append c new a b :
  ReplaceAll (a +:+ b) (String c "") new
  = ReplaceAll a (String c "") new +:+ ReplaceAll b (String c "") new.
Proof.
  induction a as [|x a IH]; [reflexivity|]. cbn [String.append].
  now rewrite !ReplaceAll_byte, IH, append_assoc.
Qed.

Lemma escape_with_append chars : forall a b,
  Forall (fun char => exists c, char = String c "") chars ->
  escape_with chars (a +:+ b) = escape_with chars a +:+ escape_with chars b.
Proof.
  induction chars as [|char chars IH]; intros a b Hc; [reflexivity|].
  apply Forall_cons in Hc as [[c ->] Hc]. unfold escape_with in *. cbn [fold_left].
  now rewrite ReplaceAll_append, IH.
Qed.

Lemma specialChars_bytes : Forall (fun char => exists c, char = String c "") specialChars.
Proof. unfold specialChars. repeat constructor; eexists; reflexivity. Qed.

(** What the replacements do to each of the 256 bytes. *)
Lemma escape_byte_table :
  all_ascii (fun c =>
    String.eqb (EscapeMarkdown (String c ""))
      (if is_special c then String "\" (String c "") else String c "")) = true.
Proof. vm_compute. reflexivity. Qed.

Lemma escape_byte c :
  EscapeMarkdown (String c "")
  = if is_special c then String "\" (String c "") else String c "".
Proof. apply String.eqb_eq. exact (all_ascii_spec _ escape_byte_table c). Qed.

(** X30: the eighteen replacements of [EscapeMarkdown], applied one after
    the other, amount to one pass that puts a backslash before each special
    byte and touches nothing else: no replacement disturbs another, the text
    grows by one byte for each special byte, and a text without special
    bytes is returned as it is. *)
Theorem EscapeMarkdown_one_pass (text : string) :
  EscapeMarkdown text = escape_each text
  /\ String.length (EscapeMarkdown text) = (String.length text + specials text)%nat
  /\ (specials text = O -> EscapeMarkdown text = text).
Proof.
  assert (H1 : EscapeMarkdown text = escape_each text).
  { induction text as [|c text IH]; [reflexivity|].
    change (String c text) with (String c "" +:+ text). unfold EscapeMarkdown at 1.
    rewrite (escape_with_append specialChars _ _ specialChars_bytes).
    fold (EscapeMarkdown (String c "")). fold (EscapeMarkdown text).
    rewrite escape_byte, IH. cbn [String.append escape_each].
    now destruct (is_special c). }
  rewrite H1. clear H1. split; [reflexivity|]. split.
  - induction text as [|c text IH]; [reflexivity|]. cbn [escape_each specials].
    destruct (is_special c); cbn [String.length]; rewrite IH; lia.
  - induction text as [|c text IH]; [reflexivity|]. cbn [escape_each specials].
    destruct (is_special c); [discriminate|]. cbn [plus]. intros H. now rewrite IH.
Qed.

Example EscapeMarkdown_samples :
  EscapeMarkdown "ABC-123" = "ABC\-123"
  /\ EscapeMarkdown "a_b*c" = "a\_b\*c"
  /\ EscapeMarkdown "https://missav.ai/abc-123" = "https://missav\.ai/abc\-123"
  /\ EscapeMarkdown (EscapeMarkdown "a.b") = "a\\.b"
  /\ EscapeMarkdown "a\b" = "a\b".
Proof. vm_compute. repeat split; reflexivity. Qed.

End FormatterFacts.
